(** * MAKORA broker gateway: a shallow embedding of the eToro provider layer

    The development follows the TypeScript sources of the gateway:

    - [client.ts]      : the sliding-window [RateLimiter] owned by [EtoroClient];
    - [trading.ts]     : [EtoroTradingProvider] ([getAccount], [closePosition],
                         [createOrder] and the short-TTL caches with
                         in-flight deduplication);
    - [instruments.ts] : [EtoroInstrumentCache] (symbol to instrument id);
    - [lib/errors.ts]  : the closed error taxonomy;
    - the SQL schema of [risk_state] and [order_approvals].

    Conventions of the embedding.

    - [Date.now()] is a [Z] (milliseconds).  One synchronous segment of
      JavaScript (the code between two [await]s) reads one clock value.
    - JavaScript numbers that carry money, prices and quantities are modelled
      as exact rationals [Q]; [undefined]/[null] is [None].
    - A rejected promise or a thrown [MakoraError] is [Err code]; a fulfilled
      one is [Ok v].
    - An [async] function that suspends is split at its [await] into the
      synchronous segments the event loop runs; interleavings of several
      callers are lists of events over an explicit state. *)

From Stdlib Require Import ZArith QArith Qminmax Lia Lqa List Bool Ascii String.
From stdpp Require Import base option list strings pretty gmap.

Set Default Proof Using "Type".
Local Open Scope Z_scope.

(** ** Error taxonomy ([lib/errors.ts]) *)

Inductive ErrorCode : Type :=
  | INVALID_INPUT
  | UNAUTHORIZED
  | FORBIDDEN
  | NOT_FOUND
  | CONFLICT
  | RATE_LIMITED
  | PROVIDER_ERROR
  | POLICY_VIOLATION
  | KILL_SWITCH_ACTIVE
  | INVALID_APPROVAL_TOKEN
  | EXPIRED_APPROVAL_TOKEN
  | MARKET_CLOSED
  | INSUFFICIENT_BUYING_POWER
  | FEATURE_DISABLED
  | NOT_SUPPORTED
  | INTERNAL_ERROR.

Global Instance ErrorCode_eq_dec : EqDecision ErrorCode.
Proof. solve_decision. Defined.

(** Outcome of a promise or of a call that may throw. *)
Inductive result (A : Type) : Type :=
  | Ok (v : A)
  | Err (code : ErrorCode).
Arguments Ok {A} v.
Arguments Err {A} code.

Definition is_ok {A} (r : result A) : bool :=
  match r with Ok _ => true | Err _ => false end.

Definition is_Some_b {A} (o : option A) : bool :=
  match o with Some _ => true | None => false end.

(** [a ?? b] of JavaScript. *)
Definition nullish {A} (a : option A) (b : A) : A :=
  match a with Some v => v | None => b end.

Definition nullish_opt {A} (a b : option A) : option A :=
  match a with Some v => Some v | None => b end.

(** [o?.f] of JavaScript, for an optional field [f]. *)
Definition opt_chain {A B} (o : option A) (f : A -> option B) : option B :=
  match o with Some v => f v | None => None end.
Notation "o ?. f" := (opt_chain o f) (at level 19, left associativity).

(** ** RateLimiter ([client.ts]) *)

Module RateLimiter.

Definition windowMs : Z := 60000.

(** [class RateLimiter]: the [timestamps] array and the configured cap. *)
Record t : Type := mk {
  timestamps : list Z;
  maxRequests : Z
}.

Definition create (maxRequests : Z) : t := mk [] maxRequests.

(** The [while] loop of [prune]: shift while the head is older than the
    cutoff. *)
Fixpoint prune_loop (cutoff : Z) (ts : list Z) : list Z :=
  match ts with
  | [] => []
  | x :: rest => if x <? cutoff then prune_loop cutoff rest else x :: rest
  end.

Definition prune (now : Z) (r : t) : t :=
  mk (prune_loop (now - windowMs) (timestamps r)) (maxRequests r).

Definition push (now : Z) (r : t) : t :=
  mk (timestamps r ++ [now]) (maxRequests r).

(** [get pending] *)
Definition pending (now : Z) (r : t) : t * Z :=
  let r' := prune now r in (r', Z.of_nat (length (timestamps r'))).

(** [acquire] up to its [await]: either the slot is consumed at once, or
    the caller is suspended on a timer of [waitMs] milliseconds. *)
Inductive acquire_step : Type :=
  | Granted (r : t)
  | Suspended (r : t) (waitMs : Z).

Definition acquire_begin (now : Z) (r : t) : acquire_step :=
  let r1 := prune now r in
  if Z.of_nat (length (timestamps r1)) >=? maxRequests r1 then
    match timestamps r1 with
    | oldest :: _ =>
        let waitMs := oldest + windowMs - now + 50 in
        if waitMs >? 0 then Suspended r1 waitMs else Granted (push now r1)
    | [] =>
        (* [timestamps[0]] is undefined, [waitMs] is NaN and [NaN > 0]
           is false *)
        Granted (push now r1)
    end
  else Granted (push now r1).

(** [acquire] after the timer fired: prune again, then push
    unconditionally. *)
Definition acquire_resume (now : Z) (r : t) : t := push now (prune now r).

(** *** The event loop around one limiter

    [sleepers] holds, for each suspended caller, the earliest time its
    timer may fire; [granted] is the history of every timestamp ever
    pushed (a ghost field, the limiter itself forgets pruned ones). *)
Record sys : Type := mkSys {
  limiter : t;
  sleepers : list Z;
  clock : Z;
  granted : list Z
}.

Definition init (cap : Z) : sys := mkSys (create cap) [] 0 [].

Inductive event : Type :=
  | Call (now : Z)            (* a caller enters [acquire] *)
  | Wake (now : Z) (i : nat)  (* the timer of sleeper [i] fires *).

Definition step (e : event) (s : sys) : option sys :=
  match e with
  | Call now =>
      if now <? clock s then None
      else match acquire_begin now (limiter s) with
           | Granted r => Some (mkSys r (sleepers s) now (granted s ++ [now]))
           | Suspended r w => Some (mkSys r (sleepers s ++ [now + w]) now (granted s))
           end
  | Wake now i =>
      match sleepers s !! i with
      | Some due =>
          if (now <? clock s) || (now <? due) then None
          else Some (mkSys (acquire_resume now (limiter s))
                           (delete i (sleepers s)) now (granted s ++ [now]))
      | None => None
      end
  end.

Fixpoint run (es : list event) (s : sys) : option sys :=
  match es with
  | [] => Some s
  | e :: rest => match step e s with Some s' => run rest s' | None => None end
  end.

(** A run is sequential when no caller enters [acquire] while another one
    is suspended in it (each [await acquire()] finishes before the next
    starts). *)
Definition step_seq (e : event) (s : sys) : option sys :=
  match e, sleepers s with
  | Call _, _ :: _ => None
  | _, _ => step e s
  end.

Fixpoint run_seq (es : list event) (s : sys) : option sys :=
  match es with
  | [] => Some s
  | e :: rest => match step_seq e s with Some s' => run_seq rest s' | None => None end
  end.

(** Number of admitted timestamps in the trailing window that ends at [T]. *)
Definition in_window (T x : Z) : bool := (T - windowMs <=? x) && (x <=? T).

Definition window_count (T : Z) (l : list Z) : Z :=
  Z.of_nat (length (List.filter (in_window T) l)).

End RateLimiter.

(** ** JavaScript string helpers used by the providers

    Strings are sequences of one-byte characters; [toUpperCase] and [trim]
    act on the ASCII letters and the ASCII white space. *)

Module JsString.

Definition upper_ascii (c : ascii) : ascii :=
  let n := nat_of_ascii c in
  if (Nat.leb 97 n && Nat.leb n 122)%bool then ascii_of_nat (n - 32) else c.

Fixpoint toUpperCase (s : string) : string :=
  match s with
  | EmptyString => EmptyString
  | String c rest => String (upper_ascii c) (toUpperCase rest)
  end.

Definition is_space (c : ascii) : bool :=
  let n := nat_of_ascii c in
  (Nat.eqb n 32 || (Nat.leb 9 n && Nat.leb n 13))%bool.

Fixpoint trimStart (s : string) : string :=
  match s with
  | EmptyString => EmptyString
  | String c rest => if is_space c then trimStart rest else s
  end.

(** [trimEnd] keeps a character when it is not white space or when something
    that is kept follows it. *)
Fixpoint trimEnd (s : string) : string :=
  match s with
  | EmptyString => EmptyString
  | String c rest =>
      match trimEnd rest with
      | EmptyString => if is_space c then EmptyString else String c EmptyString
      | kept => String c kept
      end
  end.

Definition trim (s : string) : string := trimEnd (trimStart s).

Fixpoint drop (n : nat) (s : string) : string :=
  match n, s with
  | O, _ => s
  | S n', String _ rest => drop n' rest
  | S _, EmptyString => EmptyString
  end.

(** [s.startsWith(p)] *)
Definition startsWith (p s : string) : bool := String.prefix p s.

(** [s.includes(p)] *)
Fixpoint includes (p s : string) : bool :=
  if startsWith p s then true
  else match s with
       | EmptyString => false
       | String _ rest => includes p rest
       end.

(** [s.endsWith(p)] *)
Fixpoint endsWith (p s : string) : bool :=
  if String.eqb s p then true
  else match s with
       | EmptyString => false
       | String _ rest => endsWith p rest
       end.

(** [s.replace(p, r)] with a string pattern: only the first occurrence. *)
Fixpoint replace (p r s : string) : string :=
  if startsWith p s then String.append r (drop (String.length p) s)
  else match s with
       | EmptyString => EmptyString
       | String c rest => String c (replace p r rest)
       end.

(** [s.split(p)[0]] for a non-empty separator: the part before its first
    occurrence, the whole string when there is none. *)
Fixpoint split_head (p s : string) : string :=
  if startsWith p s then EmptyString
  else match s with
       | EmptyString => EmptyString
       | String c rest => String c (split_head p rest)
       end.

(** [s.slice(0, -n)] *)
Definition slice_end (n : nat) (s : string) : string :=
  String.substring 0 (String.length s - n) s.

(** Truthiness of a string: the empty string is falsy. *)
Definition truthy (s : string) : bool := negb (String.eqb s EmptyString).

End JsString.

(** Insertion-ordered [Set] of strings turned into an array. *)
Fixpoint set_add (x : string) (l : list string) : list string :=
  match l with
  | [] => [x]
  | y :: rest => if String.eqb x y then l else y :: set_add x rest
  end.

(** ** Broker wire types *)

Inductive EtoroEnvironment : Type := demo | real.

(** [interface EtoroRate] *)
Record EtoroRate : Type := mkRate {
  rate_instrumentId : option Z;
  rate_instrumentID : option Z;
  ask : option Q;
  bid : option Q;
  lastExecution : option Q
}.

Record EtoroRatesResponse : Type := mkRatesResponse {
  rates : option (list EtoroRate)
}.

(** [interface EtoroPortfolioPosition] *)
Record EtoroPortfolioPosition : Type := mkRawPosition {
  positionId : option Z;
  positionID : option Z;
  PositionID : option Z;
  pos_instrumentId : option Z;
  pos_instrumentID : option Z;
  pos_InstrumentID : option Z;
  isBuy : option bool;
  openRate : option Q;
  closeRate : option Q;
  amount : option Q;
  units : option Q;
  pnL : option Q;
  pnl : option Q;
  PnL : option Q;
  pos_unrealizedPnL : option Q
}.

Record EtoroMirror : Type := mkMirror {
  mirror_positions : option (list EtoroPortfolioPosition)
}.

Record ClientPortfolio : Type := mkClientPortfolio {
  credit : option Q;
  unrealizedPnL : option Q;
  positions : option (list EtoroPortfolioPosition);
  mirrors : option (list EtoroMirror)
}.

Record EtoroPortfolioResponse : Type := mkPortfolioResponse {
  clientPortfolio : option ClientPortfolio
}.

(** [interface EtoroSearchItem] *)
Record EtoroSearchItem : Type := mkSearchItem {
  item_instrumentId : option Z;
  item_instrumentID : option Z;
  internalSymbolFull : option string;
  symbolFull : option string;
  fullSymbolName : option string;
  displayName : option string;
  name : option string
}.

Record EtoroSearchResponse : Type := mkSearchResponse {
  items : option (list EtoroSearchItem);
  instruments_items : option (list EtoroSearchItem)  (* [instruments?.items] *)
}.

(** [interface EtoroInstrumentDisplayData] *)
Record EtoroInstrumentDisplayData : Type := mkDisplayData {
  dd_instrumentId : option Z;
  dd_instrumentID : option Z;
  instrumentDisplayName : option string;
  dd_instrumentTypeId : option Z;
  dd_exchangeId : option Z;
  dd_symbolFull : option string
}.

Record EtoroInstrumentMetadataResponse : Type := mkMetadataResponse {
  instrumentDisplayDatas : option (list EtoroInstrumentDisplayData)
}.

(** [orderForOpen] of [interface EtoroOrderOpenResponse] *)
Record OrderForOpen : Type := mkOrderForOpen {
  oo_orderID : option Z;
  oo_statusID : option Z;
  oo_instrumentID : option Z;
  oo_amountInUnits : option Q
}.

Record EtoroOrderOpenResponse : Type := mkOrderOpenResponse {
  orderForOpen : option OrderForOpen
}.

(** Body of [POST /trading/execution/{env}/market-open-orders/by-units]; the
    remaining fields of the body are constants ([Leverage: 1],
    [StopLossRate: null], ...). *)
Record OpenOrderBody : Type := mkOpenOrderBody {
  InstrumentID : Z;
  IsBuy : bool;
  AmountInUnits : Q
}.

(** Body of [POST /trading/execution/{env}/market-close-orders/positions/{id}];
    [UnitsToDeduct] is [null] when neither [qty] nor [percentage] is given. *)
Record ClosePositionBody : Type := mkClosePositionBody {
  InstrumentId : Z;
  UnitsToDeduct : option Q
}.

(** The fields [mapGenericOrder] reads from the close response. *)
Record GenericOrderResponse : Type := mkGenericOrderResponse {
  g_orderId : option Z;
  g_orderID : option Z;
  g_id : option Z
}.

(** The requests the modelled operations send through [EtoroClient]. *)
Inductive Request : Type :=
  | GET_search (internalSymbolFull : string)
  | GET_rates
  | GET_instruments
  | GET_portfolio (env : EtoroEnvironment)
  | GET_pnl (env : EtoroEnvironment)
  | POST_market_open_by_units (env : EtoroEnvironment) (body : OpenOrderBody)
  | POST_market_close_position (env : EtoroEnvironment) (positionId : Z)
                               (body : ClosePositionBody).

(** The broker behind the transport (a mocked [fetch]): what each endpoint
    answers, and how long a request takes (waiting for the rate limiter
    included). *)
Record Broker : Type := mkBroker {
  on_search : string -> result EtoroSearchResponse;
  on_rates : result EtoroRatesResponse;
  on_instruments : result EtoroInstrumentMetadataResponse;
  on_portfolio : result EtoroPortfolioResponse;
  on_pnl : result EtoroPortfolioResponse;
  on_open_order : OpenOrderBody -> result EtoroOrderOpenResponse;
  on_close_position : Z -> ClosePositionBody -> result GenericOrderResponse;
  latency : Request -> Z
}.

(** ** Risk state (table [risk_state]) *)

Record RiskState : Type := mkRiskState {
  kill_switch_active : bool;
  kill_switch_reason : option string;
  daily_loss_usd : Q;
  daily_loss_reset_at : option Z;
  cooldown_until : option Z
}.

(** ** The sequential world: one clock, the transport log and the state of
    the two stateful provider objects *)

(** [type CachedInstrument] *)
Record CachedInstrument : Type := mkCachedInstrument {
  symbol : string;
  instrumentTypeId : option Z;
  exchangeId : option Z;
  meta_updatedAt : Z
}.

(** Value type of the [symbolToId] map. *)
Record SymbolEntry : Type := mkSymbolEntry {
  id : Z;
  updatedAt : Z
}.

(** Fields of [class EtoroInstrumentCache].  A pending promise is named by
    a number; [None] is [null]. *)
Record EtoroInstrumentCache : Type := mkInstrumentCache {
  symbolToId : gmap string SymbolEntry;
  idToMeta : gmap Z CachedInstrument;
  metadataPending : option nat;
  allInstrumentsFetchedAt : Z
}.

(** [interface CacheEntry<T>] *)
Record CacheEntry (T : Type) : Type := mkCacheEntry {
  data : T;
  expiresAt : Z
}.
Arguments mkCacheEntry {T} data expiresAt.
Arguments data {T} c.
Arguments expiresAt {T} c.

(** Cache fields of [class EtoroTradingProvider]. *)
Record EtoroTradingProvider : Type := mkTradingProvider {
  portfolioCache : option (CacheEntry EtoroPortfolioResponse);
  ratesCache : option (CacheEntry (gmap Z EtoroRate));
  portfolioPending : option nat;
  ratesPending : option nat
}.

Record World : Type := mkWorld {
  now : Z;                           (* [Date.now()] *)
  log : list Request;                (* calls received by the transport *)
  env : EtoroEnvironment;            (* [client.getEnvironment()] *)
  instruments : EtoroInstrumentCache;
  trading : EtoroTradingProvider;
  risk : RiskState                   (* the persisted singleton row *)
}.

Definition new_instruments : EtoroInstrumentCache := mkInstrumentCache ∅ ∅ None 0.
Definition new_trading : EtoroTradingProvider := mkTradingProvider None None None None.

Definition set_instruments (i : EtoroInstrumentCache) (w : World) : World :=
  mkWorld (now w) (log w) (env w) i (trading w) (risk w).
Definition set_trading (t : EtoroTradingProvider) (w : World) : World :=
  mkWorld (now w) (log w) (env w) (instruments w) t (risk w).
Definition set_risk (r : RiskState) (w : World) : World :=
  mkWorld (now w) (log w) (env w) (instruments w) (trading w) r.

(** Computations that read and write the world and may throw. *)
Definition M (A : Type) : Type := World -> result A * World.

Definition ret {A} (v : A) : M A := fun w => (Ok v, w).
Definition throw {A} (e : ErrorCode) : M A := fun w => (Err e, w).
Definition bind {A B} (m : M A) (k : A -> M B) : M B :=
  fun w => match m w with
           | (Ok v, w') => k v w'
           | (Err e, w') => (Err e, w')
           end.
(** [try { m } catch { h }] *)
Definition try_catch {A} (m : M A) (h : ErrorCode -> M A) : M A :=
  fun w => match m w with
           | (Ok v, w') => (Ok v, w')
           | (Err e, w') => h e w'
           end.
Definition get_world : M World := fun w => (Ok w, w).
Definition modify (f : World -> World) : M unit := fun w => (Ok tt, f w).
(** A settled promise handed back to the awaiting caller. *)
Definition lift {A} (r : result A) : M A := fun w => (r, w).

Declare Scope world_scope.
Delimit Scope world_scope with world.
Notation "x <- m ;; k" := (bind m (fun x => k))
  (at level 100, m at level 99, right associativity) : world_scope.
Notation "m ;;; k" := (bind m (fun _ => k))
  (at level 100, right associativity) : world_scope.
Local Open Scope world_scope.

(** [EtoroClient.request]: the call reaches the transport, which logs it,
    and settles after the broker's latency. *)
Definition request {A} (b : Broker) (r : Request) (answer : result A) : M A :=
  fun w => (answer,
            mkWorld (now w + latency b r) (log w ++ [r]) (env w)
                    (instruments w) (trading w) (risk w)).

(** ** EtoroInstrumentCache ([instruments.ts]) *)

Module Instruments.
Import JsString.

Definition ttlMs : Z := 30 * 60 * 1000.
Definition ALL_INSTRUMENTS_CACHE_TTL_MS : Z := 60000.

Definition isFresh (now updatedAt : Z) : bool := now - updatedAt <? ttlMs.

Definition extractItems (response : EtoroSearchResponse) : list EtoroSearchItem :=
  match items response with
  | Some l => l
  | None => match instruments_items response with
            | Some l => l
            | None => []
            end
  end.

Definition extractInstrumentId (item : EtoroSearchItem) : option Z :=
  nullish_opt (item_instrumentId item) (item_instrumentID item).

Definition extractSymbol (item : EtoroSearchItem) : option string :=
  let value :=
    nullish_opt (internalSymbolFull item)
      (nullish_opt (symbolFull item)
         (nullish_opt (fullSymbolName item)
            (nullish_opt (displayName item) (name item)))) in
  match value with
  | Some v => if truthy v then Some (toUpperCase v) else None
  | None => None
  end.

Definition symbol_is (symbol : string) (item : EtoroSearchItem) : bool :=
  match extractSymbol item with
  | Some s => String.eqb s symbol
  | None => false
  end.

(** The part of [searchExactSymbol] after the response arrived. *)
Definition pickSearchResult (symbol : string) (response : EtoroSearchResponse)
  : option (Z * string) :=
  let items := extractItems response in
  let direct := List.find (symbol_is symbol) items in
  match nullish_opt direct (head items) with
  | None => None
  | Some candidate =>
      let foundSymbol := nullish (extractSymbol candidate) symbol in
      match extractInstrumentId candidate with
      | Some id => if id =? 0 then None else Some (id, foundSymbol)
      | None => None
      end
  end.

Definition searchExactSymbol (b : Broker) (symbol : string) : M (option (Z * string)) :=
  response <- request b (GET_search symbol) (on_search b symbol) ;;
  ret (pickSearchResult symbol response).

Definition buildSymbolCandidates (symbol : string) : list string :=
  let candidates := [symbol] in
  if includes "/" symbol then
    set_add (split_head "/" symbol) (set_add (replace "/" "" symbol) candidates)
  else if endsWith "USD" symbol then
    set_add (String.append symbol "/USD") (set_add (replace "USD" "" symbol) candidates)
  else candidates.

Definition storeMapping (symbol : string) (id : Z) (displaySymbol : string) : M unit :=
  modify (fun w =>
    let i := instruments w in
    let normalized := toUpperCase symbol in
    let s2i := <[normalized := mkSymbolEntry id (now w)]> (symbolToId i) in
    let i2m :=
      if truthy displaySymbol
      then <[id := mkCachedInstrument (toUpperCase displaySymbol) None None (now w)]>
             (idToMeta i)
      else idToMeta i in
    set_instruments
      (mkInstrumentCache s2i i2m (metadataPending i) (allInstrumentsFetchedAt i)) w).

(** The [for (const candidate of candidates)] loop of [resolveInstrumentId],
    followed by the final [throw]. *)
Fixpoint tryCandidates (b : Broker) (candidates : list string) : M Z :=
  match candidates with
  | [] => throw NOT_FOUND
  | candidate :: rest =>
      item <- searchExactSymbol b candidate ;;
      match item with
      | Some (id, sym) => storeMapping candidate id sym ;;; ret id
      | None => tryCandidates b rest
      end
  end.

Definition resolveInstrumentId (b : Broker) (symbol : string) : M Z :=
  let normalized := toUpperCase (trim symbol) in
  w <- get_world ;;
  match symbolToId (instruments w) !! normalized with
  | Some cached =>
      if isFresh (now w) (updatedAt cached) then ret (id cached)
      else tryCandidates b (buildSymbolCandidates normalized)
  | None => tryCandidates b (buildSymbolCandidates normalized)
  end.

(** [Array.from(new Set(ids))] *)
Fixpoint uniq_from (seen : list Z) (ids : list Z) : list Z :=
  match ids with
  | [] => []
  | i :: rest =>
      if existsb (Z.eqb i) seen then uniq_from seen rest
      else i :: uniq_from (i :: seen) rest
  end.
Definition uniq (ids : list Z) : list Z := uniq_from [] ids.

Definition getCachedMeta (now : Z) (i : EtoroInstrumentCache) (instrumentId : Z)
  : option CachedInstrument :=
  match idToMeta i !! instrumentId with
  | Some cached => if isFresh now (meta_updatedAt cached) then Some cached else None
  | None => None
  end.

(** The loop of [fetchInstrumentMetadata] over [instrumentDisplayDatas]:
    every entry goes to [idToMeta] and to the returned map. *)
Definition metadataOfItem (now : Z) (item : EtoroInstrumentDisplayData)
  : option (Z * CachedInstrument) :=
  match nullish_opt (dd_instrumentId item) (dd_instrumentID item) with
  | None => None
  | Some id =>
      let symbol :=
        nullish (nullish_opt (option_map toUpperCase (dd_symbolFull item))
                             (option_map toUpperCase (instrumentDisplayName item)))
                (pretty id) in
      Some (id, mkCachedInstrument symbol (dd_instrumentTypeId item)
                                   (dd_exchangeId item) now)
  end.

Definition storeMetadata (now : Z) (datas : list EtoroInstrumentDisplayData)
    (acc : gmap Z CachedInstrument) : gmap Z CachedInstrument :=
  fold_left (fun m item =>
               match metadataOfItem now item with
               | Some (id, meta) => <[id := meta]> m
               | None => m
               end) datas acc.

(** [fetchInstrumentMetadata] once the HTTP call has settled; a failed call
    is swallowed by its [catch] and yields the empty map.  The [.then]
    handler of [resolveMetadata] then stamps [allInstrumentsFetchedAt] and
    clears [metadataPending]. *)
Definition metadataSettled (http : result EtoroInstrumentMetadataResponse)
  : M (gmap Z CachedInstrument) :=
  fun w =>
    let i := instruments w in
    let datas := match http with
                 | Ok response => nullish (instrumentDisplayDatas response) []
                 | Err _ => []
                 end in
    (Ok (storeMetadata (now w) datas ∅),
     set_instruments
       (mkInstrumentCache (symbolToId i) (storeMetadata (now w) datas (idToMeta i))
                          None (now w)) w).

(** The synchronous start of the fetch in [resolveMetadata]: join the
    pending promise, or issue the request and remember its promise. *)
Definition metadataFetchStart : World -> nat * World :=
  fun w =>
    let i := instruments w in
    match metadataPending i with
    | Some p => (p, w)
    | None =>
        let p := length (log w) in
        (p, mkWorld (now w) (log w ++ [GET_instruments]) (env w)
                    (mkInstrumentCache (symbolToId i) (idToMeta i) (Some p)
                                       (allInstrumentsFetchedAt i))
                    (trading w) (risk w))
    end.

Definition elapse (d : Z) (w : World) : World :=
  mkWorld (now w + d) (log w) (env w) (instruments w) (trading w) (risk w).

Definition resolveMetadata (b : Broker) (instrumentIds : list Z)
  : M (gmap Z CachedInstrument) :=
  let uniqueIds := uniq instrumentIds in
  w <- get_world ;;
  let cachedOf := getCachedMeta (now w) (instruments w) in
  let result :=
    fold_left (fun m id => match cachedOf id with
                           | Some cached => <[id := cached]> m
                           | None => m
                           end) uniqueIds ∅ in
  let missing :=
    length (List.filter (fun id => negb (is_Some_b (cachedOf id))) uniqueIds) in
  let allInstrumentsFresh :=
    now w - allInstrumentsFetchedAt (instruments w) <? ALL_INSTRUMENTS_CACHE_TTL_MS in
  if (Nat.ltb 0 missing && negb allInstrumentsFresh)%bool then
    fetched <- (fun w0 =>
                  let '(_, w1) := metadataFetchStart w0 in
                  metadataSettled (on_instruments b)
                                  (elapse (latency b GET_instruments) w1)) ;;
    w2 <- get_world ;;
    ret (fold_left (fun m id =>
                      match nullish_opt (fetched !! id) (idToMeta (instruments w2) !! id) with
                      | Some meta => <[id := meta]> m
                      | None => m
                      end) uniqueIds result)
  else ret result.

(** What the search for one candidate yields, as a function of the broker
    alone. *)
Definition searchOutcome (b : Broker) (candidate : string)
  : result (option (Z * string)) :=
  match on_search b candidate with
  | Ok response => Ok (pickSearchResult candidate response)
  | Err e => Err e
  end.

(** The search requests the candidate loop sends and its outcome, as a
    function of the broker alone. *)
Fixpoint candidateTrace (b : Broker) (candidates : list string)
  : list Request * result Z :=
  match candidates with
  | [] => ([], Err NOT_FOUND)
  | candidate :: rest =>
      match searchOutcome b candidate with
      | Err e => ([GET_search candidate], Err e)
      | Ok (Some (id, _)) => ([GET_search candidate], Ok id)
      | Ok None =>
          let '(reqs, r) := candidateTrace b rest in
          (GET_search candidate :: reqs, r)
      end
  end.

(** The symbol is not served from the [symbolToId] cache at time [now]. *)
Definition cacheMiss (now : Z) (i : EtoroInstrumentCache) (normalized : string) : Prop :=
  match symbolToId i !! normalized with
  | Some cached => isFresh now (updatedAt cached) = false
  | None => True
  end.

End Instruments.

(** ** EtoroTradingProvider ([trading.ts]) *)

Module Trading.
Import JsString.
Local Open Scope Q_scope.

Definition PORTFOLIO_CACHE_TTL_MS : Z := 15000.
Definition RATES_CACHE_TTL_MS : Z := 15000.

(** [Math.min], [Math.max] and the comparisons on numbers. *)
Definition Math_min (a b : Q) : Q := if Qle_bool a b then a else b.
Definition Math_max (a b : Q) : Q := if Qle_bool a b then b else a.
Definition Qgtb (a b : Q) : bool := negb (Qle_bool a b).
Definition Qtruthy (a : Q) : bool := negb (Qeq_bool a 0).

Inductive Side : Type := buy | sell.
Inductive PositionSide : Type := long | short.
Inductive OrderStatus : Type := status_new | accepted | filled | canceled.

(** The fields of [OrderParams] that [createOrder] reads. *)
Record OrderParams : Type := mkOrderParams {
  op_symbol : string;
  op_qty : option Q;
  op_notional : option Q;
  op_side : Side;
  op_type : string;
  op_time_in_force : string
}.

(** [Order]: identifiers and amounts are kept as numbers where the source
    prints them with [String(...)]; [order_id] is [inl] of the broker's
    order id, or [inr now] for the synthetic [open-${Date.now()}]. *)
Record Order : Type := mkOrder {
  order_id : Z + Z;
  order_symbol : string;
  order_asset_id : Z;
  order_qty : Q;
  order_type : string;
  order_side : Side;
  order_time_in_force : string;
  order_status : OrderStatus
}.

(** [Position] as built by [parsePosition]. *)
Record Position : Type := mkPosition {
  position_id : option Z;
  asset_id : option Z;
  pos_symbol : string;
  avg_entry_price : Q;
  qty : Q;
  side : PositionSide;
  market_value : Q;
  cost_basis : Q;
  unrealized_pl : Q;
  unrealized_plpc : Q;
  current_price : Q
}.

(** The numeric fields of [Account]; the others are constants. *)
Record Account : Type := mkAccount {
  account_env : EtoroEnvironment;
  cash : Q;
  buying_power : Q;
  equity : Q;
  last_equity : Q;
  long_market_value : Q;
  portfolio_value : Q
}.

Definition getInstrumentId (record : EtoroPortfolioPosition) : option Z :=
  nullish_opt (pos_instrumentId record)
    (nullish_opt (pos_instrumentID record) (pos_InstrumentID record)).

Definition getPositionId (position : EtoroPortfolioPosition) : option Z :=
  nullish_opt (positionId position)
    (nullish_opt (positionID position) (PositionID position)).

(** [dedupePositions]: [seen] is the [Set<number>] of the closure. *)
Fixpoint dedupe_from (seen : list Z) (positions : list EtoroPortfolioPosition)
  : list EtoroPortfolioPosition :=
  match positions with
  | [] => []
  | pos :: rest =>
      match getPositionId pos with
      | Some id =>
          if (id =? 0)%Z then pos :: dedupe_from seen rest
          else if existsb (Z.eqb id) seen then dedupe_from seen rest
          else pos :: dedupe_from (id :: seen) rest
      | None => pos :: dedupe_from seen rest
      end
  end.

Definition dedupePositions (positions : list EtoroPortfolioPosition)
  : list EtoroPortfolioPosition := dedupe_from [] positions.

Definition collectPositions (response : EtoroPortfolioResponse)
  : list EtoroPortfolioPosition :=
  let own := match clientPortfolio response with
             | Some cp => nullish (positions cp) []
             | None => []
             end in
  let ms := match clientPortfolio response with
            | Some cp => nullish (mirrors cp) []
            | None => []
            end in
  dedupePositions
    (fold_left (fun acc mirror =>
                  match mirror_positions mirror with
                  | Some (p :: ps) => acc ++ (p :: ps)
                  | _ => acc
                  end) ms own).

Definition parsePosition (position : EtoroPortfolioPosition)
    (meta : option CachedInstrument) (rate : option EtoroRate) : Position :=
  let instrumentId := getInstrumentId position in
  let positionId := getPositionId position in
  let symbol :=
    match meta with
    | Some m => symbol m
    | None => match instrumentId with
              | Some i => if (i =? 0)%Z then "UNKNOWN"%string else pretty i
              | None => "UNKNOWN"%string
              end
    end in
  let qty := nullish (units position) 0 in
  let openRate := nullish (openRate position) 0 in
  let rateCandidate :=
    match rate with
    | Some r => nullish_opt (lastExecution r) (nullish_opt (bid r) (ask r))
    | None => None
    end in
  let ratePrice :=
    match rateCandidate with
    | Some c => if (Qtruthy c && Qgtb c 0)%bool then Some c else None
    | None => None
    end in
  let currentPrice := nullish (nullish_opt (closeRate position) ratePrice) openRate in
  let marketValue := currentPrice * qty in
  let costBasis := nullish (amount position) (openRate * qty) in
  let side := match isBuy position with Some false => short | _ => long end in
  let rawPnL :=
    nullish_opt (pnL position)
      (nullish_opt (pnl position)
         (nullish_opt (PnL position) (pos_unrealizedPnL position))) in
  let computedPnL :=
    (currentPrice - openRate) * qty * (match side with short => -1 | long => 1 end) in
  let pnl := nullish rawPnL computedPnL in
  mkPosition
    (match positionId with
     | Some p => if (p =? 0)%Z then None else Some p
     | None => None
     end)
    instrumentId
    symbol
    openRate
    qty
    side
    marketValue
    costBasis
    pnl
    (if Qtruthy costBasis then pnl / costBasis else 0)
    currentPrice.

Definition mapStatus (statusId : option Z) : OrderStatus :=
  match statusId with
  | None => status_new
  | Some 1%Z => accepted
  | Some 2%Z => filled
  | Some 3%Z => canceled
  | Some _ => status_new
  end.

Definition mapOpenOrder (now : Z) (params : OrderParams) (instrumentId : Z)
    (response : EtoroOrderOpenResponse) : Order :=
  let order := orderForOpen response in
  let orderId := nullish (order ?. oo_orderID) 0%Z in
  mkOrder
    (if (orderId =? 0)%Z then inr now else inl orderId)
    (toUpperCase (op_symbol params))
    (nullish (order ?. oo_instrumentID) instrumentId)
    (nullish (nullish_opt (order ?. oo_amountInUnits) (op_qty params)) 0)
    (op_type params)
    (op_side params)
    (op_time_in_force params)
    (mapStatus (order ?. oo_statusID)).

(** *** Short-TTL caches with in-flight deduplication

    What a caller of [getCachedPortfolio] / [getCachedRates] gets back
    synchronously: an already resolved promise carrying the cached data, or
    the in-flight promise, named by the position of its request in the
    transport log. *)
Inductive Fetched (T : Type) : Type :=
  | Resolved (d : T)
  | InFlight (p : nat).
Arguments Resolved {T} d.
Arguments InFlight {T} p.

Definition set_portfolio (c : option (CacheEntry EtoroPortfolioResponse))
    (p : option nat) (t : EtoroTradingProvider) : EtoroTradingProvider :=
  mkTradingProvider c (ratesCache t) p (ratesPending t).

Definition set_rates (c : option (CacheEntry (gmap Z EtoroRate)))
    (p : option nat) (t : EtoroTradingProvider) : EtoroTradingProvider :=
  mkTradingProvider (portfolioCache t) c (portfolioPending t) p.

Definition fresh {T} (now : Z) (c : option (CacheEntry T)) : option T :=
  match c with
  | Some e => if (now <? expiresAt e)%Z then Some (data e) else None
  | None => None
  end.

(** The synchronous body of [getCachedPortfolio]. *)
Definition getCachedPortfolio_call (w : World)
  : Fetched EtoroPortfolioResponse * World :=
  let t := trading w in
  match fresh (now w) (portfolioCache t) with
  | Some d => (Resolved d, w)
  | None =>
      match portfolioPending t with
      | Some p => (InFlight p, w)
      | None =>
          let p := length (log w) in
          (InFlight p,
           mkWorld (now w) (log w ++ [GET_portfolio (env w)]) (env w) (instruments w)
                   (set_portfolio (portfolioCache t) (Some p) t) (risk w))
      end
  end.

(** The [.then] / [.catch] handlers of [getCachedPortfolio], run when the
    request settles. *)
Definition portfolio_settled (outcome : result EtoroPortfolioResponse) (w : World)
  : World :=
  let t := trading w in
  match outcome with
  | Ok d =>
      set_trading
        (set_portfolio (Some (mkCacheEntry d (now w + PORTFOLIO_CACHE_TTL_MS)%Z)) None t) w
  | Err _ => set_trading (set_portfolio (portfolioCache t) None t) w
  end.

(** [fetchAllRates] once its HTTP call has settled: the [catch] swallows a
    failure and the empty map is returned. *)
Definition fetchAllRates (http : result EtoroRatesResponse) : result (gmap Z EtoroRate) :=
  Ok (match http with
      | Ok response =>
          fold_left (fun m rate =>
                       match nullish_opt (rate_instrumentId rate) (rate_instrumentID rate) with
                       | Some id => <[id := rate]> m
                       | None => m
                       end)
                    (nullish (rates response) []) ∅
      | Err _ => ∅
      end).

(** The synchronous body of [getCachedRates]. *)
Definition getCachedRates_call (w : World) : Fetched (gmap Z EtoroRate) * World :=
  let t := trading w in
  match fresh (now w) (ratesCache t) with
  | Some d => (Resolved d, w)
  | None =>
      match ratesPending t with
      | Some p => (InFlight p, w)
      | None =>
          let p := length (log w) in
          (InFlight p,
           mkWorld (now w) (log w ++ [GET_rates]) (env w) (instruments w)
                   (set_rates (ratesCache t) (Some p) t) (risk w))
      end
  end.

(** The [.then] / [.catch] handlers of [getCachedRates], run on the outcome
    of [fetchAllRates]. *)
Definition rates_settled (outcome : result (gmap Z EtoroRate)) (w : World) : World :=
  let t := trading w in
  match outcome with
  | Ok d =>
      set_trading (set_rates (Some (mkCacheEntry d (now w + RATES_CACHE_TTL_MS)%Z)) None t) w
  | Err _ => set_trading (set_rates (ratesCache t) None t) w
  end.

(** [await this.getCachedPortfolio()] of a caller that runs alone: the
    in-flight request settles with the broker's answer after its latency. *)
Definition getCachedPortfolio (b : Broker) : M EtoroPortfolioResponse :=
  fun w =>
    match getCachedPortfolio_call w with
    | (Resolved d, w1) => (Ok d, w1)
    | (InFlight _, w1) =>
        let w2 := Instruments.elapse (latency b (GET_portfolio (env w))) w1 in
        (on_portfolio b, portfolio_settled (on_portfolio b) w2)
    end.

Definition getCachedRates (b : Broker) : M (gmap Z EtoroRate) :=
  fun w =>
    match getCachedRates_call w with
    | (Resolved d, w1) => (Ok d, w1)
    | (InFlight _, w1) =>
        let w2 := Instruments.elapse (latency b GET_rates) w1 in
        let outcome := fetchAllRates (on_rates b) in
        (outcome, rates_settled outcome w2)
    end.

(** *** Orders *)

Definition referencePrice (side : Side) (rate : option EtoroRate) : option Q :=
  match side with
  | buy => nullish_opt (rate ?. ask) (rate ?. lastExecution)
  | sell => nullish_opt (rate ?. bid) (rate ?. lastExecution)
  end.

Definition resolveUnits (b : Broker) (instrumentId : Z) (params : OrderParams) : M Q :=
  match op_qty params with
  | Some q => ret q
  | None =>
      match op_notional params with
      | None => throw INVALID_INPUT
      | Some notional =>
          rateMap <- getCachedRates b ;;
          let rate := rateMap !! instrumentId in
          match referencePrice (op_side params) rate with
          | Some price =>
              if (negb (Qtruthy price) || Qle_bool price 0)%bool
              then throw PROVIDER_ERROR
              else ret (notional / price)
          | None => throw PROVIDER_ERROR
          end
      end
  end.

Definition createOrder (b : Broker) (params : OrderParams) : M Order :=
  if negb (String.eqb (op_type params) "market") then throw NOT_SUPPORTED
  else
    w <- get_world ;;
    instrumentId <- Instruments.resolveInstrumentId b (op_symbol params) ;;
    units <- resolveUnits b instrumentId params ;;
    let body := mkOpenOrderBody instrumentId
                  (match op_side params with buy => true | sell => false end) units in
    response <- request b (POST_market_open_by_units (env w) body) (on_open_order b body) ;;
    w' <- get_world ;;
    ret (mapOpenOrder (now w') params instrumentId response).

(** *** Account *)

Definition truthy_id (i : option Z) : option Z :=
  match i with
  | Some v => if (v =? 0)%Z then None else Some v
  | None => None
  end.

Definition sumMarketValue (positions : list Position) : Q :=
  fold_left (fun sum pos => sum + market_value pos) positions 0.

Definition mkAccountOf (env : EtoroEnvironment) (credit equity longMarketValue : Q)
  : Account :=
  mkAccount env credit credit equity equity longMarketValue equity.

Definition getAccount (b : Broker) : M Account :=
  w <- get_world ;;
  let env := env w in
  try_catch
    (response <- getCachedPortfolio b ;;
     let credit := nullish (clientPortfolio response ?. credit) 0 in
     let rawPositions := collectPositions response in
     let instrumentIds :=
       Instruments.uniq (omap getInstrumentId rawPositions) in
     meta <- try_catch (Instruments.resolveMetadata b instrumentIds) (fun _ => ret ∅) ;;
     rates <- try_catch (getCachedRates b) (fun _ => ret ∅) ;;
     let positions :=
       map (fun pos =>
              let instrumentId := truthy_id (getInstrumentId pos) in
              parsePosition pos (instrumentId ?. (fun i => meta !! i))
                                (instrumentId ?. (fun i => rates !! i)))
           rawPositions in
     let longMarketValue := sumMarketValue positions in
     ret (mkAccountOf env credit (credit + longMarketValue) longMarketValue))
    (fun _ =>
       response <- request b (GET_pnl env) (on_pnl b) ;;
       let credit := nullish (clientPortfolio response ?. credit) 0 in
       let unrealizedPnL := nullish (clientPortfolio response ?. unrealizedPnL) 0 in
       let equity := credit + unrealizedPnL in
       ret (mkAccountOf env credit equity (Math_max (equity - credit) 0))).

(** *** Closing a position: the units to deduct

    The block of [closePosition] between the lookup of the position and the
    request: [total] is [position.qty], the result is the [UnitsToDeduct]
    field of the request body ([None] is [null]). *)
Definition unitsToDeduct (position_qty : option Q) (qty percentage : option Q)
  : option Q :=
  let totalUnits := nullish position_qty 0 in
  match qty with
  | Some q => Some (Math_min q totalUnits)
  | None =>
      match percentage with
      | Some p => Some (Math_max (Math_min ((p / 100) * totalUnits) totalUnits) 0)
      | None => None
      end
  end.

(** *** The event loop around the two caches

    Several callers share one provider.  [Tick] moves the clock forward,
    a [Call...] event is one caller running the synchronous body of the
    cached getter, a [Settle...] event is the in-flight request settling
    (only possible while one is pending). *)
Inductive cache_event : Type :=
  | Tick (t : Z)
  | CallPortfolio
  | SettlePortfolio (outcome : result EtoroPortfolioResponse)
  | CallRates
  | SettleRates (http : result EtoroRatesResponse).

(** What a caller observed. *)
Inductive cache_obs : Type :=
  | GotPortfolio (f : Fetched EtoroPortfolioResponse)
  | GotRates (f : Fetched (gmap Z EtoroRate)).

Definition set_now (t : Z) (w : World) : World :=
  mkWorld t (log w) (env w) (instruments w) (trading w) (risk w).

Definition cache_step (e : cache_event) (w : World) : option (list cache_obs * World) :=
  match e with
  | Tick t => if (t <? now w)%Z then None else Some ([], set_now t w)
  | CallPortfolio =>
      let '(f, w') := getCachedPortfolio_call w in Some ([GotPortfolio f], w')
  | SettlePortfolio outcome =>
      match portfolioPending (trading w) with
      | Some _ => Some ([], portfolio_settled outcome w)
      | None => None
      end
  | CallRates =>
      let '(f, w') := getCachedRates_call w in Some ([GotRates f], w')
  | SettleRates http =>
      match ratesPending (trading w) with
      | Some _ => Some ([], rates_settled (fetchAllRates http) w)
      | None => None
      end
  end.

Fixpoint cache_run (es : list cache_event) (w : World)
  : option (list cache_obs * World) :=
  match es with
  | [] => Some ([], w)
  | e :: rest =>
      match cache_step e w with
      | Some (o1, w1) =>
          match cache_run rest w1 with
          | Some (o2, w2) => Some (o1 ++ o2, w2)
          | None => None
          end
      | None => None
      end
  end.

(** Callers and clock ticks only: nothing settles. *)
Definition is_portfolio_caller (e : cache_event) : bool :=
  match e with Tick _ | CallPortfolio => true | _ => false end.

Definition is_rates_caller (e : cache_event) : bool :=
  match e with Tick _ | CallRates => true | _ => false end.

Definition is_portfolio_request (r : Request) : bool :=
  match r with GET_portfolio _ => true | _ => false end.

Definition is_rates_request (r : Request) : bool :=
  match r with GET_rates => true | _ => false end.

(** Number of times the underlying fetch was issued. *)
Definition portfolio_fetches (w : World) : nat :=
  length (List.filter is_portfolio_request (log w)).

Definition rates_fetches (w : World) : nat :=
  length (List.filter is_rates_request (log w)).

Definition normalizeSymbol (value : string) : string :=
  let normalized := toUpperCase (trim value) in
  if endsWith "/USD" normalized then slice_end 4 normalized
  else if (endsWith "USD" normalized && Nat.ltb 3 (String.length normalized))%bool
       then slice_end 3 normalized
  else normalized.

Definition symbolMatches (a b : string) : bool :=
  if (negb (truthy a) || negb (truthy b))%bool then false
  else
    let upperA := toUpperCase (trim a) in
    let upperB := toUpperCase (trim b) in
    if String.eqb upperA upperB then true
    else String.eqb (normalizeSymbol upperA) (normalizeSymbol upperB).

(** [position.asset_id], the string [String(instrumentId ?? "")]. *)
Definition asset_id_string (pos : Position) : string :=
  match asset_id pos with
  | Some i => pretty i
  | None => EmptyString
  end.

Definition mapGenericOrder (now : Z) (symbol : string) (instrumentId : Z)
    (side : Side) (response : GenericOrderResponse) : Order :=
  let orderId :=
    nullish_opt (g_orderId response) (nullish_opt (g_orderID response) (g_id response)) in
  mkOrder
    (match orderId with Some i => inl i | None => inr now end)
    (toUpperCase symbol)
    instrumentId
    0
    "market"
    side
    "day"
    accepted.

Definition same_instrument (target : Z) (pos : EtoroPortfolioPosition) : bool :=
  match getInstrumentId pos with
  | Some i => (i =? target)%Z
  | None => false
  end.

Definition closePosition (b : Broker) (symbol : string) (qty percentage : option Q)
  : M Order :=
  w <- get_world ;;
  let env := env w in
  response <- getCachedPortfolio b ;;
  let rawPositions := nullish (clientPortfolio response ?. positions) [] in
  let instrumentIds := omap getInstrumentId rawPositions in
  meta <- try_catch (Instruments.resolveMetadata b instrumentIds) (fun _ => ret ∅) ;;
  let parsedPositions :=
    map (fun pos =>
           parsePosition pos (truthy_id (getInstrumentId pos) ?. (fun i => meta !! i)) None)
        rawPositions in
  let found :=
    List.find (fun pos => (symbolMatches (pos_symbol pos) symbol
                           || symbolMatches (asset_id_string pos) symbol)%bool)
              parsedPositions in
  position <-
    match found with
    | Some p => ret (Some p)
    | None =>
        try_catch
          (targetInstrumentId <- Instruments.resolveInstrumentId b symbol ;;
           match List.find (same_instrument targetInstrumentId) rawPositions with
           | Some fallback =>
               ret (Some (parsePosition fallback
                            (truthy_id (Some targetInstrumentId) ?. (fun i => meta !! i))
                            None))
           | None => ret None
           end)
          (fun _ => ret None)
    end ;;
  match position with
  | None => throw NOT_FOUND
  | Some position =>
      let units := unitsToDeduct (Some (Trading.qty position)) qty percentage in
      match position_id position with
      | None => throw NOT_FOUND
      | Some positionId =>
          let safeInstrumentId := nullish (asset_id position) 0%Z in
          if (safeInstrumentId =? 0)%Z then throw INVALID_INPUT
          else
            let body := mkClosePositionBody safeInstrumentId units in
            closeResponse <-
              request b (POST_market_close_position env positionId body)
                      (on_close_position b positionId body) ;;
            w' <- get_world ;;
            ret (mapGenericOrder (now w') symbol safeInstrumentId
                   (match side position with short => buy | long => sell end)
                   closeResponse)
      end
  end.

End Trading.

(** ** Scenarios: mocked brokers and initial worlds used by the examples *)

Module Scenario.
Import Trading.
Local Open Scope string_scope.

Definition no_items : EtoroSearchResponse := mkSearchResponse (Some []) None.

Definition item (id : Z) (sym : string) : EtoroSearchItem :=
  mkSearchItem (Some id) None (Some sym) None None None None.

Definition found (id : Z) (sym : string) : EtoroSearchResponse :=
  mkSearchResponse (Some [item id sym]) None.

Definition empty_portfolio : EtoroPortfolioResponse :=
  mkPortfolioResponse (Some (mkClientPortfolio (Some 1000%Q) (Some 0%Q) (Some []) None)).

(** The broker of the unit test of [createOrder]: AAPL is instrument 999. *)
Definition aapl_rate (ask_price : Q) : EtoroRate :=
  mkRate (Some 999) None (Some ask_price) (Some (ask_price - 1)%Q)
         (Some (ask_price - (1 # 2))%Q).

Definition aapl_broker (ask_price : Q) : Broker :=
  mkBroker
    (fun s => if String.eqb s "AAPL" then Ok (found 999 "AAPL") else Ok no_items)
    (Ok (mkRatesResponse (Some [aapl_rate ask_price])))
    (Ok (mkMetadataResponse (Some [])))
    (Ok empty_portfolio)
    (Ok empty_portfolio)
    (fun body => Ok (mkOrderOpenResponse
                       (Some (mkOrderForOpen (Some 555) (Some 1)
                                (Some (InstrumentID body)) (Some (AmountInUnits body))))))
    (fun _ _ => Ok (mkGenericOrderResponse (Some 777) None None))
    (fun _ => 5).

(** A broker whose portfolio holds one AAPL position of 10 units, opened
    at 100, under position id 42. *)
Definition aapl_position : EtoroPortfolioPosition :=
  mkRawPosition (Some 42) None None (Some 999) None None (Some true)
                (Some 100%Q) None None (Some 10%Q) None None None None.

Definition aapl_portfolio : EtoroPortfolioResponse :=
  mkPortfolioResponse
    (Some (mkClientPortfolio (Some 1000%Q) (Some 0%Q) (Some [aapl_position]) None)).

Definition holding_broker : Broker :=
  mkBroker
    (fun s => if String.eqb s "AAPL" then Ok (found 999 "AAPL") else Ok no_items)
    (Ok (mkRatesResponse (Some [aapl_rate 101])))
    (Ok (mkMetadataResponse
           (Some [mkDisplayData (Some 999) None (Some "Apple") None None (Some "AAPL")])))
    (Ok aapl_portfolio)
    (Ok aapl_portfolio)
    (fun _ => Ok (mkOrderOpenResponse None))
    (fun _ _ => Ok (mkGenericOrderResponse (Some 777) None None))
    (fun _ => 5).

Definition risk_normal : RiskState := mkRiskState false None 0%Q None None.
Definition risk_killed : RiskState :=
  mkRiskState true (Some "operator") 0%Q None None.

Definition world0 (r : RiskState) : World :=
  mkWorld 1000000 [] demo new_instruments new_trading r.

Definition market_order (sym : string) (q n : option Q) (s : Side) : OrderParams :=
  mkOrderParams sym q n s "market" "day".

(** A broker whose search knows the slash form and the base under two
    different instrument ids. *)
Definition btc_split_broker : Broker :=
  mkBroker
    (fun s => if String.eqb s "BTC/USD" then Ok (found 1 "BTC/USD")
              else if String.eqb s "BTC" then Ok (found 2 "BTC")
              else Ok no_items)
    (Ok (mkRatesResponse (Some [])))
    (Ok (mkMetadataResponse (Some [])))
    (Ok empty_portfolio)
    (Ok empty_portfolio)
    (fun _ => Ok (mkOrderOpenResponse None))
    (fun _ _ => Ok (mkGenericOrderResponse None None None))
    (fun _ => 5).

(** A broker whose search only knows the base symbol. *)
Definition btc_base_broker : Broker :=
  mkBroker
    (fun s => if String.eqb s "BTC" then Ok (found 2 "BTC") else Ok no_items)
    (Ok (mkRatesResponse (Some [])))
    (Ok (mkMetadataResponse (Some [])))
    (Ok empty_portfolio)
    (Ok empty_portfolio)
    (fun _ => Ok (mkOrderOpenResponse None))
    (fun _ _ => Ok (mkGenericOrderResponse None None None))
    (fun _ => 5).

(** A broker on which every request fails. *)
Definition failing_broker : Broker :=
  mkBroker
    (fun _ => Err PROVIDER_ERROR)
    (Err PROVIDER_ERROR)
    (Err PROVIDER_ERROR)
    (Err PROVIDER_ERROR)
    (Err PROVIDER_ERROR)
    (fun _ => Err PROVIDER_ERROR)
    (fun _ _ => Err PROVIDER_ERROR)
    (fun _ => 5).

End Scenario.

(** ** Order approvals (table [order_approvals])

    The table and the scheduled call of [cleanupExpiredApprovals] are in the
    sources; the module [storage/d1/queries/approvals] and the tool that
    consumes a token are not, and are taken from the specification. *)

Module Approvals.

(** A row of [order_approvals]. *)
Record OrderApproval : Type := mkApproval {
  approval_id : string;
  preview_hash : string;
  order_params_json : string;
  policy_result_json : string;
  approval_token : string;
  expires_at : Z;
  used_at : option Z
}.

(** The table, and the orders submitted to the broker on behalf of a token
    (token and submission time, oldest first). *)
Record state : Type := mkState {
  approvals : list OrderApproval;
  submitted : list (string * Z)
}.

Definition has_token (token : string) (a : OrderApproval) : bool :=
  String.eqb (approval_token a) token.

Definition set_used (now : Z) (a : OrderApproval) : OrderApproval :=
  mkApproval (approval_id a) (preview_hash a) (order_params_json a)
             (policy_result_json a) (approval_token a) (expires_at a) (Some now).

(** Modelled from the spec: the conditional update that consumes a token
    (the query module [approvals] is missing); it stamps [used_at] on the row
    of the token only if the row is unused and not yet expired. *)
Definition stampUsed (now : Z) (token : string) (rows : list OrderApproval)
  : list OrderApproval :=
  map (fun a =>
         if (has_token token a && negb (is_Some_b (used_at a)) && (now <? expires_at a))%bool
         then set_used now a else a)
      rows.

(** Modelled from the spec: presenting an approval token (the order-submit
    operation that consumes approvals is missing).  The trade is submitted
    only for a valid, unexpired, unused token, and [used_at] is stamped
    together with the submission; an already-used token fails with
    [EXPIRED_APPROVAL_TOKEN] and an expired one with
    [INVALID_APPROVAL_TOKEN], as does a token that is not in the table;
    neither submits to the broker. *)
Definition presentToken (now : Z) (token : string) (st : state)
  : result OrderApproval * state :=
  match List.find (has_token token) (approvals st) with
  | None => (Err INVALID_APPROVAL_TOKEN, st)
  | Some a =>
      match used_at a with
      | Some _ => (Err EXPIRED_APPROVAL_TOKEN, st)
      | None =>
          if now <? expires_at a
          then (Ok a, mkState (stampUsed now token (approvals st))
                              (submitted st ++ [(token, now)]))
          else (Err INVALID_APPROVAL_TOKEN, st)
      end
  end.

(** Modelled from the spec: [cleanupExpiredApprovals] (only its scheduled
    callers are in the sources), the sweep that deletes approvals past
    expiry and reports how many it deleted. *)
Definition cleanupExpiredApprovals (now : Z) (st : state) : nat * state :=
  let kept := List.filter (fun a => now <=? expires_at a) (approvals st) in
  ((length (approvals st) - length kept)%nat, mkState kept (submitted st)).

Inductive event : Type :=
  | Present (now : Z) (token : string)
  | Sweep (now : Z).

Definition step (e : event) (st : state) : state :=
  match e with
  | Present now token => snd (presentToken now token st)
  | Sweep now => snd (cleanupExpiredApprovals now st)
  end.

Definition run (es : list event) (st : state) : state := fold_left (fun s e => step e s) es st.

(** Number of broker submissions made for a token. *)
Definition submissions (token : string) (st : state) : nat :=
  length (List.filter (fun s => String.eqb (fst s) token) (submitted st)).

(** A freshly created table: tokens are unique, nothing is used, nothing
    was submitted. *)
Definition pristine (st : state) : Prop :=
  List.NoDup (map approval_token (approvals st)) /\
  Forall (fun a => used_at a = None) (approvals st) /\
  submitted st = [].

(** Two approvals, expiring at 1000 and 2000. *)
Definition sample_table : state :=
  mkState [mkApproval "a1" "h1" "{}" "{}" "tok-1" 1000 None;
           mkApproval "a2" "h2" "{}" "{}" "tok-2" 2000 None] [].

End Approvals.

(** ** Notions used in the statements *)

Section RateLimiterNotions.
Import RateLimiter.

(** The invariant of sequential runs. *)
Record seq_inv (cap : Z) (s : sys) : Prop := {
  inv_cap : maxRequests (limiter s) = cap;
  inv_hist : exists pre, granted s = pre ++ timestamps (limiter s) /\
                         Forall (fun x => x < clock s - windowMs) pre;
  inv_len : Z.of_nat (length (timestamps (limiter s))) <= cap;
  inv_sleep : sleepers s = [] \/
              exists due oldest rest,
                sleepers s = [due] /\
                timestamps (limiter s) = oldest :: rest /\
                oldest + windowMs < due;
  inv_window : forall T, window_count T (granted s) <= cap
}.

End RateLimiterNotions.

Section TradingNotions.
Import Trading.

(** A computation is blind to the risk state when running it under another
    risk row gives the same outcome and the same world, the row apart. *)
Definition risk_blind {A} (m : M A) : Prop :=
  forall r w, m (set_risk r w) = (fst (m w), set_risk r (snd (m w))).

Definition isBuy_of (s : Side) : bool := match s with buy => true | sell => false end.

(** The positions [getAccount] values, given the enrichment maps. *)
Definition accountPositions (response : EtoroPortfolioResponse)
    (meta : gmap Z CachedInstrument) (rates : gmap Z EtoroRate) : list Position :=
  map (fun pos =>
         let instrumentId := truthy_id (getInstrumentId pos) in
         parsePosition pos (instrumentId ?. (fun i => meta !! i))
                           (instrumentId ?. (fun i => rates !! i)))
      (collectPositions response).

(** The [UnitsToDeduct] of the close request [closePosition] sent last. *)
Definition sentUnitsToDeduct (w : World) : option Q :=
  match last (log w) with
  | Some (POST_market_close_position _ _ body) => UnitsToDeduct body
  | _ => None
  end.

End TradingNotions.

Section InstrumentNotions.
Import JsString.

(** The string is unchanged by [toUpperCase]. *)
Definition is_upper (s : string) : Prop := toUpperCase s = s.

End InstrumentNotions.

Section ApprovalNotions.
Import Approvals.

(** The invariant of the approval table. *)
Record approvals_inv (st : state) : Prop := {
  inv_unique : List.NoDup (map approval_token (approvals st));
  inv_before_expiry :
    Forall (fun a => forall t, used_at a = Some t -> t < expires_at a) (approvals st);
  inv_once : forall token, (submissions token st <= 1)%nat;
  inv_used : forall token a,
    submissions token st = 1%nat -> In a (approvals st) ->
    approval_token a = token -> used_at a <> None
}.

End ApprovalNotions.

(** ** More of [EtoroTradingProvider] ([trading.ts]) *)

Module TradingReads.
Import JsString Trading.

Inductive AssetClass : Type := us_equity | crypto.

Definition mapAssetClass (sym : string) : AssetClass :=
  if (includes "/" sym || endsWith "USD" (toUpperCase sym))%bool
  then crypto else us_equity.

(** The fields of [Asset] that [getAsset] derives; [asset_exchange] is
    [display?.exchangeId], printed as "ETORO" when absent; the remaining
    fields are constants. *)
Record Asset : Type := mkAsset {
  asset_instrument : Z;
  asset_class : AssetClass;
  asset_exchange : option Z;
  asset_symbol : string;
  asset_name : string
}.

Definition getPositions (b : Broker) : M (list Position) :=
  (response <- getCachedPortfolio b ;;
   let rawPositions :=
     dedupePositions (nullish (clientPortfolio response ?. positions) []) in
   let instrumentIds := Instruments.uniq (omap getInstrumentId rawPositions) in
   meta <- try_catch (Instruments.resolveMetadata b instrumentIds) (fun _ => ret ∅) ;;
   rates <- try_catch (getCachedRates b) (fun _ => ret ∅) ;;
   ret (map (fun pos =>
               let instrumentId := truthy_id (getInstrumentId pos) in
               parsePosition pos (instrumentId ?. (fun i => meta !! i))
                                 (instrumentId ?. (fun i => rates !! i)))
            rawPositions))%world.

Definition getPosition (b : Broker) (sym : string) : M (option Position) :=
  (positions <- getPositions b ;;
   ret (List.find (fun pos => String.eqb (toUpperCase (pos_symbol pos))
                                         (toUpperCase sym))
                  positions))%world.

Definition getAsset (b : Broker) (sym : string) : M (option Asset) :=
  try_catch
    (instrumentId <- Instruments.resolveInstrumentId b sym ;;
     meta <- Instruments.resolveMetadata b [instrumentId] ;;
     let display := meta !! instrumentId in
     let shown := nullish (option_map symbol display) sym in
     ret (Some (mkAsset instrumentId
                        (mapAssetClass shown)
                        (display ?. exchangeId)
                        (toUpperCase shown)
                        (match display with
                         | Some d => symbol d
                         | None => toUpperCase sym
                         end))))%world
    (fun e => match e with
              | NOT_FOUND => ret None
              | _ => throw e
              end).

End TradingReads.

(** ** More of [EtoroInstrumentCache] ([instruments.ts]) *)

Module InstrumentReads.
Import JsString Instruments.

Definition resolveSymbol (b : Broker) (instrumentId : Z) : M string :=
  (w <- get_world ;;
   match getCachedMeta (now w) (instruments w) instrumentId with
   | Some cached => ret (symbol cached)
   | None =>
       meta <- resolveMetadata b [instrumentId] ;;
       match meta !! instrumentId with
       | Some found => ret (symbol found)
       | None => ret (pretty instrumentId)
       end
   end)%world.

End InstrumentReads.

(** ** Cancelling orders ([cancelOrder], [cancelAllOrders] of [trading.ts])

    The two [DELETE] endpoints are only used here; the transport log of this
    module records them. *)

Module Cancel.

Inductive CancelRequest : Type :=
  | DELETE_market_open_order (env : EtoroEnvironment) (orderId : string)
  | DELETE_market_close_order (env : EtoroEnvironment) (orderId : string).

(** What the broker answers to the two deletions of an order id. *)
Record CancelBroker : Type := mkCancelBroker {
  on_delete_open : string -> result unit;
  on_delete_close : string -> result unit
}.

Definition cancelOrder (cb : CancelBroker) (env : EtoroEnvironment) (orderId : string)
    (log : list CancelRequest) : result unit * list CancelRequest :=
  match on_delete_open cb orderId with
  | Ok _ => (Ok tt, log ++ [DELETE_market_open_order env orderId])
  | Err _ =>
      (on_delete_close cb orderId,
       log ++ [DELETE_market_open_order env orderId;
               DELETE_market_close_order env orderId])
  end.

(** The [for] loop of [cancelAllOrders] over the ids of the listed orders:
    the first cancellation that throws ends the loop. *)
Fixpoint cancelEach (cb : CancelBroker) (env : EtoroEnvironment)
    (orderIds : list string) (log : list CancelRequest)
  : result unit * list CancelRequest :=
  match orderIds with
  | [] => (Ok tt, log)
  | orderId :: rest =>
      match cancelOrder cb env orderId log with
      | (Ok _, log') => cancelEach cb env rest log'
      | (Err e, log') => (Err e, log')
      end
  end.

(** The order ids mentioned by the requests of a log, in order, one per
    request. *)
Definition requestedId (r : CancelRequest) : string :=
  match r with
  | DELETE_market_open_order _ i => i
  | DELETE_market_close_order _ i => i
  end.

(** An order id one of the two deletions accepts. *)
Definition cancellable (cb : CancelBroker) (orderId : string) : bool :=
  is_ok (on_delete_open cb orderId) || is_ok (on_delete_close cb orderId).

End Cancel.

(** ** Worker entry ([index.ts]): bearer-token check *)

Module Auth.
Import JsString.

Definition charCode (c : ascii) : Z := Z.of_nat (nat_of_ascii c).

(** The [for] loop of [constantTimeCompare]: [mismatch |= a[i] ^ b[i]]. *)
Fixpoint mismatchLoop (mismatch : Z) (a b : string) : Z :=
  match a, b with
  | String x a', String y b' =>
      mismatchLoop (Z.lor mismatch (Z.lxor (charCode x) (charCode y))) a' b'
  | _, _ => mismatch
  end.

Definition constantTimeCompare (a b : string) : bool :=
  if negb (Nat.eqb (String.length a) (String.length b)) then false
  else mismatchLoop 0 a b =? 0.

(** [isAuthorized]: [token] is [env.MAKORA_API_TOKEN] and [authHeader] the
    [Authorization] header of the request ([None] when absent). *)
Definition isAuthorized (authHeader : option string) (token : option string) : bool :=
  match token with
  | None => false
  | Some tok =>
      if negb (truthy tok) then false
      else match authHeader with
           | None => false
           | Some h =>
               if negb (startsWith "Bearer " h) then false
               else constantTimeCompare (drop 7 h) tok
           end
  end.

End Auth.

(** ** Notions used in the further statements *)

Section MoreRateLimiterNotions.
Import RateLimiter.

(** Non-decreasing list. *)
Fixpoint ascending (l : list Z) : Prop :=
  match l with
  | [] => True
  | x :: rest => Forall (fun y => x <= y) rest /\ ascending rest
  end.

(** The invariant of every run of the limiter, overlapping callers
    included. *)
Record run_inv (s : sys) : Prop := {
  rinv_ascending : ascending (timestamps (limiter s));
  rinv_past : Forall (fun x => x <= clock s) (timestamps (limiter s));
  rinv_hist : exists pre, granted s = pre ++ timestamps (limiter s) /\
                          Forall (fun x => x < clock s - windowMs) pre
}.

End MoreRateLimiterNotions.

Section MoreCacheNotions.
Import Trading.

(** 1 while a request is in flight, 0 otherwise. *)
Definition in_flight (p : option nat) : nat :=
  match p with Some _ => 1%nat | None => 0%nat end.

Definition portfolio_settles (es : list cache_event) : nat :=
  length (List.filter (fun e => match e with SettlePortfolio _ => true | _ => false end) es).

Definition rates_settles (es : list cache_event) : nat :=
  length (List.filter (fun e => match e with SettleRates _ => true | _ => false end) es).

End MoreCacheNotions.

Section MorePositionNotions.
Import Trading.

(** The id [dedupePositions] tracks for a position: its position id when
    that is a non-zero number. *)
Definition trackedId (pos : EtoroPortfolioPosition) : option Z :=
  match getPositionId pos with
  | Some id => if id =? 0 then None else Some id
  | None => None
  end.

Definition trackedIds (l : list EtoroPortfolioPosition) : list Z :=
  omap trackedId l.

(** The positions of the mirrors of a response, in order. *)
Definition mirroredPositions (response : EtoroPortfolioResponse)
  : list EtoroPortfolioPosition :=
  flat_map (fun mirror => nullish (mirror_positions mirror) [])
           (nullish (clientPortfolio response ?. mirrors) []).

Definition ownPositions (response : EtoroPortfolioResponse)
  : list EtoroPortfolioPosition :=
  nullish (clientPortfolio response ?. positions) [].

End MorePositionNotions.

Section MoreRequestNotions.

(** The two requests that trade. *)
Definition is_order_request (r : Request) : bool :=
  match r with
  | POST_market_open_by_units _ _ | POST_market_close_position _ _ _ => true
  | _ => false
  end.

Definition is_read_request (r : Request) : bool := negb (is_order_request r).

Definition is_search_request (r : Request) : bool :=
  match r with GET_search _ => true | _ => false end.

Definition is_instruments_request (r : Request) : bool :=
  match r with GET_instruments => true | _ => false end.

(** Every run of [m] only appends to the transport log: at most [n]
    requests, all satisfying [P]. *)
Definition sends {A} (P : Request -> bool) (n : nat) (m : M A) : Prop :=
  forall w, exists extra,
    log (snd (m w)) = log w ++ extra /\ forallb P extra = true /\
    (length extra <= n)%nat.

(** Sign of a position's side in its market value. *)
Definition sideSign (s : Trading.PositionSide) : Q :=
  match s with Trading.long => 1 | Trading.short => -1 end.

End MoreRequestNotions.

(** ** More scenarios *)

Module MoreScenario.
Import Trading Scenario.
Local Open Scope string_scope.

(** The AAPL broker with a rates endpoint that answers 429. *)
Definition rate_limited_broker : Broker :=
  mkBroker
    (fun s => if String.eqb s "AAPL" then Ok (found 999 "AAPL") else Ok no_items)
    (Err RATE_LIMITED)
    (Ok (mkMetadataResponse (Some [])))
    (Ok empty_portfolio)
    (Ok empty_portfolio)
    (fun _ => Ok (mkOrderOpenResponse None))
    (fun _ _ => Ok (mkGenericOrderResponse None None None))
    (fun _ => 5).

(** Order "a" is an open order, "b" a close order, "c" is unknown to both
    endpoints. *)
Definition cancel_broker : Cancel.CancelBroker :=
  Cancel.mkCancelBroker
    (fun i => if String.eqb i "a" then Ok tt else Err NOT_FOUND)
    (fun i => if String.eqb i "b" then Ok tt else Err INVALID_INPUT).

End MoreScenario.

(* ===================================================================== *)
(** * Properties *)
(* ===================================================================== *)

(** ** RateLimiter *)

Section RateLimiterFacts.
Import RateLimiter.

Lemma prune_loop_suffix cutoff ts :
  exists dropped, ts = dropped ++ prune_loop cutoff ts /\
                  Forall (fun x => x < cutoff) dropped.
Proof.
  induction ts as [|x rest IH]; simpl.
  - exists []. split; [reflexivity | constructor].
  - destruct (Z.ltb_spec x cutoff) as [Hlt|Hge].
    + destruct IH as (d & Hd & Hall).
      exists (x :: d). split.
      * simpl. f_equal. exact Hd.
      * constructor; assumption.
    + exists []. split; [reflexivity | constructor].
Qed.

Lemma prune_loop_length cutoff ts :
  (length (prune_loop cutoff ts) <= length ts)%nat.
Proof.
  induction ts as [|x rest IH]; simpl; [lia|].
  destruct (x <? cutoff); simpl; lia.
Qed.

Lemma prune_loop_head cutoff ts x rest :
  prune_loop cutoff ts = x :: rest -> cutoff <= x.
Proof.
  induction ts as [|y ys IH]; simpl; [discriminate|].
  destruct (Z.ltb_spec y cutoff) as [Hlt|Hge]; [exact IH|].
  intros [= -> _]. exact Hge.
Qed.

Lemma prune_loop_drops_head cutoff x rest :
  x < cutoff ->
  (length (prune_loop cutoff (x :: rest)) <= length rest)%nat.
Proof.
  intros Hlt. simpl.
  destruct (Z.ltb_spec x cutoff) as [_|Hge]; [apply prune_loop_length | lia].
Qed.

Lemma filter_none_old T (l : list Z) :
  Forall (fun x => x < T - windowMs) l -> List.filter (in_window T) l = [].
Proof.
  induction 1 as [|x l Hx _ IH]; simpl; [reflexivity|].
  unfold in_window at 1.
  destruct (Z.leb_spec (T - windowMs) x); [lia|]. simpl. exact IH.
Qed.

Lemma filter_length_le {A} (f : A -> bool) (l : list A) :
  (length (List.filter f l) <= length l)%nat.
Proof.
  induction l as [|x l IH]; simpl; [lia|]. destruct (f x); simpl; lia.
Qed.

Lemma window_count_app T l1 l2 :
  window_count T (l1 ++ l2) = window_count T l1 + window_count T l2.
Proof.
  unfold window_count. rewrite List.filter_app, length_app. lia.
Qed.

Lemma window_count_old T l :
  Forall (fun x => x < T - windowMs) l -> window_count T l = 0.
Proof.
  intros H. unfold window_count. rewrite (filter_none_old T l H). reflexivity.
Qed.

Lemma window_count_le_length T l :
  window_count T l <= Z.of_nat (length l).
Proof.
  unfold window_count. pose proof (filter_length_le (in_window T) l). lia.
Qed.

Lemma window_count_single_future T now :
  T < now -> window_count T [now] = 0.
Proof.
  intros H. unfold window_count, in_window. simpl.
  destruct (Z.leb_spec now T); [lia|]. rewrite andb_false_r. reflexivity.
Qed.

Lemma window_count_single T now : window_count T [now] <= 1.
Proof.
  pose proof (window_count_le_length T [now]). simpl in *. lia.
Qed.

Lemma Forall_lt_mono (l : list Z) a b :
  a <= b -> Forall (fun x => x < a) l -> Forall (fun x => x < b) l.
Proof.
  intros Hab H. induction H; constructor; [lia | assumption].
Qed.


Lemma seq_inv_init cap : 1 <= cap -> seq_inv cap (init cap).
Proof.
  intros Hcap. constructor; simpl.
  - reflexivity.
  - exists []. split; [reflexivity | constructor].
  - lia.
  - left; reflexivity.
  - intros T. unfold window_count; simpl. lia.
Qed.

(** Pushing [now] after a prune at [now] keeps every window within the cap
    as long as fewer than [cap] timestamps survived the prune. *)
Lemma push_keeps_windows cap (hist pre ts : list Z) clk now :
  hist = pre ++ ts ->
  Forall (fun x => x < clk - windowMs) pre ->
  clk <= now ->
  (forall T, window_count T hist <= cap) ->
  Z.of_nat (length (prune_loop (now - windowMs) ts)) < cap ->
  forall T, window_count T (hist ++ [now]) <= cap.
Proof.
  intros -> Hpre Hclk Hwin Hlen T.
  rewrite window_count_app.
  destruct (Z.lt_ge_cases T now) as [Hlt|Hge].
  - rewrite (window_count_single_future T now Hlt).
    specialize (Hwin T). lia.
  - destruct (prune_loop_suffix (now - windowMs) ts) as (dropped & Hts & Hdrop).
    rewrite Hts. rewrite !window_count_app.
    rewrite (window_count_old T pre)
      by (eapply Forall_lt_mono; [|exact Hpre]; lia).
    rewrite (window_count_old T dropped)
      by (eapply Forall_lt_mono; [|exact Hdrop]; lia).
    pose proof (window_count_le_length T (prune_loop (now - windowMs) ts)).
    pose proof (window_count_single T now). lia.
Qed.

Lemma push_keeps_hist (pre ts : list Z) clk now :
  Forall (fun x => x < clk - windowMs) pre ->
  clk <= now ->
  exists pre', (pre ++ ts) ++ [now] = pre' ++ (prune_loop (now - windowMs) ts ++ [now]) /\
               Forall (fun x => x < now - windowMs) pre'.
Proof.
  intros Hpre Hclk.
  destruct (prune_loop_suffix (now - windowMs) ts) as (dropped & Hts & Hdrop).
  exists (pre ++ dropped). split.
  - rewrite Hts at 1. rewrite <- !app_assoc. reflexivity.
  - apply Forall_app. split; [|exact Hdrop].
    eapply Forall_lt_mono; [|exact Hpre]. lia.
Qed.

Lemma keep_hist (pre ts : list Z) clk now :
  Forall (fun x => x < clk - windowMs) pre ->
  clk <= now ->
  exists pre', pre ++ ts = pre' ++ prune_loop (now - windowMs) ts /\
               Forall (fun x => x < now - windowMs) pre'.
Proof.
  intros Hpre Hclk.
  destruct (prune_loop_suffix (now - windowMs) ts) as (dropped & Hts & Hdrop).
  exists (pre ++ dropped). split.
  - rewrite Hts at 1. rewrite <- !app_assoc. reflexivity.
  - apply Forall_app. split; [|exact Hdrop].
    eapply Forall_lt_mono; [|exact Hpre]. lia.
Qed.

Lemma seq_inv_step cap e s s' :
  1 <= cap -> seq_inv cap s -> step_seq e s = Some s' -> seq_inv cap s'.
Proof.
  intros Hcap [Hc (pre & Hhist & Hpre) Hlen Hsl Hwin] Hstep.
  destruct s as [[ts mx] sl clk adm]. cbn in Hc, Hhist, Hpre, Hlen, Hsl, Hwin.
  subst mx adm.
  destruct e as [now | now i]; unfold step_seq in Hstep; cbn in Hstep.
  - (* Call *)
    destruct sl as [|d ds]; [|discriminate].
    destruct (Z.ltb_spec now clk) as [|Hclk]; [discriminate|].
    unfold acquire_begin in Hstep. cbn in Hstep.
    remember (prune_loop (now - windowMs) ts) as kept eqn:Hk.
    assert (Hkept : (length kept <= length ts)%nat)
      by (subst kept; apply prune_loop_length).
    destruct (Z.geb_spec (Z.of_nat (length kept)) cap) as [Hfull|Hfree].
    + destruct kept as [|oldest rest].
      { simpl in Hfull. lia. }
      symmetry in Hk. pose proof (prune_loop_head _ _ _ _ Hk) as Hold.
      destruct (Z.gtb_spec (oldest + windowMs - now + 50) 0) as [Hw|Hw]; [|lia].
      injection Hstep as <-. constructor; cbn.
      * reflexivity.
      * apply (keep_hist pre _ clk); assumption.
      * rewrite Hk. lia.
      * right. exists (now + (oldest + windowMs - now + 50)), oldest, rest.
        rewrite Hk. repeat split; lia.
      * exact Hwin.
    + injection Hstep as <-. constructor; cbn.
      * reflexivity.
      * apply (push_keeps_hist pre _ clk); assumption.
      * rewrite length_app. simpl. rewrite <- Hk. lia.
      * left. reflexivity.
      * apply (push_keeps_windows cap _ pre ts clk); try assumption.
        { reflexivity. } rewrite <- Hk. lia.
  - (* Wake *)
    assert (Hstep' : step (Wake now i) (mkSys (mk ts cap) sl clk (pre ++ ts)) = Some s')
      by (destruct sl; exact Hstep).
    clear Hstep. unfold step in Hstep'. cbn in Hstep'.
    destruct (sl !! i) as [due|] eqn:Hdue; [|discriminate].
    destruct (Z.ltb_spec now clk) as [|Hclk]; [discriminate|].
    destruct (Z.ltb_spec now due) as [|Hfire]; [discriminate|].
    cbn in Hstep'. injection Hstep' as <-.
    destruct Hsl as [Hnil | (d & oldest & rest & Hs & Hts & Hd)].
    { rewrite Hnil in Hdue. discriminate. }
    subst sl ts. destruct i as [|i]; [|discriminate].
    injection Hdue as ->.
    assert (Hdrop : Z.of_nat (length (prune_loop (now - windowMs) (oldest :: rest))) < cap).
    { pose proof (prune_loop_drops_head (now - windowMs) oldest rest).
      simpl in Hlen. lia. }
    constructor; cbn -[prune_loop].
    + reflexivity.
    + apply (push_keeps_hist pre _ clk); assumption.
    + rewrite length_app. change (length [now]) with 1%nat. lia.
    + left. reflexivity.
    + apply (push_keeps_windows cap _ pre (oldest :: rest) clk); try assumption.
      reflexivity.
Qed.

Lemma seq_inv_run cap es : forall s s',
  1 <= cap -> seq_inv cap s -> run_seq es s = Some s' -> seq_inv cap s'.
Proof.
  induction es as [|e es IH]; intros s s' Hcap Hinv Hrun; simpl in Hrun.
  - injection Hrun as <-. exact Hinv.
  - destruct (step_seq e s) as [s1|] eqn:Hstep; [|discriminate].
    eapply IH; [exact Hcap | | exact Hrun].
    eapply seq_inv_step; eassumption.
Qed.

(** C2 (as stated, refuted): with the default cap of 55, fifty-five requests
    admitted at time 0 and fifty-six callers that enter [acquire] at time 1
    are all suspended until 60050; when their timers fire each one pushes its
    timestamp unconditionally, so the trailing window that ends at 60050
    holds 56 admitted timestamps. *)
Lemma C2_simultaneous_waiters_exceed_cap :
  exists s,
    run (repeat (Call 0) 55 ++ repeat (Call 1) 56 ++ repeat (Wake 60050 0) 56)
        (init 55) = Some s /\
    window_count 60050 (granted s) = 56 /\
    ~ window_count 60050 (granted s) <= maxRequests (limiter s).
Proof.
  eexists. split; [vm_compute; reflexivity|].
  split; [vm_compute; reflexivity|]. vm_compute. intros H. apply H. reflexivity.
Qed.

(** A sequential run is a run of the event loop. *)
Lemma run_seq_is_run es : forall s s', run_seq es s = Some s' -> run es s = Some s'.
Proof.
  induction es as [|e es IH]; intros s s' H; simpl in *; [exact H|].
  assert (Hs : step_seq e s = step e s \/ step_seq e s = None).
  { unfold step_seq. destruct e; destruct (sleepers s); auto. }
  destruct Hs as [Hs|Hs]; rewrite Hs in H; [|discriminate].
  destruct (step e s); [apply IH; exact H | discriminate].
Qed.

(** C2 (amended): for a cap of at least 1 and calls to [acquire] that do not
    overlap (no caller enters while another is suspended), every trailing
    window of 60 000 ms, closed at both ends, holds at most [cap] admitted
    timestamps, at every point of the run. *)
Theorem C2_window_bounded_sequential cap es s T :
  1 <= cap ->
  run_seq es (init cap) = Some s ->
  window_count T (granted s) <= cap.
Proof.
  intros Hcap Hrun.
  apply (inv_window cap s).
  eapply seq_inv_run; [exact Hcap | apply seq_inv_init; exact Hcap | exact Hrun].
Qed.

Lemma C2_window_bounded_sequential_witness :
  exists s,
    run_seq [Call 0; Call 10; Call 20; Wake 60050 0; Call 60060] (init 2) = Some s /\
    granted s = [0; 10; 60050; 60060] /\
    window_count 60060 (granted s) <= 2.
Proof.
  eexists. split; [vm_compute; reflexivity|]. split; [vm_compute; reflexivity|].
  apply (C2_window_bounded_sequential 2
           [Call 0; Call 10; Call 20; Wake 60050 0; Call 60060]);
    [lia | vm_compute; reflexivity].
Defined.

End RateLimiterFacts.

(** ** Trading provider: units *)

Section TradingUnitsFacts.
Import Trading Scenario.
Local Open Scope Q_scope.



Lemma Math_max_spec a b : Math_max a b == Qmax a b.
Proof.
  unfold Math_max. destruct (Qle_bool a b) eqn:E.
  - apply Qle_bool_iff in E. symmetry. apply Q.max_r. exact E.
  - assert (H : ~ a <= b) by (rewrite <- Qle_bool_iff; congruence).
    symmetry. apply Q.max_l. apply Qlt_le_weak. apply Qnot_le_lt. exact H.
Qed.






End TradingUnitsFacts.

(** ** Trading provider: orders, account *)

Section TradingOrderFacts.
Import Trading Scenario.




Lemma risk_blind_lift {A} (x : result A) : risk_blind (lift x).
Proof. intros r w. reflexivity. Qed.
















End TradingOrderFacts.

Section TradingNotionalFacts.
Import Trading Scenario.
Local Open Scope Q_scope.


Lemma positive_price_usable price :
  0 < price -> (negb (Qtruthy price) || Qle_bool price 0)%bool = false.
Proof.
  intros Hpos. unfold Qtruthy. rewrite negb_involutive.
  apply orb_false_iff. split.
  - destruct (Qeq_bool price 0) eqn:E; [|reflexivity].
    apply Qeq_bool_eq in E. lra.
  - destruct (Qle_bool price 0) eqn:E; [|reflexivity].
    apply Qle_bool_iff in E. lra.
Qed.

Lemma nonpositive_price_unusable price :
  price <= 0 -> (negb (Qtruthy price) || Qle_bool price 0)%bool = true.
Proof.
  intros Hle. apply orb_true_iff. right. apply Qle_bool_iff. exact Hle.
Qed.

(** C8: for a market order that carries a notional amount and no quantity,
    once the symbol is resolved to an instrument and the rate snapshot is
    read, the reference price is the ask for a buy and the bid for a sell,
    the last-execution price when that one is absent; with a positive
    reference price the order request carries [notional / price] units,
    and without one (absent, zero or negative) the call fails with
    [PROVIDER_ERROR] and nothing is sent.  A notional of 100 against an ask
    of 101 sends 100/101 units, within 10^-6 of 0.990099. *)
Theorem C8_createOrder_units_from_notional (b : Broker) (params : OrderParams)
    (n : Q) (w w1 w2 : World) (iid : Z) (rateMap : gmap Z EtoroRate) :
  op_type params = "market"%string ->
  op_qty params = None ->
  op_notional params = Some n ->
  Instruments.resolveInstrumentId b (op_symbol params) w = (Ok iid, w1) ->
  getCachedRates b w1 = (Ok rateMap, w2) ->
  let rate := rateMap !! iid in
  (referencePrice buy rate =
     match rate ?. ask with Some a => Some a | None => rate ?. lastExecution end /\
   referencePrice sell rate =
     match rate ?. bid with Some a => Some a | None => rate ?. lastExecution end) /\
  (forall price,
     referencePrice (op_side params) rate = Some price -> 0 < price ->
     let body := mkOpenOrderBody iid (isBuy_of (op_side params)) (n / price) in
     log (snd (createOrder b params w)) =
       (log w2 ++ [POST_market_open_by_units (env w) body])%list /\
     is_ok (fst (createOrder b params w)) = is_ok (on_open_order b body)) /\
  ((referencePrice (op_side params) rate = None \/
    exists price, referencePrice (op_side params) rate = Some price /\ price <= 0) ->
   createOrder b params w = (Err PROVIDER_ERROR, w2)) /\
  (exists body,
     log (snd (createOrder (aapl_broker 101)
                 (market_order "AAPL" None (Some 100) buy) (world0 risk_normal))) =
       [GET_search "AAPL"; GET_rates; POST_market_open_by_units demo body] /\
     AmountInUnits body == 100 / 101 /\
     990098 # 1000000 < AmountInUnits body /\ AmountInUnits body < 990100 # 1000000).
Proof.
  intros Htype Hqty Hnot Hres Hrates rate.
  assert (Hrun : createOrder b params w =
    match referencePrice (op_side params) rate with
    | Some price =>
        if (negb (Qtruthy price) || Qle_bool price 0)%bool
        then (Err PROVIDER_ERROR, w2)
        else
          let body := mkOpenOrderBody iid (isBuy_of (op_side params)) (n / price) in
          let w3 := mkWorld (now w2 + latency b (POST_market_open_by_units (env w) body))%Z
                            (log w2 ++ [POST_market_open_by_units (env w) body])
                            (env w2) (instruments w2) (trading w2) (risk w2) in
          match on_open_order b body with
          | Ok response => (Ok (mapOpenOrder (now w3) params iid response), w3)
          | Err e => (Err e, w3)
          end
    | None => (Err PROVIDER_ERROR, w2)
    end).
  { unfold createOrder. rewrite Htype.
    replace (String.eqb "market" "market") with true by reflexivity.
    unfold bind, get_world, negb. rewrite Hres.
    unfold resolveUnits. rewrite Hqty, Hnot. unfold bind. rewrite Hrates.
    fold rate. destruct (referencePrice (op_side params) rate) as [price|]; [|reflexivity].
    destruct (_ || _)%bool; [reflexivity|].
    unfold request, ret, throw, isBuy_of. cbn.
    destruct (on_open_order b _); reflexivity. }
  split; [|split; [|split]].
  - split; reflexivity.
  - intros price Hprice Hpos body. rewrite Hrun, Hprice.
    rewrite (positive_price_usable price Hpos). fold body. cbn zeta.
    destruct (on_open_order b body); split; reflexivity.
  - intros Hbad. rewrite Hrun.
    destruct Hbad as [-> | (price & -> & Hle)]; [reflexivity|].
    rewrite (nonpositive_price_unusable price Hle). reflexivity.
  - exists (mkOpenOrderBody 999 true (100 # 101)).
    split; [vm_compute; reflexivity|]. cbn [AmountInUnits].
    split; [reflexivity|]. split; reflexivity.
Qed.

Lemma C8_createOrder_units_from_notional_witness :
  log (snd (createOrder (aapl_broker 101)
              (market_order "AAPL" None (Some 100) buy) (world0 risk_normal))) =
    [GET_search "AAPL"; GET_rates;
     POST_market_open_by_units demo (mkOpenOrderBody 999 true (100 / 101))].
Proof.
  edestruct (C8_createOrder_units_from_notional (aapl_broker 101)
               (market_order "AAPL" None (Some 100) buy) 100 (world0 risk_normal))
    as (_ & H & _).
  - reflexivity.
  - reflexivity.
  - reflexivity.
  - vm_compute. reflexivity.
  - vm_compute. reflexivity.
  - destruct (H 101) as [Hlog _].
    + vm_compute. reflexivity.
    + reflexivity.
    + rewrite Hlog. vm_compute. reflexivity.
Defined.

(** C6 (as stated, refuted): when the portfolio request and the
    profit/loss request both fail, [getAccount] fails with the error of the
    second one (both requests were sent). *)
Lemma C6_getAccount_fails_when_both_sources_fail :
  let out := getAccount failing_broker (world0 risk_normal) in
  on_portfolio failing_broker = Err PROVIDER_ERROR /\
  on_pnl failing_broker = Err PROVIDER_ERROR /\
  fst out = Err PROVIDER_ERROR /\
  log (snd out) = [GET_portfolio demo; GET_pnl demo].
Proof.
  vm_compute. repeat split.
Qed.


(** C6 (amended): [getAccount] returns an account whenever one of the two
    sources answers.  If the (cached) portfolio read succeeds, cash is the
    credit and equity is cash plus the summed market value of the
    deduplicated positions, whatever happens to the metadata and rate
    enrichment.  If it fails and the profit/loss request succeeds, equity is
    credit plus unrealized P/L.  If both fail, [getAccount] fails with the
    error of the profit/loss request. *)
Theorem C6_getAccount_two_sources (b : Broker) (w : World) :
  match getCachedPortfolio b w with
  | (Ok response, _) =>
      exists acct w' meta rates,
        getAccount b w = (Ok acct, w') /\
        cash acct = nullish (clientPortfolio response ?. credit) 0 /\
        long_market_value acct = sumMarketValue (accountPositions response meta rates) /\
        equity acct = cash acct + long_market_value acct
  | (Err _, w1) =>
      match on_pnl b with
      | Ok response =>
          exists acct w',
            getAccount b w = (Ok acct, w') /\
            cash acct = nullish (clientPortfolio response ?. credit) 0 /\
            equity acct = cash acct + nullish (clientPortfolio response ?. unrealizedPnL) 0
      | Err e =>
          exists w', getAccount b w = (Err e, w') /\
                     log w' = (log w1 ++ [GET_pnl (env w)])%list
      end
  end.
Proof.
  unfold getAccount, bind, get_world, try_catch, ret, request.
  destruct (getCachedPortfolio b w) as [[response|e] w1].
  - destruct (Instruments.resolveMetadata b _ w1) as [[meta|e1] w2];
      match goal with
      | |- context [getCachedRates b ?w0] =>
          destruct (getCachedRates b w0) as [[rates|e2] w3]
      end;
      eexists _, _, _, _; (split; [reflexivity|]); cbn; repeat split; reflexivity.
  - destruct (on_pnl b) as [response|e'].
    + eexists _, _. split; [reflexivity|]. cbn. split; reflexivity.
    + eexists. split; reflexivity.
Qed.

End TradingNotionalFacts.

(** ** Trading provider: the short-TTL caches *)

Section CacheFacts.
Import Trading Scenario.

Lemma fresh_stays_stale {T} (c : option (CacheEntry T)) t t' :
  fresh t c = None -> t <= t' -> fresh t' c = None.
Proof.
  unfold fresh. destruct c as [e|]; [|reflexivity].
  destruct (Z.ltb_spec t (expiresAt e)); [discriminate|].
  intros _ Hle. destruct (Z.ltb_spec t' (expiresAt e)); [lia | reflexivity].
Qed.


Lemma cache_run_app es1 : forall es2 w,
  cache_run (es1 ++ es2) w =
  match cache_run es1 w with
  | Some (o1, w1) =>
      match cache_run es2 w1 with
      | Some (o2, w2) => Some (o1 ++ o2, w2)
      | None => None
      end
  | None => None
  end.
Proof.
  induction es1 as [|e es1 IH]; intros es2 w; simpl.
  - destruct (cache_run es2 w) as [[o2 w2]|]; reflexivity.
  - destruct (cache_step e w) as [[o1 w1]|]; [|reflexivity].
    rewrite IH. destruct (cache_run es1 w1) as [[o w']|]; [|reflexivity].
    destruct (cache_run es2 w') as [[o2 w2]|]; [|reflexivity].
    rewrite app_assoc. reflexivity.
Qed.

(** The first caller on a stale cache with nothing in flight issues the
    request and leaves its promise behind. *)
Lemma getCachedPortfolio_call_starts w :
  fresh (now w) (portfolioCache (trading w)) = None ->
  portfolioPending (trading w) = None ->
  getCachedPortfolio_call w =
    (InFlight (length (log w)),
     mkWorld (now w) (log w ++ [GET_portfolio (env w)]) (env w) (instruments w)
             (set_portfolio (portfolioCache (trading w)) (Some (length (log w))) (trading w))
             (risk w)).
Proof.
  intros Hst Hp. unfold getCachedPortfolio_call. rewrite Hst, Hp. reflexivity.
Qed.

(** While the request is in flight, callers and clock ticks change nothing
    but the clock, and every caller is handed the in-flight promise. *)
Lemma portfolio_callers_join es : forall w p obs w',
  Forall (fun e => is_portfolio_caller e = true) es ->
  fresh (now w) (portfolioCache (trading w)) = None ->
  portfolioPending (trading w) = Some p ->
  cache_run es w = Some (obs, w') ->
  Forall (fun o => o = GotPortfolio (InFlight p)) obs /\
  log w' = log w /\ trading w' = trading w /\ env w' = env w /\ now w <= now w'.
Proof.
  induction es as [|e es IH]; intros w p obs w' Hes Hst Hp Hrun; simpl in Hrun.
  - injection Hrun as <- <-. repeat split; [constructor | lia].
  - inversion Hes as [|? ? He Hes']; subst.
    destruct e as [t| | | |]; try discriminate He; cbn in Hrun.
    + destruct (Z.ltb_spec t (now w)) as [|Hle]; [discriminate|].
      destruct (cache_run es (set_now t w)) as [[o2 w2]|] eqn:Hrest; [|discriminate].
      injection Hrun as <- <-.
      destruct (IH (set_now t w) p o2 w2 Hes') as (Hobs & Hlog & Htr & Henv & Hnow);
        try assumption.
      { cbn. eapply fresh_stays_stale; eassumption. }
      cbn in *. repeat split; try assumption. lia.
    + unfold getCachedPortfolio_call in Hrun. rewrite Hst, Hp in Hrun.
      destruct (cache_run es w) as [[o2 w2]|] eqn:Hrest; [|discriminate].
      injection Hrun as <- <-.
      destruct (IH w p o2 w2 Hes' Hst Hp Hrest) as (Hobs & Hrest').
      split; [|exact Hrest']. constructor; [reflexivity | exact Hobs].
Qed.





Lemma filter_app_one {A} (f : A -> bool) l x :
  length (List.filter f (l ++ [x])) =
  (length (List.filter f l) + (if f x then 1 else 0))%nat.
Proof.
  rewrite List.filter_app, length_app. simpl. destruct (f x); reflexivity.
Qed.




(** C5 (as stated, refuted for the rate snapshot): the rates request fails,
    [fetchAllRates] turns the failure into an empty map, the [.then] handler
    caches it, and the caller one millisecond later is served the cached
    empty map; the transport saw a single rates request. *)
Lemma C5_failed_rates_fetch_is_cached :
  exists w',
    cache_run [CallRates; SettleRates (Err PROVIDER_ERROR); Tick 1000001; CallRates]
              (world0 risk_normal)
      = Some ([GotRates (InFlight 0); GotRates (Resolved ∅)], w') /\
    ratesCache (trading w') = Some (mkCacheEntry ∅ 1015000) /\
    rates_fetches w' = 1%nat.
Proof.
  eexists. split; [vm_compute; reflexivity|]. split; vm_compute; reflexivity.
Qed.

(** C5 (amended): for the portfolio snapshot a failed fetch is not cached:
    the entry is left as it was (still stale), the in-flight marker is
    cleared, and the next caller, whenever it comes, issues a new request,
    the second one of the run; two failing reads in a row send two requests.
    For the rate snapshot the marker is cleared on every outcome as well, and
    its fetch operation never fails: a failed rates request becomes the empty
    map instead of an error. *)
Theorem C5_failed_portfolio_fetch_not_cached (w w' : World)
    (es : list cache_event) (e : ErrorCode) (obs : list cache_obs) :
  fresh (now w) (portfolioCache (trading w)) = None ->
  portfolioPending (trading w) = None ->
  Forall (fun ev => is_portfolio_caller ev = true) es ->
  cache_run (CallPortfolio :: es ++ [SettlePortfolio (Err e)]) w = Some (obs, w') ->
  (portfolioCache (trading w') = portfolioCache (trading w) /\
   fresh (now w') (portfolioCache (trading w')) = None /\
   portfolioPending (trading w') = None) /\
  (forall t, now w' <= t ->
     exists w'',
       getCachedPortfolio_call (set_now t w') = (InFlight (length (log w')), w'') /\
       log w'' = log w' ++ [GET_portfolio (env w')] /\
       portfolio_fetches w'' = S (S (portfolio_fetches w))) /\
  (let w0 := world0 risk_normal in
   let out1 := getCachedPortfolio failing_broker w0 in
   let out2 := getCachedPortfolio failing_broker (snd out1) in
   fst out1 = Err PROVIDER_ERROR /\ fst out2 = Err PROVIDER_ERROR /\
   log (snd out2) = [GET_portfolio demo; GET_portfolio demo]) /\
  (forall wr http,
     ratesPending (trading (rates_settled (fetchAllRates http) wr)) = None) /\
  (forall http, is_ok (fetchAllRates http) = true) /\
  (forall e', fetchAllRates (Err e') = Ok ∅).
Proof.
  intros Hst Hp Hes Hrun.
  change (CallPortfolio :: es ++ [SettlePortfolio (Err e)])
    with ([CallPortfolio] ++ es ++ [SettlePortfolio (Err e)]) in Hrun.
  rewrite cache_run_app in Hrun. cbn [cache_run cache_step] in Hrun.
  rewrite (getCachedPortfolio_call_starts w Hst Hp) in Hrun.
  set (w1 := mkWorld _ _ _ _ _ _) in Hrun.
  rewrite cache_run_app in Hrun.
  destruct (cache_run es w1) as [[obs1 w2]|] eqn:Hrun1; [|discriminate].
  destruct (portfolio_callers_join es w1 (length (log w)) obs1 w2 Hes)
    as (Hobs1 & Hlog2 & Htr2 & Henv2 & Hnow2); [exact Hst | reflexivity | exact Hrun1 |].
  cbn [cache_run cache_step] in Hrun.
  rewrite Htr2 in Hrun. cbn [w1 trading set_portfolio portfolioPending] in Hrun.
  cbn in Hrun. injection Hrun as <- <-.
  assert (Hstale2 : fresh (now w2) (portfolioCache (trading w)) = None).
  { eapply fresh_stays_stale; [exact Hst|]. exact Hnow2. }
  unfold portfolio_settled. rewrite Htr2. cbn.
  split; [|split; [|split; [|split; [|split]]]].
  - repeat split. exact Hstale2.
  - intros t Ht. eexists. unfold getCachedPortfolio_call. cbn.
    rewrite (fresh_stays_stale _ _ _ Hstale2 Ht).
    split; [reflexivity|]. cbn. split; [reflexivity|].
    unfold portfolio_fetches. cbn. rewrite Hlog2. cbn.
    rewrite !filter_app_one. cbn. lia.
  - vm_compute. repeat split.
  - intros wr http. unfold fetchAllRates. reflexivity.
  - intros http. reflexivity.
  - intros e'. reflexivity.
Qed.

Lemma C5_failed_portfolio_fetch_not_cached_witness :
  exists obs w',
    cache_run [CallPortfolio; CallPortfolio; SettlePortfolio (Err RATE_LIMITED)]
              (world0 risk_normal) = Some (obs, w') /\
    portfolioCache (trading w') = None /\
    portfolioPending (trading w') = None.
Proof.
  eexists _, _. split; [vm_compute; reflexivity|].
  edestruct (fun obs w' =>
               C5_failed_portfolio_fetch_not_cached (world0 risk_normal) w'
                 [CallPortfolio] RATE_LIMITED obs) as ((Hc & _ & Hp) & _).
  - reflexivity.
  - reflexivity.
  - repeat constructor.
  - vm_compute. reflexivity.
  - split; [exact Hc | exact Hp].
Defined.

End CacheFacts.

(** ** Instrument directory *)

Section InstrumentFacts.
Import JsString Instruments Scenario.
Local Open Scope string_scope.


Lemma upper_ascii_idem c : upper_ascii (upper_ascii c) = upper_ascii c.
Proof. destruct c as [[] [] [] [] [] [] [] []]; reflexivity. Qed.

Lemma toUpperCase_idem s : is_upper (toUpperCase s).
Proof.
  unfold is_upper. induction s as [|c s IH]; simpl; [reflexivity|].
  rewrite upper_ascii_idem, IH. reflexivity.
Qed.

Lemma is_upper_cons c s : is_upper (String c s) -> upper_ascii c = c /\ is_upper s.
Proof. unfold is_upper. simpl. intros [= H1 H2]. split; assumption. Qed.

Lemma is_upper_drop k : forall s, is_upper s -> is_upper (drop k s).
Proof.
  induction k as [|k IH]; intros s Hs; simpl; [exact Hs|].
  destruct s as [|c s]; [exact Hs|].
  apply IH. apply (is_upper_cons c s Hs).
Qed.

Lemma is_upper_append s1 s2 : is_upper s1 -> is_upper s2 -> is_upper (String.append s1 s2).
Proof.
  unfold is_upper. induction s1 as [|c s1 IH]; simpl; intros H1 H2; [exact H2|].
  injection H1 as Hc Hs. rewrite Hc, (IH Hs H2). reflexivity.
Qed.

Lemma is_upper_replace p r s : is_upper r -> is_upper s -> is_upper (replace p r s).
Proof.
  intros Hr. induction s as [|c s IH]; intros Hs; cbn [replace].
  - destruct (startsWith p ""); [|reflexivity].
    apply is_upper_append; [exact Hr | apply is_upper_drop; exact Hs].
  - destruct (startsWith p (String c s)).
    + apply is_upper_append; [exact Hr | apply is_upper_drop; exact Hs].
    + destruct (is_upper_cons c s Hs) as [Hc Hs']. unfold is_upper. cbn [toUpperCase].
      rewrite Hc. f_equal. apply IH. exact Hs'.
Qed.

Lemma is_upper_split_head p s : is_upper s -> is_upper (split_head p s).
Proof.
  induction s as [|c s IH]; intros Hs; cbn [split_head].
  - destruct (startsWith p ""); reflexivity.
  - destruct (startsWith p (String c s)); [reflexivity|].
    destruct (is_upper_cons c s Hs) as [Hc Hs']. unfold is_upper. cbn [toUpperCase].
    rewrite Hc. f_equal. apply IH. exact Hs'.
Qed.

Lemma set_add_Forall (P : string -> Prop) x l :
  P x -> Forall P l -> Forall P (set_add x l).
Proof.
  intros Hx. induction 1 as [|y l Hy Hl IH]; simpl.
  - constructor; [exact Hx | constructor].
  - destruct (String.eqb x y); constructor; assumption.
Qed.

Lemma buildSymbolCandidates_upper n :
  is_upper n -> Forall is_upper (buildSymbolCandidates n).
Proof.
  intros Hn. unfold buildSymbolCandidates.
  assert (H0 : Forall is_upper [n]) by (constructor; [exact Hn | constructor]).
  destruct (includes "/" n); [|destruct (endsWith "USD" n)]; [| |exact H0].
  - apply set_add_Forall; [apply is_upper_split_head; exact Hn|].
    apply set_add_Forall; [apply is_upper_replace; [reflexivity | exact Hn] | exact H0].
  - apply set_add_Forall; [apply is_upper_append; [exact Hn | reflexivity]|].
    apply set_add_Forall; [apply is_upper_replace; [reflexivity | exact Hn] | exact H0].
Qed.

Lemma set_add_head x y l : exists l', set_add x (y :: l) = y :: l'.
Proof. simpl. destruct (String.eqb x y); eexists; reflexivity. Qed.

(** The symbol itself is always the first candidate. *)
Lemma buildSymbolCandidates_head n :
  exists rest, buildSymbolCandidates n = n :: rest.
Proof.
  unfold buildSymbolCandidates.
  destruct (includes "/" n); [|destruct (endsWith "USD" n)]; [| |eexists; reflexivity].
  - destruct (set_add_head (replace "/" "" n) n []) as [l1 ->].
    apply set_add_head.
  - destruct (set_add_head (replace "USD" "" n) n []) as [l1 ->].
    apply set_add_head.
Qed.

Lemma searchExactSymbol_eq b c w :
  searchExactSymbol b c w =
    (searchOutcome b c,
     mkWorld (now w + latency b (GET_search c)) (log w ++ [GET_search c])%list (env w)
             (instruments w) (trading w) (risk w)).
Proof.
  unfold searchExactSymbol, searchOutcome, bind, request, ret.
  destruct (on_search b c); reflexivity.
Qed.

(** The candidate loop sends the requests of [candidateTrace] and returns
    its outcome, from any world. *)
Lemma tryCandidates_trace b cs : forall w,
  fst (tryCandidates b cs w) = snd (candidateTrace b cs) /\
  log (snd (tryCandidates b cs w)) = (log w ++ fst (candidateTrace b cs))%list.
Proof.
  induction cs as [|c cs IH]; intros w; simpl.
  - split; [reflexivity | rewrite app_nil_r; reflexivity].
  - unfold bind. rewrite !searchExactSymbol_eq.
    destruct (searchOutcome b c) as [[[i sym]|]|e]; cbn.
    + split; reflexivity.
    + match goal with |- context [tryCandidates b cs ?w1] => destruct (IH w1) as [H1 H2] end.
      destruct (candidateTrace b cs) as [reqs r]. cbn in *.
      rewrite H1, H2. cbn. rewrite <- app_assoc. split; reflexivity.
    + split; reflexivity.
Qed.

(** A successful candidate loop stored exactly one mapping, under a
    candidate of the list whose own search matched. *)
Lemma tryCandidates_store b cs : forall w i w1,
  tryCandidates b cs w = (Ok i, w1) ->
  exists c sym,
    In c cs /\ searchOutcome b c = Ok (Some (i, sym)) /\
    symbolToId (instruments w1) =
      <[toUpperCase c := mkSymbolEntry i (now w1)]> (symbolToId (instruments w)).
Proof.
  induction cs as [|c cs IH]; intros w i w1 Hrun; simpl in Hrun.
  - discriminate.
  - unfold bind in Hrun. rewrite searchExactSymbol_eq in Hrun.
    destruct (searchOutcome b c) as [[[j sym]|]|e] eqn:Hout; cbn in Hrun.
    + injection Hrun as <- <-. exists c, sym. cbn.
      repeat split; try (left; reflexivity); assumption.
    + destruct (IH _ _ _ Hrun) as (c' & sym & Hin & Hs & Hmap).
      exists c', sym. cbn in *. repeat split; try assumption.
      right. exact Hin.
    + discriminate.
Qed.

(** The clock only moves by the latencies of the requests. *)
Lemma tryCandidates_clock b cs : forall w,
  (forall r, 0 <= latency b r) ->
  now w <= now (snd (tryCandidates b cs w)).
Proof.
  induction cs as [|c cs IH]; intros w Hlat; simpl.
  - lia.
  - unfold bind. rewrite searchExactSymbol_eq.
    pose proof (Hlat (GET_search c)) as Hc.
    destruct (searchOutcome b c) as [[[j sym]|]|e]; cbn; try lia.
    match goal with |- context [tryCandidates b cs ?w1] =>
      pose proof (IH w1 Hlat) as H1 end.
    cbn in H1. lia.
Qed.

Lemma candidateTrace_skip b c cs :
  searchOutcome b c = Ok None ->
  candidateTrace b (c :: cs) =
    (GET_search c :: fst (candidateTrace b cs), snd (candidateTrace b cs)).
Proof.
  intros H. simpl. rewrite H. destruct (candidateTrace b cs). reflexivity.
Qed.

Lemma candidateTrace_app_ok b cs more i :
  snd (candidateTrace b cs) = Ok i ->
  candidateTrace b (cs ++ more)%list = candidateTrace b cs.
Proof.
  induction cs as [|c cs IH]; simpl; [discriminate|].
  destruct (searchOutcome b c) as [[[j sym]|]|e]; try reflexivity.
  destruct (candidateTrace b cs) as [reqs r] eqn:Ht. cbn. intros Hr.
  rewrite (IH Hr). reflexivity.
Qed.

Lemma candidateTrace_nonempty b c cs : fst (candidateTrace b (c :: cs)) <> [].
Proof.
  simpl. destruct (searchOutcome b c) as [[[i sym]|]|e]; try discriminate.
  destruct (candidateTrace b cs). discriminate.
Qed.

Lemma isFresh_stays_stale t t' u : isFresh t u = false -> t <= t' -> isFresh t' u = false.
Proof.
  unfold isFresh. intros H Hle.
  destruct (Z.ltb_spec (t - u) ttlMs); [discriminate|].
  destruct (Z.ltb_spec (t' - u) ttlMs); [lia | reflexivity].
Qed.

Lemma resolveInstrumentId_miss b s w :
  cacheMiss (now w) (instruments w) (toUpperCase (trim s)) ->
  resolveInstrumentId b s w =
    tryCandidates b (buildSymbolCandidates (toUpperCase (trim s))) w.
Proof.
  unfold cacheMiss, resolveInstrumentId, bind, get_world.
  destruct (symbolToId (instruments w) !! _) as [c|]; [|reflexivity].
  intros ->. reflexivity.
Qed.

(** C10: when the search for the normalized symbol itself has no match and
    [resolveInstrumentId] still succeeds (so through another candidate), the
    mapping is stored under that candidate only and the entry of the symbol
    itself is left as it was.  The symbol therefore still misses the cache,
    and resolving it again right away sends the same search requests once
    more, starting with the search for the symbol itself, and returns the
    same id. *)
Theorem C10_alias_not_cached_under_input (b : Broker) (s : string)
    (w w1 : World) (i : Z) :
  (forall r, 0 <= latency b r) ->
  cacheMiss (now w) (instruments w) (toUpperCase (trim s)) ->
  searchOutcome b (toUpperCase (trim s)) = Ok None ->
  resolveInstrumentId b s w = (Ok i, w1) ->
  (exists c,
     In c (buildSymbolCandidates (toUpperCase (trim s))) /\
     c <> toUpperCase (trim s) /\
     symbolToId (instruments w1) =
       <[c := mkSymbolEntry i (now w1)]> (symbolToId (instruments w))) /\
  symbolToId (instruments w1) !! toUpperCase (trim s) =
    symbolToId (instruments w) !! toUpperCase (trim s) /\
  cacheMiss (now w1) (instruments w1) (toUpperCase (trim s)) /\
  (exists rest w2,
     log w1 = (log w ++ GET_search (toUpperCase (trim s)) :: rest)%list /\
     resolveInstrumentId b s w1 = (Ok i, w2) /\
     log w2 = (log w1 ++ GET_search (toUpperCase (trim s)) :: rest)%list).
Proof.
  set (n := toUpperCase (trim s)).
  intros Hlat Hmiss Hnone Hres.
  rewrite (resolveInstrumentId_miss b s w Hmiss) in Hres. fold n in Hres.
  destruct (tryCandidates_store b _ w i w1 Hres) as (c & sym & Hin & Hc & Hmap).
  assert (Hne : c <> n).
  { intros ->. rewrite Hnone in Hc. discriminate. }
  assert (Hup : toUpperCase c = c).
  { pose proof (buildSymbolCandidates_upper n (toUpperCase_idem (trim s))) as Hall.
    rewrite List.Forall_forall in Hall. apply Hall. exact Hin. }
  rewrite Hup in Hmap.
  assert (Hsame : symbolToId (instruments w1) !! n = symbolToId (instruments w) !! n).
  { rewrite Hmap. apply lookup_insert_ne. exact Hne. }
  assert (Hclock : now w <= now w1).
  { pose proof (tryCandidates_clock b (buildSymbolCandidates n) w Hlat) as H.
    rewrite Hres in H. exact H. }
  assert (Hmiss1 : cacheMiss (now w1) (instruments w1) n).
  { unfold cacheMiss in *. rewrite Hsame.
    destruct (symbolToId (instruments w) !! n) as [e|]; [|exact I].
    eapply isFresh_stays_stale; eassumption. }
  split; [exists c; repeat split; assumption|].
  split; [exact Hsame|]. split; [exact Hmiss1|].
  destruct (buildSymbolCandidates_head n) as [tl Hcs].
  destruct (tryCandidates_trace b (buildSymbolCandidates n) w) as [Hr0 Hl0].
  rewrite Hres in Hr0, Hl0. cbn in Hr0, Hl0.
  destruct (tryCandidates_trace b (buildSymbolCandidates n) w1) as [Hr1 Hl1].
  assert (Htrace : exists rest, fst (candidateTrace b (buildSymbolCandidates n)) =
                                GET_search n :: rest).
  { rewrite Hcs. simpl. rewrite Hnone.
    destruct (candidateTrace b tl) as [reqs r]. exists reqs. reflexivity. }
  destruct Htrace as [rest Hrest].
  exists rest, (snd (tryCandidates b (buildSymbolCandidates n) w1)).
  rewrite Hrest in Hl0, Hl1.
  split; [exact Hl0|]. split; [|exact Hl1].
  rewrite (resolveInstrumentId_miss b s w1 Hmiss1). fold n.
  destruct (tryCandidates b (buildSymbolCandidates n) w1) as [r1 w2]. cbn in *.
  rewrite Hr1, <- Hr0. reflexivity.
Qed.

Lemma C10_alias_not_cached_under_input_witness :
  exists w1 w2,
    resolveInstrumentId btc_base_broker "btc/usd" (world0 risk_normal) = (Ok 2, w1) /\
    symbolToId (instruments w1) !! "BTC/USD" = None /\
    resolveInstrumentId btc_base_broker "btc/usd" w1 = (Ok 2, w2) /\
    log w2 = [GET_search "BTC/USD"; GET_search "BTCUSD"; GET_search "BTC";
              GET_search "BTC/USD"; GET_search "BTCUSD"; GET_search "BTC"].
Proof.
  eexists _, _.
  edestruct (C10_alias_not_cached_under_input btc_base_broker "btc/usd"
               (world0 risk_normal)) as (_ & Hsame & _ & (rest & w2 & Hl1 & Hres2 & Hl2)).
  - intros r. vm_compute. discriminate.
  - vm_compute. exact I.
  - vm_compute. reflexivity.
  - vm_compute. reflexivity.
  - split; [reflexivity|]. split; [exact Hsame|].
    split; [vm_compute; reflexivity|]. vm_compute. reflexivity.
Defined.

(** C9 (as stated, refuted): the search returns the same match for the
    shared base candidate BTC in both resolutions, yet the slash form has a
    match of its own under another id, which wins for "BTC/USD" because the
    symbol itself is tried first. *)
Lemma C9_slash_form_match_wins :
  buildSymbolCandidates "BTC/USD" = ["BTC/USD"; "BTCUSD"; "BTC"] /\
  buildSymbolCandidates "BTCUSD" = ["BTCUSD"; "BTC"; "BTCUSD/USD"] /\
  searchOutcome btc_split_broker "BTC" = Ok (Some (2, "BTC")) /\
  fst (resolveInstrumentId btc_split_broker "BTC/USD" (world0 risk_normal)) = Ok 1 /\
  fst (resolveInstrumentId btc_split_broker "BTCUSD" (world0 risk_normal)) = Ok 2.
Proof.
  vm_compute. repeat split.
Qed.

(** C9 (amended): when neither alias is in the symbol cache and the search
    for the slash form "BTC/USD" itself has no match, a successful
    resolution of "BTC/USD" (necessarily through one of the shared
    candidates "BTCUSD" and "BTC", tried in that order) and the resolution
    of "BTCUSD" return the same instrument id, whether "BTCUSD" is resolved
    from the same starting state or right after "BTC/USD". *)
Theorem C9_btc_aliases_resolve_alike (b : Broker) (w w1 : World) (i : Z) :
  symbolToId (instruments w) !! "BTC/USD" = None ->
  symbolToId (instruments w) !! "BTCUSD" = None ->
  searchOutcome b "BTC/USD" = Ok None ->
  resolveInstrumentId b "BTC/USD" w = (Ok i, w1) ->
  fst (resolveInstrumentId b "BTCUSD" w) = Ok i /\
  fst (resolveInstrumentId b "BTCUSD" w1) = Ok i.
Proof.
  intros Hc1 Hc2 Hnone Hres.
  assert (Hmiss1 : cacheMiss (now w) (instruments w) (toUpperCase (trim "BTC/USD"))).
  { unfold cacheMiss. change (toUpperCase (trim "BTC/USD")) with "BTC/USD".
    rewrite Hc1. exact I. }
  rewrite (resolveInstrumentId_miss b _ w Hmiss1) in Hres.
  change (buildSymbolCandidates (toUpperCase (trim "BTC/USD")))
    with ["BTC/USD"; "BTCUSD"; "BTC"] in Hres.
  assert (Htrace : snd (candidateTrace b ["BTCUSD"; "BTC"]) = Ok i).
  { destruct (tryCandidates_trace b ["BTC/USD"; "BTCUSD"; "BTC"] w) as [Hr _].
    rewrite Hres in Hr. cbn [fst] in Hr.
    rewrite (candidateTrace_skip b _ _ Hnone) in Hr. symmetry. exact Hr. }
  assert (Hloop : forall v, fst (tryCandidates b ["BTCUSD"; "BTC"; "BTCUSD/USD"] v) = Ok i).
  { intros v.
    destruct (tryCandidates_trace b ["BTCUSD"; "BTC"; "BTCUSD/USD"] v) as [Hr _].
    rewrite Hr.
    change ["BTCUSD"; "BTC"; "BTCUSD/USD"] with (["BTCUSD"; "BTC"] ++ ["BTCUSD/USD"])%list.
    rewrite (candidateTrace_app_ok b _ _ i Htrace). exact Htrace. }
  assert (Hresolve : forall v,
    resolveInstrumentId b "BTCUSD" v =
      match symbolToId (instruments v) !! "BTCUSD" with
      | Some cached =>
          if isFresh (now v) (updatedAt cached) then (Ok (id cached), v)
          else tryCandidates b ["BTCUSD"; "BTC"; "BTCUSD/USD"] v
      | None => tryCandidates b ["BTCUSD"; "BTC"; "BTCUSD/USD"] v
      end).
  { intros v. unfold resolveInstrumentId, bind, get_world.
    change (toUpperCase (trim "BTCUSD")) with "BTCUSD".
    change (buildSymbolCandidates "BTCUSD") with ["BTCUSD"; "BTC"; "BTCUSD/USD"].
    destruct (symbolToId (instruments v) !! "BTCUSD") as [c|]; [|reflexivity].
    destruct (isFresh _ _); reflexivity. }
  split.
  - rewrite Hresolve, Hc2. apply Hloop.
  - rewrite Hresolve.
    destruct (tryCandidates_store b _ w i w1 Hres) as (c & sym & Hin & Hc & Hmap).
    rewrite Hmap.
    destruct (decide (toUpperCase c = "BTCUSD")) as [Heq|Hne].
    + rewrite Heq, lookup_insert_eq. cbn [updatedAt id].
      destruct (isFresh _ _); [reflexivity | apply Hloop].
    + rewrite lookup_insert_ne by exact Hne. rewrite Hc2. apply Hloop.
Qed.

Lemma C9_btc_aliases_resolve_alike_witness :
  fst (resolveInstrumentId btc_base_broker "BTC/USD" (world0 risk_normal)) = Ok 2 /\
  fst (resolveInstrumentId btc_base_broker "BTCUSD" (world0 risk_normal)) = Ok 2.
Proof.
  split; [vm_compute; reflexivity|].
  edestruct (C9_btc_aliases_resolve_alike btc_base_broker (world0 risk_normal)) as [H _].
  - reflexivity.
  - reflexivity.
  - vm_compute. reflexivity.
  - vm_compute. reflexivity.
  - exact H.
Defined.

End InstrumentFacts.

(** ** Order approvals *)

Section ApprovalFacts.
Import Approvals.

Lemma stampUsed_tokens now token rows :
  map approval_token (stampUsed now token rows) = map approval_token rows.
Proof.
  unfold stampUsed. rewrite List.map_map. apply List.map_ext.
  intros a. destruct (_ && _ && _)%bool; reflexivity.
Qed.

Lemma NoDup_map_inj {A B} (f : A -> B) (l : list A) a a' :
  List.NoDup (map f l) -> In a l -> In a' l -> f a = f a' -> a = a'.
Proof.
  induction l as [|x l IH]; simpl; intros Hnd Ha Ha' Hf; [contradiction|].
  inversion Hnd as [|? ? Hnotin Hnd']; subst.
  destruct Ha as [->|Ha], Ha' as [->|Ha'].
  - reflexivity.
  - exfalso. apply Hnotin. rewrite Hf. apply List.in_map. exact Ha'.
  - exfalso. apply Hnotin. rewrite <- Hf. apply List.in_map. exact Ha.
  - apply IH; assumption.
Qed.

Lemma NoDup_map_filter {A B} (f : A -> B) (p : A -> bool) (l : list A) :
  List.NoDup (map f l) -> List.NoDup (map f (List.filter p l)).
Proof.
  induction l as [|x l IH]; simpl; intros Hnd; [constructor|].
  inversion Hnd as [|? ? Hnotin Hnd']; subst.
  destruct (p x); simpl; [|apply IH; exact Hnd'].
  constructor; [|apply IH; exact Hnd'].
  intros Hin. apply Hnotin. apply List.in_map_iff in Hin as (y & Hy & Hiny).
  apply List.filter_In in Hiny as [Hiny _].
  rewrite <- Hy. apply List.in_map. exact Hiny.
Qed.

Lemma find_has_token token rows a :
  List.find (has_token token) rows = Some a -> In a rows /\ approval_token a = token.
Proof.
  intros H. apply List.find_some in H as [Hin Ht]. split; [exact Hin|].
  unfold has_token in Ht. apply String.eqb_eq. exact Ht.
Qed.

Lemma submissions_app token st tok t :
  submissions token (mkState (approvals st) (submitted st ++ [(tok, t)])) =
  (submissions token st + (if String.eqb tok token then 1 else 0))%nat.
Proof.
  unfold submissions. cbn. rewrite List.filter_app, length_app. cbn.
  destruct (String.eqb tok token); reflexivity.
Qed.


Lemma approvals_inv_pristine st : pristine st -> approvals_inv st.
Proof.
  intros (Hnd & Hunused & Hsub). constructor.
  - exact Hnd.
  - eapply Forall_impl; [exact Hunused|]. cbn. intros a Ha t Ht. congruence.
  - intros token. unfold submissions. rewrite Hsub. cbn. lia.
  - intros token a H. unfold submissions in H. rewrite Hsub in H. discriminate.
Qed.

Lemma In_stampUsed now token rows a' :
  In a' (stampUsed now token rows) ->
  exists a, In a rows /\
    ((has_token token a = true /\ used_at a = None /\ now < expires_at a /\
      a' = set_used now a) \/
     (a' = a /\ (has_token token a = false \/ used_at a <> None \/ expires_at a <= now))).
Proof.
  unfold stampUsed. intros H. apply List.in_map_iff in H as (a & Ha & Hin).
  exists a. split; [exact Hin|].
  destruct (has_token token a) eqn:Ht; cbn in Ha.
  - destruct (used_at a) as [u|] eqn:Hu; cbn in Ha.
    + right. split; [auto|]. right. left. congruence.
    + destruct (Z.ltb_spec now (expires_at a)).
      * left. repeat split; auto.
      * right. split; [auto|]. right. right. assumption.
  - right. split; [auto|]. left. reflexivity.
Qed.

Lemma approvals_inv_step e st : approvals_inv st -> approvals_inv (step e st).
Proof.
  intros [Hnd Hexp Honce Hused]. destruct e as [now token | now]; cbn.
  - unfold presentToken.
    destruct (List.find (has_token token) (approvals st)) as [a|] eqn:Hfind;
      [|constructor; assumption].
    destruct (find_has_token _ _ _ Hfind) as [Hin Htok].
    destruct (used_at a) as [u|] eqn:Hu; [constructor; assumption|].
    destruct (Z.ltb_spec now (expires_at a)) as [Hlt|Hge]; [|constructor; assumption].
    assert (Hzero : submissions token st = 0%nat).
    { pose proof (Honce token) as H1.
      destruct (submissions token st) as [|[|n]] eqn:Hs; [reflexivity| |lia].
      exfalso. apply (Hused token a Hs Hin Htok). exact Hu. }
    constructor; cbn.
    + rewrite stampUsed_tokens. exact Hnd.
    + apply List.Forall_forall. intros a' Hin'.
      apply In_stampUsed in Hin' as (a0 & Hin0 & [(_ & _ & Hlt0 & ->) | (-> & _)]).
      * cbn. intros t [= <-]. exact Hlt0.
      * rewrite List.Forall_forall in Hexp. apply Hexp. exact Hin0.
    + intros tok.
      change (mkState (stampUsed now token (approvals st)) (submitted st ++ [(token, now)]))
        with (mkState (stampUsed now token (approvals st))
                      (submitted (mkState (approvals st) (submitted st)) ++ [(token, now)])).
      unfold submissions. cbn. rewrite List.filter_app, length_app. cbn.
      destruct (String.eqb_spec token tok) as [->|Hne]; cbn.
      * unfold submissions in Hzero. rewrite Hzero. lia.
      * pose proof (Honce tok) as H1. unfold submissions in H1. lia.
    + intros tok a' Hs Hin' Htok'.
      apply In_stampUsed in Hin' as (a0 & Hin0 & [(_ & _ & _ & ->) | (-> & Hwhy)]).
      * cbn. discriminate.
      * unfold submissions in Hs. cbn in Hs.
        rewrite List.filter_app, length_app in Hs. cbn in Hs.
        destruct (String.eqb_spec token tok) as [->|Hne]; cbn in Hs.
        -- assert (a0 = a) as ->.
           { eapply (NoDup_map_inj approval_token); eauto. congruence. }
           destruct Hwhy as [Hf | [Hf | Hf]].
           ++ unfold has_token in Hf. rewrite Htok, String.eqb_refl in Hf. discriminate.
           ++ exact Hf.
           ++ lia.
        -- apply (Hused tok a0); [|exact Hin0 | exact Htok'].
           unfold submissions. lia.
  - constructor; cbn.
    + apply NoDup_map_filter. exact Hnd.
    + rewrite List.Forall_forall in *. intros a Hin.
      apply List.filter_In in Hin as [Hin _]. apply Hexp. exact Hin.
    + exact Honce.
    + intros tok a Hs Hin Htok. apply List.filter_In in Hin as [Hin _].
      apply (Hused tok a Hs Hin Htok).
Qed.

Lemma approvals_inv_run es : forall st, approvals_inv st -> approvals_inv (run es st).
Proof.
  induction es as [|e es IH]; intros st Hinv; cbn; [exact Hinv|].
  apply IH. apply approvals_inv_step. exact Hinv.
Qed.

Lemma find_unique_token token rows a :
  List.NoDup (map approval_token rows) -> In a rows -> approval_token a = token ->
  List.find (has_token token) rows = Some a.
Proof.
  intros Hnd Hin Htok.
  destruct (List.find (has_token token) rows) as [a'|] eqn:Hfind.
  - destruct (find_has_token _ _ _ Hfind) as [Hin' Htok'].
    f_equal. eapply (NoDup_map_inj approval_token); eauto. congruence.
  - exfalso. pose proof (List.find_none _ _ Hfind a Hin) as H.
    unfold has_token in H. rewrite Htok, String.eqb_refl in H. discriminate.
Qed.

Lemma In_stampUsed_intro now token rows a :
  In a rows -> approval_token a = token -> used_at a = None -> now < expires_at a ->
  In (set_used now a) (stampUsed now token rows).
Proof.
  intros Hin Htok Hu Hlt. unfold stampUsed. apply List.in_map_iff.
  exists a. split; [|exact Hin].
  unfold has_token. rewrite Htok, String.eqb_refl, Hu. cbn.
  destruct (Z.ltb_spec now (expires_at a)); [reflexivity | lia].
Qed.

(** C4: starting from a table with unique tokens, nothing used and nothing
    submitted, after any sequence of presentations and sweeps: each token
    has been submitted to the broker at most once; every [used_at] stamp is
    earlier than the row's [expires_at]; a presentation succeeds only on an
    unused, unexpired row, which it stamps together with the one submission;
    presenting the token of a used or expired row fails with
    [EXPIRED_APPROVAL_TOKEN] or [INVALID_APPROVAL_TOKEN] and leaves the
    table and the broker submissions unchanged; and so does every
    presentation that follows a successful one. *)
Theorem C4_approval_token_single_use (st0 : state) (es : list event)
    (token : string) (now : Z) :
  pristine st0 ->
  let st := run es st0 in
  (submissions token st <= 1)%nat /\
  Forall (fun a => forall t, used_at a = Some t -> t < expires_at a) (approvals st) /\
  (forall a st',
     presentToken now token st = (Ok a, st') ->
     used_at a = None /\ now < expires_at a /\ In a (approvals st) /\
     In (set_used now a) (approvals st') /\
     submitted st' = submitted st ++ [(token, now)] /\
     forall now', exists code,
       presentToken now' token st' = (Err code, st') /\
       (code = INVALID_APPROVAL_TOKEN \/ code = EXPIRED_APPROVAL_TOKEN)) /\
  (forall a,
     In a (approvals st) -> approval_token a = token ->
     used_at a <> None \/ expires_at a <= now ->
     exists code,
       presentToken now token st = (Err code, st) /\
       (code = INVALID_APPROVAL_TOKEN \/ code = EXPIRED_APPROVAL_TOKEN)).
Proof.
  intros Hpristine st.
  assert (Hinv : approvals_inv st)
    by (apply approvals_inv_run, approvals_inv_pristine; exact Hpristine).
  split; [apply (inv_once st Hinv)|].
  split; [apply (inv_before_expiry st Hinv)|].
  split.
  - intros a st' Hok.
    pose proof (approvals_inv_step (Present now token) st Hinv) as Hinv'.
    cbn in Hinv'. rewrite Hok in Hinv'. cbn in Hinv'.
    unfold presentToken in Hok.
    destruct (List.find (has_token token) (approvals st)) as [a0|] eqn:Hfind;
      [|discriminate].
    destruct (find_has_token _ _ _ Hfind) as [Hin Htok].
    destruct (used_at a0) as [u|] eqn:Hu; [discriminate|].
    destruct (Z.ltb_spec now (expires_at a0)) as [Hlt|Hge]; [|discriminate].
    injection Hok as <- <-. cbn.
    assert (Hin' : In (set_used now a0) (stampUsed now token (approvals st)))
      by (apply In_stampUsed_intro; assumption).
    repeat split; try assumption.
    intros now'. exists EXPIRED_APPROVAL_TOKEN. split; [|right; reflexivity].
    pose proof (find_unique_token token _ (set_used now a0)
                  (inv_unique _ Hinv') Hin' Htok) as Hf.
    cbn [approvals] in Hf.
    unfold presentToken. cbn [approvals]. rewrite Hf. reflexivity.
  - intros a Hin Htok Hwhy. unfold presentToken.
    rewrite (find_unique_token token _ a (inv_unique st Hinv) Hin Htok).
    destruct (used_at a) as [u|] eqn:Hu.
    + exists EXPIRED_APPROVAL_TOKEN. split; [reflexivity | right; reflexivity].
    + destruct Hwhy as [Hf|Hexp]; [contradiction Hf; reflexivity|].
      destruct (Z.ltb_spec now (expires_at a)); [lia|].
      exists INVALID_APPROVAL_TOKEN. split; [reflexivity | left; reflexivity].
Qed.

Lemma C4_approval_token_single_use_witness :
  (submissions "tok-1"
     (run [Present 10 "tok-1"; Present 20 "tok-1"; Sweep 1500; Present 1600 "tok-1"]
          sample_table) <= 1)%nat /\
  submitted
    (run [Present 10 "tok-1"; Present 20 "tok-1"; Sweep 1500; Present 1600 "tok-1"]
         sample_table) = [("tok-1"%string, 10)].
Proof.
  split; [|vm_compute; reflexivity].
  apply (C4_approval_token_single_use sample_table
           [Present 10 "tok-1"; Present 20 "tok-1"; Sweep 1500; Present 1600 "tok-1"]
           "tok-1" 0).
  split; [|split; [|reflexivity]].
  - cbn. constructor; [intros [H|[]]; discriminate H|].
    constructor; [intros []|constructor].
  - repeat constructor.
Defined.

End ApprovalFacts.

(* ===================================================================== *)
(** * Further properties *)
(* ===================================================================== *)

(** ** RateLimiter: every run *)

Section RateLimiterRunFacts.
Import RateLimiter.

Lemma ascending_app_one (l : list Z) x :
  ascending l -> Forall (fun y => y <= x) l -> ascending (l ++ [x]).
Proof.
  induction l as [|a l IH]; simpl; intros Hasc Hall.
  - split; [constructor | exact I].
  - destruct Hasc as [Ha Hl]. inversion Hall as [|? ? Hax Hall']; subst.
    split; [|apply IH; assumption].
    apply Forall_app. split; [exact Ha|]. constructor; [exact Hax | constructor].
Qed.

Lemma prune_loop_ascending cutoff ts :
  ascending ts -> ascending (prune_loop cutoff ts).
Proof.
  induction ts as [|x rest IH]; simpl; intros Hasc; [exact I|].
  destruct Hasc as [Hx Hrest].
  destruct (x <? cutoff); [apply IH; exact Hrest | split; assumption].
Qed.

Lemma prune_loop_Forall (P : Z -> Prop) cutoff ts :
  Forall P ts -> Forall P (prune_loop cutoff ts).
Proof.
  induction 1 as [|x rest Hx Hrest IH]; simpl; [constructor|].
  destruct (x <? cutoff); [exact IH | constructor; assumption].
Qed.

(** On an ascending list the loop of [prune] keeps exactly the entries that
    are not older than the cutoff. *)
Lemma prune_loop_is_filter cutoff ts :
  ascending ts -> prune_loop cutoff ts = List.filter (fun x => cutoff <=? x) ts.
Proof.
  induction ts as [|x rest IH]; simpl; intros Hasc; [reflexivity|].
  destruct Hasc as [Hx Hrest].
  destruct (Z.ltb_spec x cutoff) as [Hlt|Hge].
  - destruct (Z.leb_spec cutoff x); [lia|]. apply IH. exact Hrest.
  - destruct (Z.leb_spec cutoff x); [|lia]. f_equal.
    symmetry. apply List.forallb_filter_id. apply List.forallb_forall.
    intros y Hy. rewrite List.Forall_forall in Hx. specialize (Hx y Hy).
    apply Z.leb_le. lia.
Qed.

Lemma run_inv_init cap : run_inv (init cap).
Proof.
  constructor; simpl.
  - exact I.
  - constructor.
  - exists []. split; [reflexivity | constructor].
Qed.

Lemma run_inv_push (s : sys) now :
  run_inv s -> clock s <= now ->
  run_inv (mkSys (push now (prune now (limiter s))) (sleepers s) now (granted s ++ [now])).
Proof.
  intros [Hasc Hpast (pre & Hhist & Hpre)] Hclk. constructor; cbn.
  - apply ascending_app_one; [apply prune_loop_ascending; exact Hasc|].
    apply prune_loop_Forall. eapply Forall_impl; [exact Hpast|]. cbn. intros; lia.
  - apply Forall_app. split; [|constructor; [lia | constructor]].
    apply prune_loop_Forall. eapply Forall_impl; [exact Hpast|]. cbn. intros; lia.
  - rewrite Hhist. apply (push_keeps_hist pre _ (clock s)); assumption.
Qed.

Lemma run_inv_step e s s' : run_inv s -> step e s = Some s' -> run_inv s'.
Proof.
  intros Hinv Hstep. destruct e as [now | now i]; unfold step in Hstep.
  - destruct (Z.ltb_spec now (clock s)) as [|Hclk]; [discriminate|].
    unfold acquire_begin in Hstep.
    set (r1 := prune now (limiter s)) in Hstep.
    assert (Hpush : run_inv (mkSys (push now r1) (sleepers s) now (granted s ++ [now])))
      by (apply run_inv_push; assumption).
    destruct (Z.of_nat (length (timestamps r1)) >=? maxRequests r1).
    + destruct (timestamps r1) as [|oldest rest] eqn:Hts.
      * injection Hstep as <-. exact Hpush.
      * destruct (oldest + windowMs - now + 50 >? 0).
        -- injection Hstep as <-.
           destruct Hinv as [Hasc Hpast (pre & Hhist & Hpre)]. constructor; cbn.
           ++ apply prune_loop_ascending. exact Hasc.
           ++ apply prune_loop_Forall. eapply Forall_impl; [exact Hpast|]. cbn. intros; lia.
           ++ rewrite Hhist. apply (keep_hist pre _ (clock s)); assumption.
        -- injection Hstep as <-. exact Hpush.
    + injection Hstep as <-. exact Hpush.
  - destruct (sleepers s !! i) as [due|]; [|discriminate].
    destruct (Z.ltb_spec now (clock s)) as [|Hclk]; [discriminate|].
    destruct (now <? due); [discriminate|]. cbn in Hstep. injection Hstep as <-.
    destruct (run_inv_push s now Hinv Hclk) as [H1 H2 H3].
    constructor; assumption.
Qed.

Lemma run_inv_run es : forall s s', run_inv s -> run es s = Some s' -> run_inv s'.
Proof.
  induction es as [|e es IH]; intros s s' Hinv Hrun; simpl in Hrun.
  - injection Hrun as <-. exact Hinv.
  - destruct (step e s) as [s1|] eqn:Hstep; [|discriminate].
    eapply IH; [|exact Hrun]. eapply run_inv_step; eassumption.
Qed.



(** X2: in every run of the limiter, the [pending] count read at any later
    time is exactly the number of requests granted in the trailing 60 s
    window that ends at that time. *)
Theorem X2_pending_counts_trailing_window (cap : Z) (es : list event) (s : sys)
    (now : Z) :
  run es (init cap) = Some s ->
  clock s <= now ->
  snd (pending now (limiter s)) = window_count now (granted s).
Proof.
  intros Hrun Hclk.
  pose proof (run_inv_run es _ _ (run_inv_init cap) Hrun)
    as [Hasc Hpast (pre & Hhist & Hpre)].
  unfold pending, window_count. cbn. rewrite Hhist, List.filter_app.
  rewrite (filter_none_old now pre) by (eapply Forall_lt_mono; [|exact Hpre]; lia).
  cbn. rewrite (prune_loop_is_filter _ _ Hasc). do 2 f_equal.
  apply List.filter_ext_in. intros x Hx. unfold in_window.
  rewrite List.Forall_forall in Hpast. specialize (Hpast x Hx).
  destruct (Z.leb_spec x now); [|lia]. rewrite andb_true_r. reflexivity.
Qed.

Lemma X2_pending_counts_trailing_window_witness :
  exists s, run [Call 0; Call 10; Call 20; Wake 60050 0] (init 2) = Some s /\
            snd (pending 60055 (limiter s)) = 1 /\
            window_count 60055 (granted s) = 1.
Proof.
  eexists. split; [vm_compute; reflexivity|].
  split; [|vm_compute; reflexivity].
  rewrite (X2_pending_counts_trailing_window 2 [Call 0; Call 10; Call 20; Wake 60050 0]);
    [vm_compute; reflexivity | vm_compute; reflexivity | vm_compute; discriminate].
Defined.

End RateLimiterRunFacts.

(** ** The two caches: every interleaving *)

Section CacheRunFacts.
Import Trading.

Lemma cache_step_balance e w obs w' :
  cache_step e w = Some (obs, w') ->
  (portfolio_fetches w' + in_flight (portfolioPending (trading w)) =
   portfolio_fetches w + portfolio_settles [e] + in_flight (portfolioPending (trading w')))%nat /\
  (rates_fetches w' + in_flight (ratesPending (trading w)) =
   rates_fetches w + rates_settles [e] + in_flight (ratesPending (trading w')))%nat.
Proof.
  unfold portfolio_fetches, rates_fetches.
  destruct e as [t| |o| |h]; cbn.
  - destruct (t <? now w); [discriminate|]. intros [= <- <-]. cbn. lia.
  - unfold getCachedPortfolio_call.
    destruct (fresh _ _); [|destruct (portfolioPending (trading w)) eqn:Hp];
      intros [= <- <-]; cbn; rewrite ?Hp, ?filter_app_one; cbn; lia.
  - destruct (portfolioPending (trading w)) eqn:Hp; [|discriminate].
    intros [= <- <-]. unfold portfolio_settled. destruct o; cbn; lia.
  - unfold getCachedRates_call.
    destruct (fresh _ _); [|destruct (ratesPending (trading w)) eqn:Hp];
      intros [= <- <-]; cbn; rewrite ?Hp, ?filter_app_one; cbn; lia.
  - destruct (ratesPending (trading w)) eqn:Hp; [|discriminate].
    intros [= <- <-]. unfold rates_settled. destruct (fetchAllRates h); cbn; lia.
Qed.

(** X3: over every interleaving of callers, clock ticks and settlements,
    for each of the two caches the requests issued are the requests settled
    plus the one that may be in flight: a second request is never issued
    while one is in flight. *)
Theorem X3_one_request_in_flight_per_cache (es : list cache_event)
    (w w' : World) (obs : list cache_obs) :
  cache_run es w = Some (obs, w') ->
  (portfolio_fetches w' + in_flight (portfolioPending (trading w)) =
   portfolio_fetches w + portfolio_settles es + in_flight (portfolioPending (trading w')))%nat /\
  (rates_fetches w' + in_flight (ratesPending (trading w)) =
   rates_fetches w + rates_settles es + in_flight (ratesPending (trading w')))%nat.
Proof.
  revert w w' obs. induction es as [|e es IH]; intros w w' obs Hrun; simpl in Hrun.
  - injection Hrun as <- <-. cbn. lia.
  - destruct (cache_step e w) as [[o1 w1]|] eqn:Hstep; [|discriminate].
    destruct (cache_run es w1) as [[o2 w2]|] eqn:Hrest; [|discriminate].
    injection Hrun as <- <-.
    destruct (cache_step_balance _ _ _ _ Hstep) as [Hp Hr].
    destruct (IH _ _ _ Hrest) as [Hp' Hr'].
    unfold portfolio_settles, rates_settles in *. cbn [List.filter] in *.
    destruct e; cbn [length] in *; lia.
Qed.

Lemma X3_one_request_in_flight_per_cache_witness :
  exists obs w',
    cache_run [CallPortfolio; CallRates; CallPortfolio;
               SettlePortfolio (Err RATE_LIMITED); CallPortfolio; CallRates]
              (Scenario.world0 Scenario.risk_normal) = Some (obs, w') /\
    portfolio_fetches w' = 2%nat /\ rates_fetches w' = 1%nat.
Proof.
  eexists _, _. split; [vm_compute; reflexivity|].
  edestruct (X3_one_request_in_flight_per_cache
               [CallPortfolio; CallRates; CallPortfolio;
                SettlePortfolio (Err RATE_LIMITED); CallPortfolio; CallRates]
               (Scenario.world0 Scenario.risk_normal)) as [Hp Hr].
  - vm_compute. reflexivity.
  - vm_compute in Hp, Hr. vm_compute. split; lia.
Defined.

End CacheRunFacts.

(** ** Symbol matching ([normalizeSymbol], [symbolMatches]) *)

Section SymbolMatchFacts.
Import JsString Trading.

Lemma truthy_true s : truthy s = true <-> s <> EmptyString.
Proof.
  unfold truthy. destruct (String.eqb_spec s EmptyString); cbn; split; congruence.
Qed.

Lemma symbolMatches_spec a b :
  symbolMatches a b = true <->
  a <> EmptyString /\ b <> EmptyString /\
  normalizeSymbol (toUpperCase (trim a)) = normalizeSymbol (toUpperCase (trim b)).
Proof.
  unfold symbolMatches.
  destruct (truthy a) eqn:Ha; cbn.
  2:{ split; [discriminate|]. intros (H & _). apply truthy_true in H. congruence. }
  destruct (truthy b) eqn:Hb; cbn.
  2:{ split; [discriminate|]. intros (_ & H & _). apply truthy_true in H. congruence. }
  apply truthy_true in Ha, Hb.
  destruct (String.eqb_spec (toUpperCase (trim a)) (toUpperCase (trim b))) as [Heq|Hne].
  - rewrite Heq. split; auto.
  - destruct (String.eqb_spec (normalizeSymbol (toUpperCase (trim a)))
                              (normalizeSymbol (toUpperCase (trim b)))); split;
      try discriminate; auto.
    intros (_ & _ & H). contradiction.
Qed.

(** X4: [symbolMatches] is an equivalence on non-empty strings (reflexive,
    symmetric, transitive), and the empty string matches nothing. *)
Theorem X4_symbolMatches_is_an_equivalence (a b c : string) :
  symbolMatches a b = symbolMatches b a /\
  (symbolMatches a b = true -> symbolMatches b c = true -> symbolMatches a c = true) /\
  (a <> EmptyString -> symbolMatches a a = true) /\
  symbolMatches EmptyString b = false /\ symbolMatches a EmptyString = false.
Proof.
  split; [|split; [|split; [|split]]].
  - destruct (symbolMatches a b) eqn:H1, (symbolMatches b a) eqn:H2; try reflexivity.
    + apply symbolMatches_spec in H1 as (Ha & Hb & Hn).
      assert (symbolMatches b a = true) by (apply symbolMatches_spec; auto).
      congruence.
    + apply symbolMatches_spec in H2 as (Hb & Ha & Hn).
      assert (symbolMatches a b = true) by (apply symbolMatches_spec; auto).
      congruence.
  - intros H1 H2. apply symbolMatches_spec in H1 as (Ha & Hb & Hn1).
    apply symbolMatches_spec in H2 as (_ & Hc & Hn2).
    apply symbolMatches_spec. repeat split; try assumption. congruence.
  - intros Ha. apply symbolMatches_spec. auto.
  - reflexivity.
  - unfold symbolMatches. cbn. rewrite orb_true_r. reflexivity.
Qed.

Lemma X4_symbolMatches_is_an_equivalence_witness :
  symbolMatches "btc/usd" "BTC" = true.
Proof.
  destruct (X4_symbolMatches_is_an_equivalence "btc/usd" " BTCUSD" "BTC") as (_ & H & _).
  apply H; vm_compute; reflexivity.
Defined.

Lemma append_cons c x y :
  String.append (String c x) y = String c (String.append x y).
Proof. reflexivity. Qed.

Lemma append_nil y : String.append EmptyString y = y.
Proof. reflexivity. Qed.

Lemma trimEnd_keeps_tail x y :
  trimEnd y = y -> y <> EmptyString -> trimEnd (String.append x y) = String.append x y.
Proof.
  intros Hy Hne. induction x as [|c x IH]; [exact Hy|].
  rewrite append_cons. simpl. rewrite IH.
  destruct (String.append x y) eqn:E; [|reflexivity].
  exfalso. destruct x; [rewrite append_nil in E; contradiction
                       | rewrite append_cons in E; discriminate].
Qed.

Lemma toUpperCase_append x y :
  toUpperCase (String.append x y) = String.append (toUpperCase x) (toUpperCase y).
Proof.
  induction x as [|c x IH]; [reflexivity|].
  rewrite append_cons. cbn [toUpperCase]. rewrite IH. reflexivity.
Qed.

Lemma length_append x y :
  String.length (String.append x y) = (String.length x + String.length y)%nat.
Proof.
  induction x as [|c x IH]; [reflexivity|].
  rewrite append_cons. cbn [String.length]. rewrite IH. reflexivity.
Qed.

Lemma append_cancel_r p : forall x y,
  String.append x p = String.append y p -> x = y.
Proof.
  induction x as [|c x IH]; intros [|d y] H;
    rewrite ?append_cons, ?append_nil in H.
  - reflexivity.
  - exfalso. apply (f_equal String.length) in H. cbn [String.length] in H.
    rewrite length_append in H. lia.
  - exfalso. apply (f_equal String.length) in H. cbn [String.length] in H.
    rewrite length_append in H. lia.
  - injection H as -> H. f_equal. apply IH. exact H.
Qed.

Lemma eqb_append_r p x y :
  String.eqb (String.append x p) (String.append y p) = String.eqb x y.
Proof.
  destruct (String.eqb_spec x y) as [->|Hne].
  - apply String.eqb_refl.
  - apply String.eqb_neq. intros H. apply Hne. eapply append_cancel_r. exact H.
Qed.

Lemma endsWith_append p x : endsWith p (String.append x p) = true.
Proof.
  induction x as [|c x IH]; rewrite ?append_cons, ?append_nil.
  - destruct p; cbn [endsWith]; rewrite String.eqb_refl; reflexivity.
  - cbn [endsWith]. rewrite IH. destruct (String.eqb _ _); reflexivity.
Qed.

Lemma endsWith_shorter p : forall s,
  (String.length s < String.length p)%nat -> endsWith p s = false.
Proof.
  induction s as [|c s IH]; intros Hlen.
  - destruct p; [cbn in Hlen; lia | reflexivity].
  - cbn [endsWith].
    destruct (String.eqb_spec (String c s) p) as [E|_]; [rewrite E in Hlen; lia|].
    apply IH. cbn [String.length] in Hlen. lia.
Qed.

Lemma endsWith_append_both q p x :
  q <> EmptyString ->
  endsWith (String.append q p) (String.append x p) = endsWith q x.
Proof.
  intros Hq. induction x as [|c x IH].
  - rewrite append_nil, endsWith_shorter.
    + destruct q; [contradiction | reflexivity].
    + rewrite length_append. destruct q; [contradiction | cbn [String.length]; lia].
  - rewrite append_cons. cbn [endsWith]. rewrite <- append_cons.
    rewrite eqb_append_r, IH. reflexivity.
Qed.

Lemma substring_append_prefix x y :
  String.substring 0 (String.length x) (String.append x y) = x.
Proof.
  induction x as [|c x IH]; rewrite ?append_cons, ?append_nil.
  - destruct y; reflexivity.
  - cbn [String.length String.substring]. rewrite IH. reflexivity.
Qed.

Lemma slice_end_append x y :
  slice_end (String.length y) (String.append x y) = x.
Proof.
  unfold slice_end. rewrite length_append.
  replace (String.length x + String.length y - String.length y)%nat
    with (String.length x) by lia.
  apply substring_append_prefix.
Qed.

(** X5: for an upper-case base symbol that starts with a visible character
    and does not end in a slash, the pair notations BASE/USD and BASEUSD
    both normalize to the base, so they match each other. *)
Theorem X5_quote_suffix_variants_match (c : ascii) (rest : string) :
  is_space c = false ->
  toUpperCase (String c rest) = String c rest ->
  endsWith "/" (String c rest) = false ->
  normalizeSymbol (String.append (String c rest) "/USD") = String c rest /\
  normalizeSymbol (String.append (String c rest) "USD") = String c rest /\
  symbolMatches (String.append (String c rest) "/USD")
                (String.append (String c rest) "USD") = true.
Proof.
  intros Hc Hup Hslash. set (base := String c rest) in *.
  assert (Htrim : forall suffix, trimEnd suffix = suffix -> suffix <> EmptyString ->
                                 trim (String.append base suffix) = String.append base suffix).
  { intros suffix H1 H2. unfold trim.
    replace (trimStart (String.append base suffix)) with (String.append base suffix)
      by (unfold base; rewrite append_cons; cbn [trimStart]; rewrite Hc; reflexivity).
    apply trimEnd_keeps_tail; assumption. }
  assert (Hnorm : forall suffix, trimEnd suffix = suffix -> suffix <> EmptyString ->
                                 toUpperCase suffix = suffix ->
            toUpperCase (trim (String.append base suffix)) = String.append base suffix).
  { intros suffix H1 H2 H3. rewrite (Htrim suffix H1 H2), toUpperCase_append, Hup, H3.
    reflexivity. }
  assert (H1 : normalizeSymbol (String.append base "/USD") = base).
  { unfold normalizeSymbol.
    rewrite (Hnorm "/USD"%string) by (try reflexivity; discriminate).
    rewrite endsWith_append. apply (slice_end_append base "/USD"). }
  assert (H2 : normalizeSymbol (String.append base "USD") = base).
  { unfold normalizeSymbol.
    rewrite (Hnorm "USD"%string) by (try reflexivity; discriminate).
    change "/USD"%string with (String.append "/" "USD").
    rewrite endsWith_append_both by discriminate. rewrite Hslash.
    rewrite endsWith_append.
    replace (Nat.ltb 3 (String.length (String.append base "USD"))) with true.
    - apply (slice_end_append base "USD").
    - symmetry. apply Nat.ltb_lt. rewrite length_append. unfold base.
      cbn [String.length]. lia. }
  split; [exact H1|]. split; [exact H2|].
  apply symbolMatches_spec.
  split; [unfold base; discriminate|]. split; [unfold base; discriminate|].
  rewrite (Hnorm "/USD"%string) by (try reflexivity; discriminate).
  rewrite (Hnorm "USD"%string) by (try reflexivity; discriminate).
  rewrite H1, H2. reflexivity.
Qed.

Lemma X5_quote_suffix_variants_match_witness :
  symbolMatches "ETH/USD" "ETHUSD" = true.
Proof.
  apply (X5_quote_suffix_variants_match "E" "TH"); reflexivity.
Defined.

End SymbolMatchFacts.

(** ** Raw positions ([dedupePositions], [collectPositions]) *)

Section DedupeFacts.
Import Trading.

Lemma existsb_eqb_In (id : Z) seen : existsb (Z.eqb id) seen = true <-> In id seen.
Proof.
  rewrite existsb_exists. split.
  - intros (x & Hx & E). apply Z.eqb_eq in E. subst. exact Hx.
  - intros H. exists id. split; [exact H | apply Z.eqb_refl].
Qed.

Lemma dedupe_from_step seen pos rest :
  dedupe_from seen (pos :: rest) =
  match trackedId pos with
  | None => pos :: dedupe_from seen rest
  | Some id => if existsb (Z.eqb id) seen then dedupe_from seen rest
               else pos :: dedupe_from (id :: seen) rest
  end.
Proof.
  cbn [dedupe_from]. unfold trackedId.
  destruct (getPositionId pos) as [id|]; [|reflexivity].
  destruct (id =? 0); reflexivity.
Qed.

Lemma dedupe_from_subset seen l p : In p (dedupe_from seen l) -> In p l.
Proof.
  revert seen. induction l as [|pos rest IH]; intros seen H; [exact H|].
  rewrite dedupe_from_step in H.
  destruct (trackedId pos) as [id|].
  - destruct (existsb (Z.eqb id) seen).
    + right. eapply IH. exact H.
    + destruct H as [->|H]; [left; reflexivity | right; eapply IH; exact H].
  - destruct H as [->|H]; [left; reflexivity | right; eapply IH; exact H].
Qed.

Lemma trackedIds_cons pos l :
  trackedIds (pos :: l) =
  match trackedId pos with Some id => id :: trackedIds l | None => trackedIds l end.
Proof. reflexivity. Qed.

Lemma dedupe_from_ids seen l :
  List.NoDup (trackedIds (dedupe_from seen l)) /\
  (forall id, In id (trackedIds (dedupe_from seen l)) -> ~ In id seen).
Proof.
  revert seen. induction l as [|pos rest IH]; intros seen.
  - split; [constructor | intros id []].
  - rewrite dedupe_from_step.
    destruct (trackedId pos) as [id|] eqn:Hid.
    + destruct (existsb (Z.eqb id) seen) eqn:Hseen; [apply IH|].
      destruct (IH (id :: seen)) as (Hnd & Hfresh).
      rewrite trackedIds_cons, Hid.
      split.
      * constructor; [|exact Hnd].
        intros Hin. apply (Hfresh id Hin). left. reflexivity.
      * intros i [<-|Hin].
        -- intros Hin. apply existsb_eqb_In in Hin. congruence.
        -- intros Hs. apply (Hfresh i Hin). right. exact Hs.
    + destruct (IH seen) as (Hnd & Hfresh).
      rewrite trackedIds_cons, Hid. split; assumption.
Qed.

Lemma dedupe_from_untracked seen l p :
  In p l -> trackedId p = None -> In p (dedupe_from seen l).
Proof.
  revert seen. induction l as [|pos rest IH]; intros seen Hin Hp; [exact Hin|].
  rewrite dedupe_from_step. destruct Hin as [->|Hin].
  - rewrite Hp. left. reflexivity.
  - destruct (trackedId pos) as [id|].
    + destruct (existsb (Z.eqb id) seen); [|right]; apply IH; assumption.
    + right. apply IH; assumption.
Qed.

Lemma dedupe_from_represents seen l p id :
  In p l -> trackedId p = Some id ->
  In id seen \/ exists q, In q (dedupe_from seen l) /\ trackedId q = Some id.
Proof.
  revert seen. induction l as [|pos rest IH]; intros seen Hin Hp; [destruct Hin|].
  rewrite dedupe_from_step. destruct Hin as [->|Hin].
  - rewrite Hp. destruct (existsb (Z.eqb id) seen) eqn:Hseen.
    + left. apply existsb_eqb_In. exact Hseen.
    + right. exists p. split; [left; reflexivity | exact Hp].
  - destruct (trackedId pos) as [i|] eqn:Hi.
    + destruct (existsb (Z.eqb i) seen) eqn:Hseen; [apply IH; assumption|].
      destruct (IH (i :: seen) Hin Hp) as [[<-|Hs]|(q & Hq & Hqid)].
      * right. exists pos. split; [left; reflexivity | exact Hi].
      * left. exact Hs.
      * right. exists q. split; [right; exact Hq | exact Hqid].
    + destruct (IH seen Hin Hp) as [Hs|(q & Hq & Hqid)]; [left; exact Hs|].
      right. exists q. split; [right; exact Hq | exact Hqid].
Qed.

Lemma dedupe_from_idem seen l :
  dedupe_from seen (dedupe_from seen l) = dedupe_from seen l.
Proof.
  revert seen. induction l as [|pos rest IH]; intros seen; [reflexivity|].
  rewrite dedupe_from_step.
  destruct (trackedId pos) as [id|] eqn:Hid.
  - destruct (existsb (Z.eqb id) seen) eqn:Hseen; [apply IH|].
    rewrite dedupe_from_step, Hid, Hseen, IH. reflexivity.
  - rewrite dedupe_from_step, Hid, IH. reflexivity.
Qed.

Lemma dedupe_from_app seen a b :
  exists seen', dedupe_from seen (a ++ b) = dedupe_from seen a ++ dedupe_from seen' b.
Proof.
  revert seen. induction a as [|pos rest IH]; intros seen.
  - exists seen. reflexivity.
  - rewrite <- app_comm_cons, !dedupe_from_step.
    destruct (trackedId pos) as [id|].
    + destruct (existsb (Z.eqb id) seen).
      * apply IH.
      * destruct (IH (id :: seen)) as (s' & ->). exists s'. reflexivity.
    + destruct (IH seen) as (s' & ->). exists s'. reflexivity.
Qed.

(** X6: [dedupePositions] keeps a sublist of its input in which no non-zero
    position id occurs twice; every position without such an id is kept,
    every id of the input is still represented, and deduplicating twice
    changes nothing. *)
Theorem X6_dedupePositions_unique_ids (l : list EtoroPortfolioPosition) :
  List.NoDup (trackedIds (dedupePositions l)) /\
  (forall p, In p (dedupePositions l) -> In p l) /\
  (forall p, In p l -> trackedId p = None -> In p (dedupePositions l)) /\
  (forall p id, In p l -> trackedId p = Some id ->
                exists q, In q (dedupePositions l) /\ trackedId q = Some id) /\
  dedupePositions (dedupePositions l) = dedupePositions l.
Proof.
  unfold dedupePositions. split; [|split; [|split; [|split]]].
  - apply dedupe_from_ids.
  - intros p. apply dedupe_from_subset.
  - intros p. apply dedupe_from_untracked.
  - intros p id Hin Hp.
    destruct (dedupe_from_represents [] l p id Hin Hp) as [[]|H]. exact H.
  - apply dedupe_from_idem.
Qed.

Lemma collect_fold ms : forall own,
  fold_left (fun acc mirror =>
               match mirror_positions mirror with
               | Some (p :: ps) => acc ++ (p :: ps)
               | _ => acc
               end) ms own =
  own ++ flat_map (fun mirror => nullish (mirror_positions mirror) []) ms.
Proof.
  induction ms as [|m ms IH]; intros own; cbn [fold_left flat_map].
  - rewrite app_nil_r. reflexivity.
  - rewrite IH. destruct (mirror_positions m) as [[|p ps]|]; cbn [nullish].
    + reflexivity.
    + rewrite <- app_assoc. reflexivity.
    + reflexivity.
Qed.

Lemma collectPositions_eq response :
  collectPositions response =
  dedupePositions (ownPositions response ++ mirroredPositions response).
Proof.
  unfold collectPositions, ownPositions, mirroredPositions.
  rewrite collect_fold. destruct (clientPortfolio response); reflexivity.
Qed.

(** X7: [collectPositions] lists the account's own positions first,
    deduplicated exactly as [getPositions] sees them, followed only by
    positions of mirrors; so a mirrored position never displaces an own
    position with the same id, and no id occurs twice overall. *)
Theorem X7_collectPositions_own_first (response : EtoroPortfolioResponse) :
  exists mirrored,
    collectPositions response = dedupePositions (ownPositions response) ++ mirrored /\
    (forall q, In q mirrored -> In q (mirroredPositions response)) /\
    List.NoDup (trackedIds (collectPositions response)).
Proof.
  rewrite collectPositions_eq. unfold dedupePositions.
  destruct (dedupe_from_app [] (ownPositions response) (mirroredPositions response))
    as (seen' & E).
  exists (dedupe_from seen' (mirroredPositions response)).
  split; [exact E|]. split.
  - intros q. apply dedupe_from_subset.
  - apply dedupe_from_ids.
Qed.

End DedupeFacts.

(** ** Parsed positions ([parsePosition], [getPositions], [getPosition]) *)

Section PositionFacts.
Import JsString Trading TradingReads.
Local Open Scope Q_scope.

Lemma Qtruthy_false q : Qtruthy q = false -> q == 0.
Proof.
  unfold Qtruthy. intros H. apply negb_false_iff in H.
  apply Qeq_bool_iff in H. exact H.
Qed.




Lemma parsePosition_id pos meta rate :
  position_id (parsePosition pos meta rate) = trackedId pos.
Proof. reflexivity. Qed.

Lemma parsed_ids (f : EtoroPortfolioPosition -> Position) raws :
  (forall pos, position_id (f pos) = trackedId pos) ->
  omap position_id (map f raws) = trackedIds raws.
Proof.
  intros Hf. induction raws as [|pos rest IH]; [reflexivity|].
  rewrite trackedIds_cons, <- IH. cbn [map].
  change (omap position_id (f pos :: map f rest))
    with (match position_id (f pos) with
          | Some i => i :: omap position_id (map f rest)
          | None => omap position_id (map f rest)
          end).
  rewrite Hf. reflexivity.
Qed.

(** X9: [getPositions] fails exactly when the portfolio cannot be read, and
    with the same error: failures of the metadata and of the rates are
    swallowed.  When it succeeds it returns one position per deduplicated
    raw position of the account, and no two of them share a position id. *)
Theorem X9_getPositions_best_effort (b : Broker) (w : World) :
  match fst (getCachedPortfolio b w) with
  | Err e => fst (getPositions b w) = Err e
  | Ok response =>
      exists ps, fst (getPositions b w) = Ok ps /\
                 length ps = length (dedupePositions (ownPositions response)) /\
                 map qty ps =
                   map (fun raw => nullish (units raw) 0)
                       (dedupePositions (ownPositions response)) /\
                 List.NoDup (omap position_id ps)
  end.
Proof.
  unfold getPositions, bind.
  destruct (getCachedPortfolio b w) as [[response|e] w1]; cbn [fst]; [|reflexivity].
  unfold try_catch.
  destruct (Instruments.resolveMetadata b _ w1) as [[meta|e1] w2];
    cbn [ret]; (destruct (getCachedRates b w2) as [[rates|e2] w3]); cbn [ret fst];
    (eexists; split; [reflexivity|]);
    (split; [apply length_map|]);
    (split; [rewrite map_map; reflexivity|]);
    (rewrite parsed_ids by (intros; apply parsePosition_id));
    apply dedupe_from_ids.
Qed.

End PositionFacts.

(** ** What the operations send *)

Section SendFacts.
Import JsString Instruments Trading TradingReads InstrumentReads.

Lemma sends_silent {A} P (m : M A) :
  (forall w, log (snd (m w)) = log w) -> sends P 0 m.
Proof.
  intros H w. exists []. rewrite app_nil_r. split; [apply H|]. split; [reflexivity|].
  cbn. lia.
Qed.

Lemma sends_ret {A} P (v : A) : sends P 0 (ret v).
Proof. apply sends_silent. reflexivity. Qed.

Lemma sends_throw {A} P e : sends P 0 (@throw A e).
Proof. apply sends_silent. reflexivity. Qed.

Lemma sends_get_world P : sends P 0 get_world.
Proof. apply sends_silent. reflexivity. Qed.

Lemma sends_weaken {A} (P Q : Request -> bool) n n' (m : M A) :
  (forall r, P r = true -> Q r = true) -> (n <= n')%nat ->
  sends P n m -> sends Q n' m.
Proof.
  intros HPQ Hn Hm w. destruct (Hm w) as (extra & Hlog & HP & Hlen).
  exists extra. split; [exact Hlog|]. split; [|lia].
  rewrite forallb_forall in *. auto.
Qed.

Lemma sends_bind {A B} P n1 n2 (m : M A) (k : A -> M B) :
  sends P n1 m -> (forall v, sends P n2 (k v)) -> sends P (n1 + n2) (bind m k).
Proof.
  intros Hm Hk w. unfold bind.
  destruct (Hm w) as (e1 & Hlog1 & HP1 & Hlen1).
  destruct (m w) as [[v|e] w1]; cbn [snd] in *.
  - destruct (Hk v w1) as (e2 & Hlog2 & HP2 & Hlen2).
    exists (e1 ++ e2). rewrite Hlog2, Hlog1, <- app_assoc.
    split; [reflexivity|]. rewrite forallb_app, HP1, HP2, length_app.
    split; [reflexivity | lia].
  - exists e1. split; [exact Hlog1|]. split; [exact HP1 | lia].
Qed.

Lemma sends_try_catch {A} P n1 n2 (m : M A) (h : ErrorCode -> M A) :
  sends P n1 m -> (forall e, sends P n2 (h e)) -> sends P (n1 + n2) (try_catch m h).
Proof.
  intros Hm Hh w. unfold try_catch.
  destruct (Hm w) as (e1 & Hlog1 & HP1 & Hlen1).
  destruct (m w) as [[v|e] w1]; cbn [snd] in *.
  - exists e1. split; [exact Hlog1|]. split; [exact HP1 | lia].
  - destruct (Hh e w1) as (e2 & Hlog2 & HP2 & Hlen2).
    exists (e1 ++ e2). rewrite Hlog2, Hlog1, <- app_assoc.
    split; [reflexivity|]. rewrite forallb_app, HP1, HP2, length_app.
    split; [reflexivity | lia].
Qed.

Lemma sends_request {A} (P : Request -> bool) b r (answer : result A) :
  P r = true -> sends P 1 (request b r answer).
Proof.
  intros HP w. exists [r]. cbn. rewrite HP. split; [reflexivity|]. split; [reflexivity|cbn; lia].
Qed.

Lemma sends_searchExactSymbol b candidate :
  sends is_search_request 1 (searchExactSymbol b candidate).
Proof.
  unfold searchExactSymbol.
  apply (sends_bind _ 1 0); [apply sends_request; reflexivity|].
  intros v. apply sends_ret.
Qed.

Lemma sends_storeMapping P candidate i sym : sends P 0 (storeMapping candidate i sym).
Proof. apply sends_silent. reflexivity. Qed.

Lemma sends_tryCandidates b candidates :
  sends is_search_request (length candidates) (tryCandidates b candidates).
Proof.
  induction candidates as [|c rest IH]; cbn [tryCandidates length].
  - apply sends_throw.
  - apply (sends_bind _ 1 (length rest)); [apply sends_searchExactSymbol|].
    intros [[i sym]|]; [|exact IH].
    eapply sends_weaken; [intros r H; exact H | |].
    2:{ apply (sends_bind _ 0 0); [apply sends_storeMapping|]. intros _. apply sends_ret. }
    lia.
Qed.

Lemma set_add_length x l : (length (set_add x l) <= S (length l))%nat.
Proof.
  induction l as [|y rest IH]; cbn [set_add length]; [lia|].
  destruct (String.eqb x y); cbn [length]; lia.
Qed.

Lemma buildSymbolCandidates_length symbol :
  (1 <= length (buildSymbolCandidates symbol) <= 3)%nat.
Proof.
  unfold buildSymbolCandidates.
  assert (H1 : forall x l, (1 <= length l -> 1 <= length (set_add x l))%nat).
  { intros x [|y rest]; cbn [set_add length]; [lia|].
    destruct (String.eqb x y); cbn [length]; lia. }
  destruct (includes "/" symbol); [|destruct (endsWith "USD" symbol)].
  - split.
    + apply H1, H1. cbn. lia.
    + etransitivity; [apply set_add_length|].
      apply le_n_S. etransitivity; [apply set_add_length|]. cbn. lia.
  - split.
    + apply H1, H1. cbn. lia.
    + etransitivity; [apply set_add_length|].
      apply le_n_S. etransitivity; [apply set_add_length|]. cbn. lia.
  - cbn. lia.
Qed.

Lemma sends_resolveInstrumentId b symbol :
  sends is_search_request 3 (resolveInstrumentId b symbol).
Proof.
  unfold resolveInstrumentId.
  assert (Hloop : sends is_search_request 3
            (tryCandidates b (buildSymbolCandidates (toUpperCase (trim symbol))))).
  { eapply sends_weaken; [intros r H; exact H | | apply sends_tryCandidates].
    apply buildSymbolCandidates_length. }
  apply (sends_bind _ 0 3); [apply sends_get_world|].
  intros w. destruct (symbolToId (instruments w) !! _) as [cached|]; [|exact Hloop].
  destruct (isFresh _ _); [|exact Hloop].
  eapply sends_weaken; [intros r H; exact H | | apply sends_ret]. lia.
Qed.

Lemma sends_resolveMetadata b ids :
  sends is_instruments_request 1 (resolveMetadata b ids).
Proof.
  intros w. unfold resolveMetadata, bind, get_world.
  match goal with |- context [if ?c then _ else _] => destruct c end.
  - unfold metadataFetchStart.
    destruct (metadataPending (instruments w)); cbn.
    + exists []. rewrite app_nil_r. split; [reflexivity|]. split; [reflexivity|cbn; lia].
    + exists [GET_instruments]. split; [reflexivity|]. split; [reflexivity|cbn; lia].
  - exists []. rewrite app_nil_r. split; [reflexivity|]. split; [reflexivity|cbn; lia].
Qed.

Lemma sends_getCachedPortfolio b :
  sends is_portfolio_request 1 (getCachedPortfolio b).
Proof.
  intros w. unfold getCachedPortfolio, getCachedPortfolio_call.
  destruct (fresh _ _).
  - exists []. rewrite app_nil_r. split; [reflexivity|]. split; [reflexivity|cbn; lia].
  - destruct (portfolioPending (trading w)); cbn.
    + exists []. rewrite app_nil_r.
      split; [destruct (on_portfolio b); reflexivity|]. split; [reflexivity|cbn; lia].
    + exists [GET_portfolio (env w)].
      split; [destruct (on_portfolio b); reflexivity|]. split; [reflexivity|cbn; lia].
Qed.

Lemma sends_getCachedRates b :
  sends is_rates_request 1 (getCachedRates b).
Proof.
  intros w. unfold getCachedRates, getCachedRates_call.
  destruct (fresh _ _).
  - exists []. rewrite app_nil_r. split; [reflexivity|]. split; [reflexivity|cbn; lia].
  - destruct (ratesPending (trading w)); cbn.
    + exists []. rewrite app_nil_r. split; [reflexivity|]. split; [reflexivity|cbn; lia].
    + exists [GET_rates]. split; [reflexivity|]. split; [reflexivity|cbn; lia].
Qed.

Local Ltac read_only :=
  eapply sends_weaken; [| |eassumption || apply sends_resolveInstrumentId
                          || apply sends_resolveMetadata
                          || apply sends_getCachedPortfolio
                          || apply sends_getCachedRates
                          || apply sends_ret];
  [intros [] H; first [reflexivity | cbn in H; discriminate H | exact H] | lia].

Lemma sends_getPositions b : sends is_read_request 3 (getPositions b).
Proof.
  unfold getPositions.
  apply (sends_bind _ 1 2); [read_only|]. intros response.
  apply (sends_bind _ 1 1).
  { apply (sends_try_catch _ 1 0); [read_only|]. intros _. apply sends_ret. }
  intros meta. apply (sends_bind _ 1 0).
  { apply (sends_try_catch _ 1 0); [read_only|]. intros _. apply sends_ret. }
  intros rates. apply sends_ret.
Qed.

Lemma sends_getPosition b sym : sends is_read_request 3 (getPosition b sym).
Proof.
  unfold getPosition. apply (sends_bind _ 3 0); [apply sends_getPositions|].
  intros ps. apply sends_ret.
Qed.

Lemma sends_getAsset b sym : sends is_read_request 4 (getAsset b sym).
Proof.
  unfold getAsset. apply (sends_try_catch _ 4 0).
  - apply (sends_bind _ 3 1); [read_only|]. intros i.
    apply (sends_bind _ 1 0); [read_only|]. intros meta. apply sends_ret.
  - intros []; (apply sends_ret || apply sends_throw).
Qed.

Lemma sends_resolveSymbol b i : sends is_read_request 1 (resolveSymbol b i).
Proof.
  unfold resolveSymbol. apply (sends_bind _ 0 1); [apply sends_get_world|].
  intros w. destruct (getCachedMeta _ _ _); [read_only|].
  apply (sends_bind _ 1 0); [read_only|]. intros meta.
  destruct (meta !! i); apply sends_ret.
Qed.

Lemma sends_getAccount b : sends is_read_request 4 (getAccount b).
Proof.
  unfold getAccount. apply (sends_bind _ 0 4); [apply sends_get_world|].
  intros w. apply (sends_try_catch _ 3 1).
  - apply (sends_bind _ 1 2); [read_only|]. intros response.
    apply (sends_bind _ 1 1).
    { apply (sends_try_catch _ 1 0); [read_only|]. intros _. apply sends_ret. }
    intros meta. apply (sends_bind _ 1 0).
    { apply (sends_try_catch _ 1 0); [read_only|]. intros _. apply sends_ret. }
    intros rates. apply sends_ret.
  - intros e. apply (sends_bind _ 1 0); [apply sends_request; reflexivity|].
    intros response. apply sends_ret.
Qed.

(** X10: the read operations never trade.  Whatever the broker answers and
    whatever the caches hold, [getPositions], [getPosition], [getAccount],
    [getAsset] and [resolveSymbol] only append requests to the transport
    log, none of them an order, and at most 3, 3, 4, 4 and 1 of them. *)
Theorem X10_reads_never_send_orders (b : Broker) (sym : string) (instrumentId : Z) :
  sends is_read_request 3 (getPositions b) /\
  sends is_read_request 3 (getPosition b sym) /\
  sends is_read_request 4 (getAccount b) /\
  sends is_read_request 4 (getAsset b sym) /\
  sends is_read_request 1 (resolveSymbol b instrumentId).
Proof.
  split; [apply sends_getPositions|]. split; [apply sends_getPosition|].
  split; [apply sends_getAccount|]. split; [apply sends_getAsset|].
  apply sends_resolveSymbol.
Qed.

Lemma sends_resolveUnits b iid params :
  sends is_rates_request 1 (resolveUnits b iid params).
Proof.
  unfold resolveUnits. destruct (op_qty params).
  { eapply sends_weaken; [intros r H; exact H | | apply sends_ret]. lia. }
  destruct (op_notional params).
  2:{ eapply sends_weaken; [intros r H; exact H | | apply sends_throw]. lia. }
  apply (sends_bind _ 1 0); [apply sends_getCachedRates|].
  intros rateMap. destruct (referencePrice _ _); [|apply sends_throw].
  destruct (_ || _)%bool; [apply sends_throw | apply sends_ret].
Qed.

Local Ltac split_reads H :=
  let extra := fresh "extra" in
  let Hlog := fresh "Hlog" in
  let HP := fresh "HP" in
  let Hlen := fresh "Hlen" in
  destruct H as (extra & Hlog & HP & Hlen).

Lemma forallb_weaken (P Q : Request -> bool) l :
  (forall r, P r = true -> Q r = true) -> forallb P l = true -> forallb Q l = true.
Proof. intros HPQ. rewrite !forallb_forall. auto. Qed.

Lemma search_is_read r : is_search_request r = true -> is_read_request r = true.
Proof. destruct r; cbn; congruence. Qed.

Lemma rates_is_read r : is_rates_request r = true -> is_read_request r = true.
Proof. destruct r; cbn; congruence. Qed.

Lemma portfolio_is_read r : is_portfolio_request r = true -> is_read_request r = true.
Proof. destruct r; cbn; congruence. Qed.

Lemma instruments_is_read r : is_instruments_request r = true -> is_read_request r = true.
Proof. destruct r; cbn; congruence. Qed.

(** X11: [createOrder] sends at most one order, always as its last request
    and after at most 4 reads (3 symbol searches, 1 rates request).  If it
    fails before that point nothing is ordered; once the order is sent the
    call succeeds exactly when the broker accepts it, and otherwise fails
    with the broker's error. *)
Theorem X11_createOrder_orders_once_and_last (b : Broker) (params : OrderParams)
    (w : World) :
  exists reads,
    forallb is_read_request reads = true /\ (length reads <= 4)%nat /\
    let out := createOrder b params w in
    (log (snd out) = log w ++ reads /\ is_ok (fst out) = false) \/
    (exists body,
       log (snd out) = log w ++ reads ++ [POST_market_open_by_units (env w) body] /\
       match on_open_order b body with
       | Ok _ => is_ok (fst out) = true
       | Err e => fst out = Err e
       end).
Proof.
  cbv zeta. unfold createOrder.
  destruct (negb (String.eqb (op_type params) "market")).
  { exists []. split; [reflexivity|]. split; [cbn; lia|].
    left. cbn. rewrite app_nil_r. split; reflexivity. }
  unfold bind, get_world.
  pose proof (sends_resolveInstrumentId b (op_symbol params) w) as H1. split_reads H1.
  destruct (resolveInstrumentId b (op_symbol params) w) as [[iid|e] w1]; cbn [snd] in *.
  2:{ exists extra. split; [eapply forallb_weaken; [apply search_is_read|exact HP]|].
      split; [lia|]. left. split; [exact Hlog | reflexivity]. }
  pose proof (sends_resolveUnits b iid params w1) as H2. split_reads H2.
  destruct (resolveUnits b iid params w1) as [[u|e] w2]; cbn [snd] in *.
  2:{ exists (extra ++ extra0). rewrite forallb_app, length_app.
      rewrite (forallb_weaken _ _ _ search_is_read HP),
              (forallb_weaken _ _ _ rates_is_read HP0).
      split; [reflexivity|]. split; [lia|]. left.
      rewrite Hlog0, Hlog, <- app_assoc. split; reflexivity. }
  exists (extra ++ extra0). rewrite forallb_app, length_app.
  rewrite (forallb_weaken _ _ _ search_is_read HP),
          (forallb_weaken _ _ _ rates_is_read HP0).
  split; [reflexivity|]. split; [lia|]. right.
  eexists. unfold request, ret. split.
  - destruct (on_open_order b _); cbn [snd log];
      rewrite Hlog0, Hlog, <- !app_assoc; reflexivity.
  - destruct (on_open_order b _); reflexivity.
Qed.

Lemma bind_eq {A B} (m : M A) (k : A -> M B) w :
  bind m k w = match m w with
               | (Ok v, w') => k v w'
               | (Err e, w') => (Err e, w')
               end.
Proof. reflexivity. Qed.

Lemma sends_closePosition_lookup b symbol rawPositions
    (meta : gmap Z CachedInstrument) found :
  sends is_search_request 3
    (match found with
     | Some p => ret (Some p)
     | None =>
         try_catch
           (targetInstrumentId <- resolveInstrumentId b symbol ;;
            match List.find (same_instrument targetInstrumentId) rawPositions with
            | Some fallback =>
                ret (Some (parsePosition fallback
                             (truthy_id (Some targetInstrumentId) ?. (fun i => meta !! i))
                             None))
            | None => ret None
            end)
           (fun _ => ret None)
     end)%world.
Proof.
  destruct found.
  { eapply sends_weaken; [intros r H; exact H | | apply sends_ret]. lia. }
  apply (sends_try_catch _ 3 0); [|intros _; apply sends_ret].
  apply (sends_bind _ 3 0); [apply sends_resolveInstrumentId|].
  intros t. destruct (List.find _ _); apply sends_ret.
Qed.

(** X12: [closePosition] sends at most one close request, always as its
    last request and after at most 5 reads, and never an open order.  If it
    fails before that point nothing is sent to the trading endpoints; once
    the close request is sent the call succeeds exactly when the broker
    accepts it, and otherwise fails with the broker's error. *)
Theorem X12_closePosition_closes_once_and_last (b : Broker) (symbol : string)
    (qty percentage : option Q) (w : World) :
  exists reads,
    forallb is_read_request reads = true /\ (length reads <= 5)%nat /\
    let out := closePosition b symbol qty percentage w in
    (log (snd out) = log w ++ reads /\ is_ok (fst out) = false) \/
    (exists positionId body,
       log (snd out) =
         log w ++ reads ++ [POST_market_close_position (env w) positionId body] /\
       match on_close_position b positionId body with
       | Ok _ => is_ok (fst out) = true
       | Err e => fst out = Err e
       end).
Proof.
  cbv zeta. unfold closePosition.
  rewrite bind_eq. change (get_world w) with (Ok w, w). cbv beta iota.
  rewrite bind_eq.
  pose proof (sends_getCachedPortfolio b w) as H1. split_reads H1.
  destruct (getCachedPortfolio b w) as [[response|e] w1]; cbn [snd] in *.
  2:{ exists extra. split; [eapply forallb_weaken; [apply portfolio_is_read|exact HP]|].
      split; [lia|]. left. split; [exact Hlog | reflexivity]. }
  set (rawPositions := nullish (clientPortfolio response ?. positions) []).
  rewrite bind_eq.
  assert (H2 : sends is_instruments_request 1
                 (try_catch (resolveMetadata b (omap getInstrumentId rawPositions))
                            (fun _ => ret ∅))).
  { apply (sends_try_catch _ 1 0); [apply sends_resolveMetadata|].
    intros _. apply sends_ret. }
  specialize (H2 w1). split_reads H2.
  destruct (try_catch _ _ w1) as [[meta|e] w2]; cbn [snd] in *.
  2:{ exists (extra ++ extra0). rewrite forallb_app, length_app.
      rewrite (forallb_weaken _ _ _ portfolio_is_read HP),
              (forallb_weaken _ _ _ instruments_is_read HP0).
      split; [reflexivity|]. split; [lia|]. left.
      rewrite Hlog0, Hlog, <- app_assoc. split; reflexivity. }
  rewrite bind_eq.
  match goal with
  | |- context [match ?m w2 with _ => _ end] =>
      pose proof (sends_closePosition_lookup b symbol rawPositions meta
                    (List.find (fun pos =>
                       (symbolMatches (pos_symbol pos) symbol
                        || symbolMatches (asset_id_string pos) symbol)%bool)
                       (map (fun pos =>
                               parsePosition pos
                                 (truthy_id (getInstrumentId pos) ?. (fun i => meta !! i))
                                 None)
                            rawPositions)) w2) as H3;
      destruct (m w2) as [[position|e] w3]
  end; split_reads H3; cbn [snd] in *.
  all: exists (extra ++ extra0 ++ extra1); rewrite !forallb_app, !length_app;
    rewrite (forallb_weaken _ _ _ portfolio_is_read HP),
            (forallb_weaken _ _ _ instruments_is_read HP0),
            (forallb_weaken _ _ _ search_is_read HP1);
    (split; [reflexivity|]); (split; [lia|]).
  2:{ left. rewrite Hlog1, Hlog0, Hlog, <- !app_assoc. split; reflexivity. }
  destruct position as [position|].
  2:{ left. cbn. rewrite Hlog1, Hlog0, Hlog, <- !app_assoc. split; reflexivity. }
  destruct (position_id position) as [positionId|].
  2:{ left. cbn. rewrite Hlog1, Hlog0, Hlog, <- !app_assoc. split; reflexivity. }
  destruct (nullish (asset_id position) 0 =? 0)%Z.
  { left. cbn. rewrite Hlog1, Hlog0, Hlog, <- !app_assoc. split; reflexivity. }
  right. eexists _, _. unfold bind, get_world, request, ret. split.
  - destruct (on_close_position b _ _); cbn [snd log];
      rewrite Hlog1, Hlog0, Hlog, <- !app_assoc; reflexivity.
  - destruct (on_close_position b _ _); reflexivity.
Qed.

Lemma getCachedRates_never_fails b w :
  exists d w1, getCachedRates b w = (Ok d, w1).
Proof.
  unfold getCachedRates.
  destruct (getCachedRates_call w) as [[d|p] w0]; eexists _, _; reflexivity.
Qed.

(** X13: [resolveUnits] has two errors only.  INVALID_INPUT means that the
    order names neither a quantity nor a notional, and then nothing was
    sent and nothing changed; every other failure is PROVIDER_ERROR for a
    notional order without a usable price, so a transport failure of the
    rates request never surfaces under its own code. *)
Theorem X13_resolveUnits_error_codes (b : Broker) (instrumentId : Z)
    (params : OrderParams) (w w' : World) (e : ErrorCode) :
  resolveUnits b instrumentId params w = (Err e, w') ->
  op_qty params = None /\
  ((e = INVALID_INPUT /\ op_notional params = None /\ w' = w) \/
   (e = PROVIDER_ERROR /\ op_notional params <> None)).
Proof.
  unfold resolveUnits. destruct (op_qty params); [discriminate|].
  intros H. split; [reflexivity|].
  destruct (op_notional params) as [n|].
  - right. split; [|discriminate]. unfold bind in H.
    destruct (getCachedRates_never_fails b w) as (rateMap & w1 & E).
    rewrite E in H.
    destruct (referencePrice _ _); [destruct (_ || _)%bool|];
      unfold throw, ret in H; first [discriminate H | injection H as <- _; reflexivity].
  - left. unfold throw in H. injection H as <- <-. repeat split.
Qed.

Lemma X13_resolveUnits_error_codes_witness :
  exists w',
    resolveUnits MoreScenario.rate_limited_broker 999
      (Scenario.market_order "AAPL" None (Some 100%Q) buy)
      (Scenario.world0 Scenario.risk_normal) = (Err PROVIDER_ERROR, w') /\
    on_rates MoreScenario.rate_limited_broker = Err RATE_LIMITED.
Proof.
  eexists. split; [|reflexivity].
  assert (H : exists e w', resolveUnits MoreScenario.rate_limited_broker 999
                (Scenario.market_order "AAPL" None (Some 100%Q) buy)
                (Scenario.world0 Scenario.risk_normal) = (Err e, w')).
  { eexists _, _. vm_compute. reflexivity. }
  destruct H as (e & w' & H).
  destruct (X13_resolveUnits_error_codes _ _ _ _ _ _ H) as (_ & [(_ & Hn & _)|(He & _)]).
  - discriminate Hn.
  - vm_compute. reflexivity.
Defined.

Lemma rates_fold_keys (all : list EtoroRate) : forall l (acc : gmap Z EtoroRate),
  (forall r, In r l -> In r all) ->
  (forall i r, acc !! i = Some r ->
     nullish_opt (rate_instrumentId r) (rate_instrumentID r) = Some i /\ In r all) ->
  forall i r,
    fold_left (fun m rate =>
                 match nullish_opt (rate_instrumentId rate) (rate_instrumentID rate) with
                 | Some id => <[id := rate]> m
                 | None => m
                 end) l acc !! i = Some r ->
    nullish_opt (rate_instrumentId r) (rate_instrumentID r) = Some i /\ In r all.
Proof.
  induction l as [|rate rest IH]; intros acc Hsub Hacc i r; cbn [fold_left].
  - apply Hacc.
  - apply IH.
    + intros r' Hr'. apply Hsub. right. exact Hr'.
    + intros j r'.
      destruct (nullish_opt (rate_instrumentId rate) (rate_instrumentID rate))
        as [k|] eqn:Hk; [|apply Hacc].
      destruct (Z.eq_dec k j) as [->|Hne].
      * rewrite lookup_insert_eq. intros [= <-].
        split; [exact Hk | apply Hsub; left; reflexivity].
      * rewrite lookup_insert_ne by exact Hne. apply Hacc.
Qed.

(** X26: the rates map is keyed consistently.  [fetchAllRates] never fails
    (a failed request yields the empty map), and every rate it files under
    an instrument id is a rate of the response that names that very id. *)
Theorem X26_fetchAllRates_keyed_by_instrument (http : result EtoroRatesResponse) :
  exists m,
    fetchAllRates http = Ok m /\
    (forall e, http = Err e -> m = ∅) /\
    (forall i r, m !! i = Some r ->
       nullish_opt (rate_instrumentId r) (rate_instrumentID r) = Some i /\
       exists response, http = Ok response /\ In r (nullish (rates response) [])).
Proof.
  unfold fetchAllRates. eexists. split; [reflexivity|].
  destruct http as [response|e].
  - split; [discriminate|]. intros i r Hr.
    assert (Hkeys : nullish_opt (rate_instrumentId r) (rate_instrumentID r) = Some i /\
                    In r (nullish (rates response) [])).
    { eapply rates_fold_keys; [| |exact Hr].
      - intros r' H. exact H.
      - intros j r' H. rewrite lookup_empty in H. discriminate H. }
    destruct Hkeys as (Hk & Hin).
    split; [exact Hk|]. exists response. split; [reflexivity | exact Hin].
  - split; [reflexivity|]. intros i r Hr. rewrite lookup_empty in Hr. discriminate.
Qed.

(** X23: what a successful [createOrder] reports.  The returned order is
    built from the broker's answer to the one order that was sent: it
    carries the requested symbol in upper case and the requested side, and
    its quantity is the one the broker echoes, else the requested quantity,
    else 0; so a notional order whose answer carries no amount is reported
    with quantity 0, whatever amount was sent. *)
Theorem X23_createOrder_reported_order (b : Broker) (params : OrderParams)
    (w w' : World) (o : Order) :
  createOrder b params w = (Ok o, w') ->
  exists pre body response,
    log w' = pre ++ [POST_market_open_by_units (env w) body] /\
    on_open_order b body = Ok response /\
    IsBuy body = (match op_side params with buy => true | sell => false end) /\
    o = mapOpenOrder (now w') params (InstrumentID body) response /\
    order_symbol o = toUpperCase (op_symbol params) /\
    order_side o = op_side params /\
    (orderForOpen response ?. oo_amountInUnits = None ->
     order_qty o = nullish (op_qty params) 0%Q).
Proof.
  intros H. unfold createOrder in H.
  destruct (negb (String.eqb (op_type params) "market")); [discriminate H|].
  rewrite bind_eq in H. change (get_world w) with (Ok w, w) in H. cbv beta iota in H.
  rewrite bind_eq in H.
  destruct (resolveInstrumentId b (op_symbol params) w) as [[iid|e] w1]; [|discriminate H].
  rewrite bind_eq in H.
  destruct (resolveUnits b iid params w1) as [[u|e] w2]; [|discriminate H].
  rewrite bind_eq in H. unfold request in H.
  set (body := mkOpenOrderBody iid _ u) in H.
  destruct (on_open_order b body) as [response|e] eqn:Hresp; [|discriminate H].
  rewrite bind_eq in H. unfold get_world, ret in H. injection H as <- <-.
  exists (log w2), body, response. cbn [log now].
  split; [reflexivity|]. split; [exact Hresp|]. split; [reflexivity|].
  split; [reflexivity|]. split; [reflexivity|]. split; [reflexivity|].
  intros Hamount. unfold mapOpenOrder. cbn [order_qty]. rewrite Hamount. reflexivity.
Qed.

Lemma X23_createOrder_reported_order_witness :
  exists o w',
    createOrder Scenario.holding_broker
      (Scenario.market_order "AAPL" None (Some 100%Q) buy)
      (Scenario.world0 Scenario.risk_normal) = (Ok o, w') /\
    order_qty o = 0%Q /\ order_symbol o = "AAPL"%string.
Proof.
  assert (H : exists o w',
             createOrder Scenario.holding_broker
               (Scenario.market_order "AAPL" None (Some 100%Q) buy)
               (Scenario.world0 Scenario.risk_normal) = (Ok o, w')).
  { eexists _, _. vm_compute. reflexivity. }
  destruct H as (o & w' & H). exists o, w'. split; [exact H|].
  destruct (X23_createOrder_reported_order _ _ _ _ _ H)
    as (pre & body & response & _ & Hresp & _ & _ & Hsym & _ & Hqty).
  split; [|exact Hsym].
  apply Hqty. vm_compute in Hresp. injection Hresp as <-. reflexivity.
Defined.

(** X24: [getPosition] ignores the case of the requested symbol: two
    requests that differ only in case run identically, and a position that
    is returned bears the requested symbol up to case. *)
Theorem X24_getPosition_ignores_case (b : Broker) (s1 s2 : string) (w : World) :
  (toUpperCase s1 = toUpperCase s2 -> getPosition b s1 w = getPosition b s2 w) /\
  getPosition b (toUpperCase s1) w = getPosition b s1 w /\
  (forall p w', getPosition b s1 w = (Ok (Some p), w') ->
                toUpperCase (pos_symbol p) = toUpperCase s1).
Proof.
  unfold getPosition. split; [|split].
  - intros ->. reflexivity.
  - rewrite (toUpperCase_idem s1). reflexivity.
  - intros p w'. rewrite bind_eq.
    destruct (getPositions b w) as [[ps|e] w1]; [|discriminate].
    unfold ret. intros [= Hf <-].
    apply List.find_some in Hf as (_ & Hf). apply String.eqb_eq in Hf. exact Hf.
Qed.

Lemma X24_getPosition_ignores_case_witness :
  getPosition Scenario.holding_broker "aapl" (Scenario.world0 Scenario.risk_normal) =
  getPosition Scenario.holding_broker "AAPL" (Scenario.world0 Scenario.risk_normal).
Proof.
  destruct (X24_getPosition_ignores_case Scenario.holding_broker "aapl" "AAPL"
              (Scenario.world0 Scenario.risk_normal)) as (H & _).
  apply H. reflexivity.
Defined.

End SendFacts.

(** ** Cancelling orders ([cancelOrder], [cancelAllOrders]) *)

Section CancelFacts.
Import Cancel.

Lemma cancelOrder_spec cb env orderId log :
  exists extra,
    snd (cancelOrder cb env orderId log) = log ++ extra /\
    (1 <= length extra <= 2)%nat /\
    List.Forall (fun r => requestedId r = orderId) extra /\
    (if cancellable cb orderId
     then fst (cancelOrder cb env orderId log) = Ok tt
     else fst (cancelOrder cb env orderId log) = on_delete_close cb orderId /\
          is_ok (on_delete_close cb orderId) = false).
Proof.
  unfold cancelOrder, cancellable.
  destruct (on_delete_open cb orderId) as [[]|e]; cbn [is_ok orb fst snd].
  - eexists. split; [reflexivity|]. split; [cbn; lia|].
    split; [repeat constructor | reflexivity].
  - eexists. split; [reflexivity|]. split; [cbn; lia|].
    split; [repeat constructor|].
    destruct (on_delete_close cb orderId) as [[]|e']; cbn [is_ok]; auto.
Qed.

(** X14: [cancelAllOrders] cancels the listed orders in order, trying the
    open-order endpoint and then the close-order endpoint for each, and
    stops at the first order that neither endpoint accepts: it succeeds
    exactly when every order is accepted by one of the two, otherwise it
    fails with the close endpoint's error for the first order that is not,
    and the orders after that one are never requested. *)
Theorem X14_cancelAll_stops_at_first_failure (cb : CancelBroker)
    (env : EtoroEnvironment) (orderIds : list string) (log : list CancelRequest) :
  exists done extra,
    snd (cancelEach cb env orderIds log) = log ++ extra /\
    (length extra <= 2 * length done)%nat /\
    List.Forall (fun r => In (requestedId r) done) extra /\
    ((done = orderIds /\ forallb (cancellable cb) orderIds = true /\
      fst (cancelEach cb env orderIds log) = Ok tt) \/
     (exists cancelled bad rest,
        orderIds = cancelled ++ bad :: rest /\ done = cancelled ++ [bad] /\
        forallb (cancellable cb) cancelled = true /\ cancellable cb bad = false /\
        fst (cancelEach cb env orderIds log) = on_delete_close cb bad /\
        is_ok (fst (cancelEach cb env orderIds log)) = false)).
Proof.
  revert log. induction orderIds as [|orderId rest IH]; intros log.
  - exists [], []. cbn. rewrite app_nil_r. split; [reflexivity|].
    split; [lia|]. split; [constructor|]. left. auto.
  - cbn [cancelEach].
    destruct (cancelOrder_spec cb env orderId log) as (e1 & Hlog1 & Hlen1 & Hid1 & Hres).
    destruct (cancelOrder cb env orderId log) as [r log1]. cbn [fst snd] in *.
    destruct (cancellable cb orderId) eqn:Hc.
    + subst r.
      destruct (IH log1) as (done & e2 & Hlog2 & Hlen2 & Hid2 & Hcases).
      exists (orderId :: done), (e1 ++ e2).
      split; [rewrite Hlog2, Hlog1, <- app_assoc; reflexivity|].
      split; [rewrite length_app; cbn [length]; lia|].
      split.
      { apply Forall_app. split.
        - eapply List.Forall_impl; [|exact Hid1]. intros a Ha. left. symmetry. exact Ha.
        - eapply List.Forall_impl; [|exact Hid2]. intros a Ha. right. exact Ha. }
      destruct Hcases as [(Hd & Hall & Hok)|(cancelled & bad & rest' & Hids & Hd & Hall & Hbad & Hres & Hfail)].
      * left. subst done. cbn [forallb]. rewrite Hc, Hall. auto.
      * right. exists (orderId :: cancelled), bad, rest'.
        subst done rest. cbn [forallb]. rewrite Hc, Hall. auto 10.
    + destruct Hres as (Hr & Hfail).
      destruct r as [[]|e]; [rewrite <- Hr in Hfail; discriminate|].
      exists [orderId], e1. cbn [fst snd].
      split; [exact Hlog1|]. split; [cbn [length]; lia|].
      split.
      { eapply List.Forall_impl; [|exact Hid1]. intros a Ha. left. symmetry. exact Ha. }
      right. exists [], orderId, rest. cbn. auto 10.
Qed.

End CancelFacts.

(** ** Bearer-token check ([constantTimeCompare], [isAuthorized]) *)

Section AuthFacts.
Import JsString Auth.

Lemma charCode_inj x y : charCode x = charCode y -> x = y.
Proof.
  unfold charCode. intros H. apply Nat2Z.inj in H.
  rewrite <- (ascii_nat_embedding x), <- (ascii_nat_embedding y), H. reflexivity.
Qed.

Lemma mismatchLoop_zero : forall a b m,
  String.length a = String.length b ->
  (mismatchLoop m a b = 0 <-> m = 0 /\ a = b).
Proof.
  induction a as [|x a IH]; intros [|y b] m Hlen; cbn in Hlen; try discriminate.
  - cbn. split; [auto | intros []; assumption].
  - cbn [mismatchLoop]. rewrite IH by lia.
    rewrite Z.lor_eq_0_iff, Z.lxor_eq_0_iff. split.
    + intros ((Hm & Hxy) & Hab). apply charCode_inj in Hxy. subst. auto.
    + intros (Hm & Heq). injection Heq as -> ->. auto.
Qed.

Lemma constantTimeCompare_eq a b : constantTimeCompare a b = true <-> a = b.
Proof.
  unfold constantTimeCompare.
  destruct (Nat.eqb_spec (String.length a) (String.length b)) as [Hlen|Hlen]; cbn [negb].
  - rewrite Z.eqb_eq, mismatchLoop_zero by exact Hlen. split; [intros []; assumption | auto].
  - split; [discriminate|]. intros <-. contradiction.
Qed.

(** X15: [constantTimeCompare] decides equality of its two strings: it
    answers true exactly when they are the same, whatever their lengths,
    and the xor accumulated over two strings of equal length is zero only
    when no position differs. *)
Theorem X15_constantTimeCompare_is_equality (a b : string) :
  (constantTimeCompare a b = true <-> a = b) /\
  (String.length a = String.length b -> (mismatchLoop 0 a b = 0 <-> a = b)).
Proof.
  split; [apply constantTimeCompare_eq|].
  intros Hlen. rewrite mismatchLoop_zero by exact Hlen.
  split; [intros []; assumption | auto].
Qed.

Lemma prefix_drop p : forall s,
  String.prefix p s = true -> s = String.append p (drop (String.length p) s).
Proof.
  induction p as [|c p IH]; intros s H.
  - reflexivity.
  - destruct s as [|d s]; [discriminate H|].
    cbn [String.prefix] in H.
    destruct (ascii_dec c d) as [->|]; [|discriminate H].
    rewrite append_cons. cbn [String.length drop]. f_equal. apply IH. exact H.
Qed.

Lemma prefix_append p s : String.prefix p (String.append p s) = true.
Proof.
  induction p as [|c p IH]; [destruct s; reflexivity|].
  rewrite append_cons. cbn [String.prefix].
  destruct (ascii_dec c c); [exact IH | contradiction].
Qed.

Lemma drop_append p s : drop (String.length p) (String.append p s) = s.
Proof.
  induction p as [|c p IH]; [reflexivity|].
  rewrite append_cons. cbn [String.length drop]. exact IH.
Qed.

(** X16: a request is authorized exactly when a non-empty API token is
    configured and the Authorization header is the word Bearer, one space
    and that token, character for character. *)
Theorem X16_isAuthorized_iff_bearer_token (authHeader token : option string) :
  isAuthorized authHeader token = true <->
  exists tok, token = Some tok /\ tok <> EmptyString /\
              authHeader = Some (String.append "Bearer " tok).
Proof.
  unfold isAuthorized. split.
  - destruct token as [tok|]; [|discriminate].
    destruct (truthy tok) eqn:Ht; cbn [negb]; [|discriminate].
    destruct authHeader as [h|]; [|discriminate].
    destruct (startsWith "Bearer " h) eqn:Hp; cbn [negb]; [|discriminate].
    intros Hc. apply constantTimeCompare_eq in Hc.
    exists tok. split; [reflexivity|]. split; [apply truthy_true; exact Ht|].
    f_equal. rewrite <- Hc. apply (prefix_drop "Bearer " h Hp).
  - intros (tok & -> & Hne & ->).
    apply truthy_true in Hne. rewrite Hne. cbn [negb].
    unfold startsWith. rewrite prefix_append. cbn [negb].
    pose proof (drop_append "Bearer " tok) as Hd. cbn [String.length] in Hd.
    rewrite Hd.
    apply constantTimeCompare_eq. reflexivity.
Qed.

End AuthFacts.

(** ** Instrument cache ([resolveInstrumentId], [searchExactSymbol],
    [resolveMetadata], [resolveSymbol]) and [getAsset] *)

Section InstrumentCacheFacts.
Import JsString Instruments Trading TradingReads InstrumentReads.

Lemma resolveInstrumentId_direct b s w i sym :
  cacheMiss (now w) (instruments w) (toUpperCase (trim s)) ->
  searchOutcome b (toUpperCase (trim s)) = Ok (Some (i, sym)) ->
  exists meta,
    resolveInstrumentId b s w =
      (Ok i,
       mkWorld (now w + latency b (GET_search (toUpperCase (trim s))))
               (log w ++ [GET_search (toUpperCase (trim s))]) (env w)
               (mkInstrumentCache
                  (<[toUpperCase (trim s) :=
                       mkSymbolEntry i (now w + latency b (GET_search (toUpperCase (trim s))))]>
                     (symbolToId (instruments w)))
                  meta (metadataPending (instruments w))
                  (allInstrumentsFetchedAt (instruments w)))
               (trading w) (risk w)).
Proof.
  intros Hmiss Hsearch.
  rewrite (resolveInstrumentId_miss b s w Hmiss).
  destruct (buildSymbolCandidates_head (toUpperCase (trim s))) as (rest & ->).
  cbn [tryCandidates]. rewrite bind_eq, searchExactSymbol_eq, Hsearch.
  eexists. unfold bind, storeMapping, modify, ret, set_instruments.
  cbn [now log env instruments trading risk].
  rewrite (toUpperCase_idem (trim s)). reflexivity.
Qed.

(** X17: a symbol the search knows under its own (normalized) spelling is
    resolved with a single search and then served from the cache: for the
    next 30 minutes the same input resolves to the same id without any
    request and without changing anything. *)
Theorem X17_resolveInstrumentId_round_trip (b : Broker) (s : string) (w : World)
    (i : Z) (sym : string) :
  cacheMiss (now w) (instruments w) (toUpperCase (trim s)) ->
  searchOutcome b (toUpperCase (trim s)) = Ok (Some (i, sym)) ->
  let w1 := snd (resolveInstrumentId b s w) in
  fst (resolveInstrumentId b s w) = Ok i /\
  log w1 = log w ++ [GET_search (toUpperCase (trim s))] /\
  forall w2,
    symbolToId (instruments w2) = symbolToId (instruments w1) ->
    now w1 <= now w2 < now w1 + ttlMs ->
    resolveInstrumentId b s w2 = (Ok i, w2).
Proof.
  intros Hmiss Hsearch. cbv zeta.
  destruct (resolveInstrumentId_direct b s w i sym Hmiss Hsearch) as (meta & ->).
  cbn [fst snd now log instruments symbolToId].
  split; [reflexivity|]. split; [reflexivity|].
  intros w2 Hmap Hnow. unfold resolveInstrumentId. rewrite bind_eq.
  change (get_world w2) with (Ok w2, w2). cbv beta iota.
  rewrite Hmap, lookup_insert_eq. cbn [updatedAt id]. unfold isFresh.
  replace (now w2 - _ <? ttlMs) with true; [reflexivity|].
  symmetry. apply Z.ltb_lt. lia.
Qed.

Lemma X17_resolveInstrumentId_round_trip_witness :
  fst (resolveInstrumentId (Scenario.aapl_broker 101) " aapl"
         (Scenario.world0 Scenario.risk_normal)) = Ok 999.
Proof.
  apply (X17_resolveInstrumentId_round_trip (Scenario.aapl_broker 101) " aapl"
           (Scenario.world0 Scenario.risk_normal) 999 "AAPL"); reflexivity.
Defined.

Lemma tryCandidates_failure b cs : forall w e w',
  tryCandidates b cs w = (Err e, w') ->
  instruments w' = instruments w /\ trading w' = trading w /\ risk w' = risk w /\
  ((e = NOT_FOUND /\ List.Forall (fun c => searchOutcome b c = Ok None) cs) \/
   (exists c, In c cs /\ on_search b c = Err e)).
Proof.
  induction cs as [|c cs IH]; intros w e w' H; cbn [tryCandidates] in H.
  - unfold throw in H. injection H as <- <-.
    split; [reflexivity|]. split; [reflexivity|]. split; [reflexivity|].
    left. split; [reflexivity | constructor].
  - unfold bind at 1 in H. rewrite searchExactSymbol_eq in H.
    destruct (searchOutcome b c) as [[[i sym]|]|e'] eqn:Hs.
    + cbn in H. discriminate H.
    + apply IH in H as (Hi & Ht & Hr & Hcases).
      split; [exact Hi|]. split; [exact Ht|]. split; [exact Hr|].
      destruct Hcases as [(He & Hall)|(c' & Hin & Hc')].
      * left. split; [exact He|]. constructor; assumption.
      * right. exists c'. split; [right; exact Hin | exact Hc'].
    + injection H as <- <-.
      split; [reflexivity|]. split; [reflexivity|]. split; [reflexivity|].
      right. exists c. split; [left; reflexivity|].
      unfold searchOutcome in Hs. destruct (on_search b c); congruence.
Qed.

(** X18: a failed [resolveInstrumentId] leaves both caches as they were.
    Its error is NOT_FOUND when every candidate spelling was searched
    without a usable match, and otherwise the error of the search request
    of one of the candidates. *)
Theorem X18_resolveInstrumentId_failure (b : Broker) (s : string) (w w' : World)
    (e : ErrorCode) :
  resolveInstrumentId b s w = (Err e, w') ->
  instruments w' = instruments w /\ trading w' = trading w /\ risk w' = risk w /\
  ((e = NOT_FOUND /\
    List.Forall (fun c => searchOutcome b c = Ok None)
                (buildSymbolCandidates (toUpperCase (trim s)))) \/
   (exists c, In c (buildSymbolCandidates (toUpperCase (trim s))) /\
              on_search b c = Err e)).
Proof.
  unfold resolveInstrumentId. rewrite bind_eq.
  change (get_world w) with (Ok w, w). cbv beta iota.
  destruct (symbolToId (instruments w) !! _) as [cached|].
  - destruct (isFresh _ _); [discriminate|]. apply tryCandidates_failure.
  - apply tryCandidates_failure.
Qed.

Lemma X18_resolveInstrumentId_failure_witness :
  exists w',
    resolveInstrumentId (Scenario.aapl_broker 101) "MSFT"
      (Scenario.world0 Scenario.risk_normal) = (Err NOT_FOUND, w') /\
    instruments w' = instruments (Scenario.world0 Scenario.risk_normal).
Proof.
  eexists. split; [vm_compute; reflexivity|].
  eapply (X18_resolveInstrumentId_failure (Scenario.aapl_broker 101) "MSFT").
  vm_compute. reflexivity.
Defined.

Lemma find_some_In {A} (f : A -> bool) l x : List.find f l = Some x -> In x l /\ f x = true.
Proof. apply List.find_some. Qed.

(** X19: what [searchExactSymbol] makes of a response.  A result always
    carries a non-zero instrument id taken from one of the returned items;
    when some item bears exactly the searched symbol, a result is reported
    under the searched symbol; when none does, the first item of the
    response decides alone. *)
Theorem X19_pickSearchResult_prefers_exact_match (symbol : string)
    (response : EtoroSearchResponse) :
  (forall i sym, pickSearchResult symbol response = Some (i, sym) ->
     i <> 0 /\
     exists item, In item (extractItems response) /\
                  extractInstrumentId item = Some i /\
                  sym = nullish (extractSymbol item) symbol) /\
  (forall item, In item (extractItems response) -> symbol_is symbol item = true ->
     forall i sym, pickSearchResult symbol response = Some (i, sym) -> sym = symbol) /\
  (List.forallb (fun item => negb (symbol_is symbol item)) (extractItems response) = true ->
   pickSearchResult symbol response =
     match extractItems response with
     | [] => None
     | first :: _ =>
         match extractInstrumentId first with
         | Some i => if i =? 0 then None
                     else Some (i, nullish (extractSymbol first) symbol)
         | None => None
         end
     end).
Proof.
  unfold pickSearchResult. split; [|split].
  - intros i sym H.
    destruct (nullish_opt _ _) as [candidate|] eqn:Hc; [|discriminate].
    assert (Hin : In candidate (extractItems response)).
    { unfold nullish_opt in Hc.
      destruct (List.find _ _) as [d|] eqn:Hf.
      - injection Hc as <-. apply (find_some_In _ _ _ Hf).
      - destruct (extractItems response); [discriminate|].
        injection Hc as <-. left. reflexivity. }
    destruct (extractInstrumentId candidate) as [j|] eqn:Hj; [|discriminate].
    destruct (Z.eqb_spec j 0); [discriminate|].
    injection H as <- <-. split; [assumption|].
    exists candidate. auto.
  - intros item Hin Hsym i sym H.
    destruct (List.find (symbol_is symbol) (extractItems response)) as [d|] eqn:Hf.
    + cbn [nullish_opt] in H. apply find_some_In in Hf as (_ & Hd).
      unfold symbol_is in Hd.
      destruct (extractSymbol d) as [s0|]; [|discriminate].
      apply String.eqb_eq in Hd. subst s0. cbn [nullish] in H.
      destruct (extractInstrumentId d) as [j|]; [|discriminate].
      destruct (j =? 0); [discriminate|]. injection H as _ <-. reflexivity.
    + exfalso. pose proof (List.find_none _ _ Hf item Hin). congruence.
  - intros Hnone.
    assert (Hf : List.find (symbol_is symbol) (extractItems response) = None).
    { destruct (List.find _ _) as [d|] eqn:Hf; [|reflexivity].
      apply find_some_In in Hf as (Hin & Hd).
      rewrite List.forallb_forall in Hnone. specialize (Hnone d Hin).
      rewrite Hd in Hnone. discriminate. }
    rewrite Hf. cbn [nullish_opt].
    destruct (extractItems response); reflexivity.
Qed.

Lemma uniq_from_In seen ids x :
  In x (uniq_from seen ids) <-> In x ids /\ ~ In x seen.
Proof.
  revert seen. induction ids as [|i rest IH]; intros seen; cbn [uniq_from].
  - split; [intros [] | intros ([] & _)].
  - destruct (existsb (Z.eqb i) seen) eqn:Hs.
    + apply existsb_eqb_In in Hs. rewrite IH. split.
      * intros (H1 & H2). split; [right; exact H1 | exact H2].
      * intros ([<-|H1] & H2); [contradiction | split; assumption].
    + assert (Hns : ~ In i seen).
      { intros H. apply existsb_eqb_In in H. congruence. }
      cbn [In]. rewrite IH. cbn [In]. split.
      * intros [<-|(H1 & H2)]; [split; [left; reflexivity | exact Hns]|].
        split; [right; exact H1 | intros H; apply H2; right; exact H].
      * intros ([<-|H1] & H2); [left; reflexivity|].
        destruct (Z.eq_dec i x) as [<-|Hne]; [left; reflexivity|].
        right. split; [exact H1|]. intros [H|H]; [contradiction | contradiction].
Qed.

Lemma uniq_In ids x : In x (uniq ids) <-> In x ids.
Proof. unfold uniq. rewrite uniq_from_In. cbn. tauto. Qed.

(** The loops of [resolveMetadata] that copy entries into the result. *)
Lemma fold_set_lookup (f : Z -> option CachedInstrument) ids :
  forall (acc : gmap Z CachedInstrument) x,
  fold_left (fun m id => match f id with
                         | Some v => <[id := v]> m
                         | None => m
                         end) ids acc !! x =
  match (if existsb (Z.eqb x) ids then f x else None) with
  | Some v => Some v
  | None => acc !! x
  end.
Proof.
  induction ids as [|i rest IH]; intros acc x; cbn [fold_left existsb]; [reflexivity|].
  rewrite IH. destruct (Z.eqb_spec x i) as [->|Hne]; cbn [orb].
  - destruct (existsb (Z.eqb i) rest); destruct (f i) as [v|];
      rewrite ?lookup_insert_eq; reflexivity.
  - destruct (existsb (Z.eqb x) rest); destruct (f x) as [v|]; try reflexivity;
      destruct (f i) as [v'|]; rewrite ?lookup_insert_ne by congruence; reflexivity.
Qed.

Lemma existsb_In_false x ids : ~ In x ids -> existsb (Z.eqb x) ids = false.
Proof.
  intros H. destruct (existsb (Z.eqb x) ids) eqn:E; [|reflexivity].
  apply existsb_eqb_In in E. contradiction.
Qed.

Lemma existsb_In_true x ids : In x ids -> existsb (Z.eqb x) ids = true.
Proof. apply existsb_eqb_In. Qed.

(** A response entry overrides what the cache held; the cache keeps the
    rest. *)
Lemma storeMetadata_over t datas : forall (acc : gmap Z CachedInstrument) x,
  storeMetadata t datas acc !! x =
  match storeMetadata t datas ∅ !! x with
  | Some v => Some v
  | None => acc !! x
  end.
Proof.
  unfold storeMetadata.
  assert (H : forall (acc acc' : gmap Z CachedInstrument) x,
    (forall v, acc' !! x = Some v -> acc !! x = Some v) ->
    fold_left (fun m item => match metadataOfItem t item with
                             | Some (id, meta) => <[id := meta]> m
                             | None => m
                             end) datas acc !! x =
    match fold_left (fun m item => match metadataOfItem t item with
                                   | Some (id, meta) => <[id := meta]> m
                                   | None => m
                                   end) datas acc' !! x with
    | Some v => Some v
    | None => acc !! x
    end).
  { induction datas as [|item rest IH]; intros acc acc' x Hsub; cbn [fold_left].
    - destruct (acc' !! x) as [v|] eqn:E; [apply Hsub; reflexivity | reflexivity].
    - destruct (metadataOfItem t item) as [[i meta]|].
      + rewrite (IH (<[i := meta]> acc) (<[i := meta]> acc') x).
        * destruct (fold_left _ rest (<[i := meta]> acc') !! x) eqn:E; [reflexivity|].
          destruct (Z.eq_dec i x) as [->|Hne].
          -- exfalso. revert E. clear. revert acc'.
             assert (G : forall m : gmap Z CachedInstrument, is_Some (m !! x) ->
               is_Some (fold_left (fun m item => match metadataOfItem t item with
                                   | Some (id, meta) => <[id := meta]> m
                                   | None => m
                                   end) rest m !! x)).
             { induction rest as [|it rest IH]; intros m Hm; cbn [fold_left]; [exact Hm|].
               apply IH. destruct (metadataOfItem t it) as [[j mj]|]; [|exact Hm].
               apply lookup_insert_is_Some. destruct (Z.eq_dec j x); auto. }
             intros acc' E. specialize (G (<[x := meta]> acc')).
             rewrite E in G. destruct G as [? G]; [|discriminate G].
             rewrite lookup_insert_eq. eauto.
          -- rewrite lookup_insert_ne by exact Hne. reflexivity.
        * intros v. destruct (Z.eq_dec i x) as [->|Hne].
          -- rewrite !lookup_insert_eq. auto.
          -- rewrite !lookup_insert_ne by exact Hne. apply Hsub.
      + apply IH. exact Hsub. }
  intros acc x. apply H. intros v Hv. rewrite lookup_empty in Hv. discriminate.
Qed.

Lemma getCachedMeta_lookup t i x c :
  getCachedMeta t i x = Some c -> idToMeta i !! x = Some c.
Proof.
  unfold getCachedMeta. destruct (idToMeta i !! x) as [cached|]; [|discriminate].
  destruct (isFresh _ _); congruence.
Qed.

Lemma filter_nil_forall {A} (f : A -> bool) l :
  List.filter f l = [] -> forall x, In x l -> f x = false.
Proof.
  induction l as [|a l IH]; intros H x Hin; [destruct Hin|].
  cbn [List.filter] in H. destruct (f a) eqn:Ha; [discriminate|].
  destruct Hin as [<-|Hin]; [exact Ha | apply IH; assumption].
Qed.

Lemma forall_filter_nil {A} (f : A -> bool) l :
  (forall x, In x l -> f x = false) -> List.filter f l = [].
Proof.
  induction l as [|a l IH]; intros H; [reflexivity|].
  cbn [List.filter]. rewrite (H a) by (left; reflexivity).
  apply IH. intros x Hx. apply H. right. exact Hx.
Qed.

Lemma resolveMetadata_spec (b : Broker) (instrumentIds : list Z)
    (w : World) :
  exists m w',
    resolveMetadata b instrumentIds w = (Ok m, w') /\
    (forall x, is_Some (m !! x) -> In x instrumentIds) /\
    (forall x v, m !! x = Some v -> idToMeta (instruments w') !! x = Some v) /\
    (forall x, In x instrumentIds ->
               is_Some (getCachedMeta (now w) (instruments w) x) -> is_Some (m !! x)) /\
    ((forall x, In x instrumentIds ->
                is_Some (getCachedMeta (now w) (instruments w) x)) \/
     now w - allInstrumentsFetchedAt (instruments w) < ALL_INSTRUMENTS_CACHE_TTL_MS ->
     w' = w).
Proof.
  unfold resolveMetadata. rewrite bind_eq.
  change (get_world w) with (Ok w, w). cbv beta iota zeta.
  set (cachedOf := getCachedMeta (now w) (instruments w)).
  set (result := fold_left _ (uniq instrumentIds) ∅).
  assert (Hresult : forall x, result !! x =
                      if existsb (Z.eqb x) (uniq instrumentIds) then cachedOf x else None).
  { intros x. unfold result. rewrite fold_set_lookup, lookup_empty.
    destruct (existsb _ _); [destruct (cachedOf x)|]; reflexivity. }
  assert (Hin : forall x, existsb (Z.eqb x) (uniq instrumentIds) = true <-> In x instrumentIds).
  { intros x. rewrite existsb_eqb_In. apply uniq_In. }
  destruct (Nat.ltb 0 _ && negb _)%bool eqn:Hcond.
  - apply andb_true_iff in Hcond as (Hmissing & Hstale).
    rewrite bind_eq. unfold metadataFetchStart, metadataSettled, elapse.
    set (datas := match on_instruments b with
                  | Ok response => nullish (instrumentDisplayDatas response) []
                  | Err _ => []
                  end).
    destruct (metadataPending (instruments w)) as [p|] eqn:Hp;
      cbn [now log env instruments trading risk set_instruments symbolToId idToMeta
           metadataPending allInstrumentsFetchedAt];
      rewrite bind_eq; unfold get_world, ret;
      cbn [now log env instruments trading risk set_instruments symbolToId idToMeta
           metadataPending allInstrumentsFetchedAt];
      (eexists _, _; split; [reflexivity|]);
      set (t := now w + latency b GET_instruments);
      (split; [|split; [|split]]).
    all: [> intros x Hx; rewrite fold_set_lookup, Hresult in Hx;
        destruct (existsb (Z.eqb x) (uniq instrumentIds)) eqn:Hex;
        [apply Hin; exact Hex | destruct Hx as [? Hx]; discriminate Hx]
      | intros x v Hx; cbn [instruments set_instruments idToMeta];
        rewrite fold_set_lookup, Hresult in Hx;
        rewrite (storeMetadata_over t datas (idToMeta (instruments w)) x) in *;
        destruct (existsb (Z.eqb x) (uniq instrumentIds)); [|discriminate Hx];
        destruct (storeMetadata t datas ∅ !! x) as [v'|]; cbn [nullish_opt] in *;
        [exact Hx|];
        destruct (idToMeta (instruments w) !! x) as [v'|] eqn:Hold;
        [exact Hx|];
        destruct (cachedOf x) as [c|] eqn:Hc; [|discriminate Hx];
        apply getCachedMeta_lookup in Hc; congruence
      | intros x Hx Hc; rewrite fold_set_lookup, Hresult;
        apply Hin in Hx; rewrite Hx;
        destruct (nullish_opt _ _); [eauto | exact Hc]
      | intros [Hall|Hrecent]; exfalso;
        [assert (Hnil : List.filter (fun id => negb (is_Some_b (cachedOf id)))
                                    (uniq instrumentIds) = [])
           by (apply forall_filter_nil; intros x Hx; apply (proj1 (uniq_In _ _)) in Hx;
               destruct (Hall x Hx) as [c Hc]; rewrite Hc; reflexivity);
         apply Nat.ltb_lt in Hmissing; rewrite Hnil in Hmissing;
         cbn in Hmissing; lia
        | apply negb_true_iff, Z.ltb_ge in Hstale; lia]
      | intros x Hx; rewrite fold_set_lookup, Hresult in Hx;
        destruct (existsb (Z.eqb x) (uniq instrumentIds)) eqn:Hex;
        [apply Hin; exact Hex | destruct Hx as [? Hx]; discriminate Hx]
      | intros x v Hx; cbn [instruments set_instruments idToMeta];
        rewrite fold_set_lookup, Hresult in Hx;
        rewrite (storeMetadata_over t datas (idToMeta (instruments w)) x) in *;
        destruct (existsb (Z.eqb x) (uniq instrumentIds)); [|discriminate Hx];
        destruct (storeMetadata t datas ∅ !! x) as [v'|]; cbn [nullish_opt] in *;
        [exact Hx|];
        destruct (idToMeta (instruments w) !! x) as [v'|] eqn:Hold;
        [exact Hx|];
        destruct (cachedOf x) as [c|] eqn:Hc; [|discriminate Hx];
        apply getCachedMeta_lookup in Hc; congruence
      | intros x Hx Hc; rewrite fold_set_lookup, Hresult;
        apply Hin in Hx; rewrite Hx;
        destruct (nullish_opt _ _); [eauto | exact Hc]
      | intros [Hall|Hrecent]; exfalso;
        [assert (Hnil : List.filter (fun id => negb (is_Some_b (cachedOf id)))
                                    (uniq instrumentIds) = [])
           by (apply forall_filter_nil; intros x Hx; apply (proj1 (uniq_In _ _)) in Hx;
               destruct (Hall x Hx) as [c Hc]; rewrite Hc; reflexivity);
         apply Nat.ltb_lt in Hmissing; rewrite Hnil in Hmissing;
         cbn in Hmissing; lia
        | apply negb_true_iff, Z.ltb_ge in Hstale; lia] ].
  - unfold ret. eexists _, _. split; [reflexivity|].
    split; [|split; [|split]].
    + intros x Hx. rewrite Hresult in Hx.
      destruct (existsb (Z.eqb x) (uniq instrumentIds)) eqn:Hex;
        [apply Hin; exact Hex | destruct Hx as [? Hx]; discriminate Hx].
    + intros x v Hx. rewrite Hresult in Hx.
      destruct (existsb _ _); [|discriminate Hx].
      apply getCachedMeta_lookup in Hx. exact Hx.
    + intros x Hx Hc. rewrite Hresult. apply Hin in Hx. rewrite Hx. exact Hc.
    + reflexivity.
Qed.

(** X20: [resolveMetadata] never fails.  Its result only has entries for
    requested ids, every entry is the one the cache holds for that id once
    the call is over, and every requested id with a fresh cached entry is
    in it.  No request is sent and nothing changes when every requested id
    is fresh in the cache, or when the full list was fetched less than 60 s
    ago. *)
Theorem X20_resolveMetadata_result_is_cached (b : Broker) (instrumentIds : list Z)
    (w : World) :
  exists m w',
    resolveMetadata b instrumentIds w = (Ok m, w') /\
    (forall x, is_Some (m !! x) -> In x instrumentIds) /\
    (forall x v, m !! x = Some v -> idToMeta (instruments w') !! x = Some v) /\
    (forall x, In x instrumentIds ->
               is_Some (getCachedMeta (now w) (instruments w) x) -> is_Some (m !! x)) /\
    ((forall x, In x instrumentIds ->
                is_Some (getCachedMeta (now w) (instruments w) x)) \/
     now w - allInstrumentsFetchedAt (instruments w) < ALL_INSTRUMENTS_CACHE_TTL_MS ->
     w' = w).
Proof. apply resolveMetadata_spec. Qed.

Lemma X20_resolveMetadata_result_is_cached_witness :
  exists m,
    resolveMetadata Scenario.holding_broker [999; 999; 5]
      (Scenario.world0 Scenario.risk_normal) =
      (Ok m, snd (resolveMetadata Scenario.holding_broker [999; 999; 5]
                    (Scenario.world0 Scenario.risk_normal))) /\
    is_Some (m !! 999) /\ m !! 5 = None.
Proof.
  destruct (X20_resolveMetadata_result_is_cached Scenario.holding_broker [999; 999; 5]
              (Scenario.world0 Scenario.risk_normal)) as (m & w' & E & _).
  exists m. rewrite E. split; [reflexivity|].
  vm_compute in E. injection E as <- _. split; [eexists|]; vm_compute; reflexivity.
Defined.

Lemma set_add_In x y l : In y (set_add x l) <-> y = x \/ In y l.
Proof.
  induction l as [|z rest IH]; cbn [set_add].
  - cbn. intuition congruence.
  - destruct (String.eqb_spec x z) as [->|Hne]; cbn [In].
    + intuition congruence.
    + rewrite IH. intuition congruence.
Qed.

Lemma set_add_NoDup x l : List.NoDup l -> List.NoDup (set_add x l).
Proof.
  induction l as [|z rest IH]; intros Hnd; cbn [set_add].
  - constructor; [intros [] | constructor].
  - destruct (String.eqb_spec x z) as [->|Hne]; [exact Hnd|].
    inversion Hnd as [|? ? Hnotin Hrest]; subst.
    constructor; [|apply IH; exact Hrest].
    rewrite set_add_In. intros [->|Hin]; [apply Hne; reflexivity | contradiction].
Qed.

Lemma buildSymbolCandidates_NoDup symbol : List.NoDup (buildSymbolCandidates symbol).
Proof.
  unfold buildSymbolCandidates.
  assert (H0 : List.NoDup [symbol]) by (constructor; [intros [] | constructor]).
  destruct (includes "/" symbol); [|destruct (endsWith "USD" symbol)];
    [| |exact H0]; apply set_add_NoDup, set_add_NoDup, H0.
Qed.

Lemma candidateTrace_prefix b cs :
  exists n, (1 <= n \/ cs = [])%nat /\
            fst (candidateTrace b cs) = map GET_search (firstn n cs).
Proof.
  induction cs as [|c rest IH]; cbn [candidateTrace].
  - exists 0%nat. split; [right; reflexivity | reflexivity].
  - destruct (searchOutcome b c) as [[[i sym]|]|e].
    + exists 1%nat. split; [left; lia | reflexivity].
    + destruct IH as (n & _ & IH). destruct (candidateTrace b rest) as [reqs r].
      cbn [fst] in *. exists (S n). split; [left; lia|]. cbn [firstn map]. rewrite IH.
      reflexivity.
    + exists 1%nat. split; [left; lia | reflexivity].
Qed.

(** X25: within one call [resolveInstrumentId] never searches the same
    spelling twice.  What it sends is a search for each spelling of an
    initial stretch of the candidate list, in order; the candidates are at
    most three and pairwise different, and the first is the normalized
    input.  A fresh cache entry is answered with no search at all and
    without any change. *)
Theorem X25_resolveInstrumentId_searches_distinct_candidates (b : Broker)
    (s : string) (w : World) :
  let candidates := buildSymbolCandidates (toUpperCase (trim s)) in
  List.NoDup candidates /\ (1 <= length candidates <= 3)%nat /\
  head candidates = Some (toUpperCase (trim s)) /\
  (exists n, log (snd (resolveInstrumentId b s w)) =
             log w ++ map GET_search (firstn n candidates)) /\
  (forall cached, symbolToId (instruments w) !! toUpperCase (trim s) = Some cached ->
                  isFresh (now w) (updatedAt cached) = true ->
                  resolveInstrumentId b s w = (Ok (id cached), w)).
Proof.
  cbv zeta. split; [apply buildSymbolCandidates_NoDup|].
  split; [apply buildSymbolCandidates_length|].
  split; [destruct (buildSymbolCandidates_head (toUpperCase (trim s))) as (rest & ->);
          reflexivity|].
  split.
  - unfold resolveInstrumentId. rewrite bind_eq.
    change (get_world w) with (Ok w, w). cbv beta iota.
    assert (Hloop : exists n,
              log (snd (tryCandidates b (buildSymbolCandidates (toUpperCase (trim s))) w)) =
              log w ++ map GET_search
                         (firstn n (buildSymbolCandidates (toUpperCase (trim s))))).
    { destruct (tryCandidates_trace b (buildSymbolCandidates (toUpperCase (trim s))) w)
        as (_ & ->).
      destruct (candidateTrace_prefix b (buildSymbolCandidates (toUpperCase (trim s))))
        as (n & _ & ->).
      exists n. reflexivity. }
    destruct (symbolToId (instruments w) !! _) as [cached|]; [|exact Hloop].
    destruct (isFresh _ _); [|exact Hloop].
    exists 0%nat. cbn. rewrite app_nil_r. reflexivity.
  - intros cached Hc Hf. unfold resolveInstrumentId. rewrite bind_eq.
    change (get_world w) with (Ok w, w). cbv beta iota. rewrite Hc, Hf. reflexivity.
Qed.

(** X21: [resolveSymbol] never fails.  A fresh cached entry is answered
    from the cache without any effect; otherwise the answer is the symbol
    the cache holds for the id once the call is over, or the id in decimal
    when the lookup found nothing. *)
Theorem X21_resolveSymbol_never_fails (b : Broker) (instrumentId : Z) (w : World) :
  exists s w',
    resolveSymbol b instrumentId w = (Ok s, w') /\
    (s = pretty instrumentId \/
     exists c, idToMeta (instruments w') !! instrumentId = Some c /\ s = symbol c) /\
    (forall c, getCachedMeta (now w) (instruments w) instrumentId = Some c ->
               s = symbol c /\ w' = w).
Proof.
  unfold resolveSymbol. rewrite bind_eq.
  change (get_world w) with (Ok w, w). cbv beta iota.
  destruct (getCachedMeta (now w) (instruments w) instrumentId) as [cached|] eqn:Hc.
  - exists (symbol cached), w. split; [reflexivity|]. split.
    + right. exists cached. split; [|reflexivity].
      eapply getCachedMeta_lookup. exact Hc.
    + intros c [= <-]. auto.
  - rewrite bind_eq.
    destruct (resolveMetadata_spec b [instrumentId] w) as (m & w' & -> & _ & Hsub & _).
    destruct (m !! instrumentId) as [found|] eqn:Hm.
    + exists (symbol found), w'. split; [reflexivity|]. split; [|discriminate].
      right. exists found. split; [apply Hsub; exact Hm | reflexivity].
    + exists (pretty instrumentId), w'. split; [reflexivity|]. split; [|discriminate].
      left. reflexivity.
Qed.

(** X22: [getAsset] answers null exactly for NOT_FOUND.  When the symbol
    resolves it returns an asset for the resolved instrument, with an
    upper-case symbol; a NOT_FOUND from the resolution becomes null; every
    other error of the resolution is raised unchanged. *)
Theorem X22_getAsset_null_on_not_found (b : Broker) (sym : string) (w : World) :
  match resolveInstrumentId b sym w with
  | (Ok i, _) =>
      exists a w2,
        getAsset b sym w = (Ok (Some a), w2) /\
        asset_instrument a = i /\
        is_upper (asset_symbol a) /\
        (idToMeta (instruments w2) !! i = None ->
         asset_symbol a = toUpperCase sym /\ asset_exchange a = None)
  | (Err NOT_FOUND, w1) => getAsset b sym w = (Ok None, w1)
  | (Err e, w1) => getAsset b sym w = (Err e, w1)
  end.
Proof.
  unfold getAsset, try_catch. rewrite bind_eq.
  destruct (resolveInstrumentId b sym w) as [[i|e] w1].
  - rewrite bind_eq.
    destruct (resolveMetadata_spec b [i] w1) as (m & w2 & -> & _ & Hsub & _).
    unfold ret. eexists _, w2. split; [reflexivity|].
    cbn [asset_instrument asset_symbol asset_exchange].
    split; [reflexivity|]. split; [apply toUpperCase_idem|].
    intros Hnone. destruct (m !! i) as [d|] eqn:Hm.
    + apply Hsub in Hm. congruence.
    + split; reflexivity.
  - destruct e; reflexivity.
Qed.

End InstrumentCacheFacts.
